(** * MyGroupCache: a shallow embedding of the Go sources and its properties

    The packages [lru], [consistenthash], [singleflight], [geecache] and
    [main] of the repository are embedded below, one Rocq module per Go
    package, and followed by the theorems about them.

    Conventions.
    - A Go [string] is a Rocq [string] (a sequence of bytes); [len(s)] is
      [String.length s].
    - A Go [int64] is a [Z]; every arithmetic operation of the sources is
      written with its two's complement wrap-around ([int64.wrap]).
    - A Go [map] is a [gmap]; a Go pointer is an address ([nat]) into an
      explicit store, so that two holders of a pointer see the same object.
    - A Go call either returns, panics or never returns: [outcome]. *)

From Stdlib Require Import ZArith Lia.
From stdpp Require Import base tactics option list sorting gmap strings pretty.

Local Open Scope Z_scope.

(** ** Go prelude *)

Module go.

(** The three ways a Go call can end. *)
Inductive outcome (A : Type) : Type :=
| Ret (a : A)
| Panic (msg : string)
| Diverge.
Global Arguments Ret {A} a.
Global Arguments Panic {A} msg.
Global Arguments Diverge {A}.

Definition bind {A B : Type} (m : outcome A) (k : A → outcome B) : outcome B :=
  match m with
  | Ret a => k a
  | Panic msg => Panic msg
  | Diverge => Diverge
  end.

(** The message of the run-time panic raised by a nil dereference. *)
Definition nil_deref : string :=
  "runtime error: invalid memory address or nil pointer dereference".

(** The message of the run-time panic raised by [s[lo:]] with [lo > len(s)]. *)
Definition slice_bounds : string :=
  "runtime error: slice bounds out of range".

End go.

Export go.

Global Instance outcome_ret : MRet outcome := @Ret.
Global Instance outcome_bind : MBind outcome := λ A B k m, go.bind m k.

(** Two's complement 64-bit integers. *)
Module int64.

Definition wrap (z : Z) : Z := (z + 2 ^ 63) `mod` 2 ^ 64 - 2 ^ 63.
Definition add (a b : Z) : Z := wrap (a + b).
Definition sub (a b : Z) : Z := wrap (a - b).
(** [int64(len(s))] *)
Definition of_len (s : string) : Z := wrap (Z.of_nat (String.length s)).
(** Equality of the 64-bit patterns of two integers. *)
Definition eqm (a b : Z) : Prop := a `mod` 2 ^ 64 = b `mod` 2 ^ 64.

End int64.

(** Go's [container/list], restricted to the four operations the cache
  uses.  A list is the sequence of its element pointers, front first. *)
Module list_.

Definition Element := nat.

(** [l.MoveToFront(e)]: nothing happens when [e] is not an element of [l]
    (or already is the front). *)
Definition MoveToFront (l : list Element) (e : Element) : list Element :=
  if decide (e ∈ l) then e :: filter (λ x, x ≠ e) l else l.

(** [l.Back()]: the last element, or nil. *)
Definition Back (l : list Element) : option Element := last l.

(** [l.Remove(e)] *)
Definition Remove (l : list Element) (e : Element) : list Element :=
  filter (λ x, x ≠ e) l.

(** [l.PushFront(v)], for the freshly allocated element [e]. *)
Definition PushFront (l : list Element) (e : Element) : list Element := e :: l.

End list_.

(** ** Package lru *)

(** [type Value interface { Len() int }] *)
Class Value (V : Type) := Len : V → Z.

Module lru.
Section lru.

Context {V : Type} `{!Value V}.
(** The part of the world the eviction callback acts on. *)
Context {W : Type}.

Import list_.

(** [type entry struct { key string; value Value }] *)
Record entry := Entry { key : string; value : V }.

(** [type Cache struct]; [heap] holds the entry each list element points
    to (the [*entry] in [ele.Value]) and [next] is the next free address. *)
Record Cache := mkCache {
  maxBytes : Z;
  nbytes : Z;
  ll : list Element;
  cache : gmap string Element;
  OnEvicted : option (string → V → W → W);
  heap : gmap Element entry;
  next : Element
}.

Definition set_nbytes (n : Z) (c : Cache) : Cache :=
  mkCache (maxBytes c) n (ll c) (cache c) (OnEvicted c) (heap c) (next c).
Definition set_ll (l : list Element) (c : Cache) : Cache :=
  mkCache (maxBytes c) (nbytes c) l (cache c) (OnEvicted c) (heap c) (next c).
Definition set_cache (m : gmap string Element) (c : Cache) : Cache :=
  mkCache (maxBytes c) (nbytes c) (ll c) m (OnEvicted c) (heap c) (next c).
Definition set_heap (h : gmap Element entry) (c : Cache) : Cache :=
  mkCache (maxBytes c) (nbytes c) (ll c) (cache c) (OnEvicted c) h (next c).
Definition set_next (n : Element) (c : Cache) : Cache :=
  mkCache (maxBytes c) (nbytes c) (ll c) (cache c) (OnEvicted c) (heap c) n.

(** [New(maxBytes, OnEvicted)] *)
Definition New (maxBytes : Z) (OnEvicted : option (string → V → W → W)) : Cache :=
  mkCache maxBytes 0 [] ∅ OnEvicted ∅ 0%nat.

(** [kv := ele.Value], asserted to be a pointer to an [entry] *)
Definition deref (c : Cache) (ele : Element) : outcome entry :=
  match heap c !! ele with
  | Some kv => Ret kv
  | None => Panic nil_deref
  end.

(** [int64(len(kv.key)) + int64(kv.value.Len())] *)
Definition entry_bytes (kv : entry) : Z :=
  int64.add (int64.of_len (key kv)) (int64.wrap (Len (value kv))).

(** [func (c *Cache) Get(key string) (value Value, ok bool)] *)
Definition Get (c : Cache) (k : string) : outcome (option V * Cache) :=
  match cache c !! k with
  | Some ele =>
      let c := set_ll (MoveToFront (ll c) ele) c in
      kv ← deref c ele;
      Ret (Some (value kv), c)
  | None => Ret (None, c)
  end.

(** [func (c *Cache) RemoveOldest()] *)
Definition RemoveOldest (c : Cache) (w : W) : outcome (Cache * W) :=
  match Back (ll c) with
  | Some ele =>
      let c := set_ll (Remove (ll c) ele) c in
      kv ← deref c ele;
      let c := set_cache (delete (key kv) (cache c)) c in
      let c := set_nbytes (int64.sub (nbytes c) (entry_bytes kv)) c in
      match OnEvicted c with
      | Some f => Ret (c, f (key kv) (value kv) w)
      | None => Ret (c, w)
      end
  | None => Ret (c, w)
  end.

(** [c.maxBytes != 0 && c.maxBytes < c.nbytes] *)
Definition over_budget (c : Cache) : bool :=
  negb (maxBytes c =? 0) && (maxBytes c <? nbytes c).

(** [for c.maxBytes != 0 && c.maxBytes < c.nbytes { c.RemoveOldest() }],
    for at most [fuel] iterations. *)
Fixpoint evict (fuel : nat) (c : Cache) (w : W) : outcome (Cache * W) :=
  if over_budget c then
    match fuel with
    | O => Diverge
    | S fuel => '(c, w) ← RemoveOldest c w; evict fuel c w
    end
  else Ret (c, w).

(** The first half of [Add]: update in place, or insert at the front. *)
Definition put (c : Cache) (k : string) (v : V) : outcome Cache :=
  match cache c !! k with
  | Some ele =>
      let c := set_ll (MoveToFront (ll c) ele) c in
      kv ← deref c ele;
      let c := set_nbytes
        (int64.add (nbytes c)
           (int64.sub (int64.wrap (Len v)) (int64.wrap (Len (value kv))))) c in
      Ret (set_heap (<[ele := Entry (key kv) v]> (heap c)) c)
  | None =>
      let ele := next c in
      let c := set_next (S ele) (set_heap (<[ele := Entry k v]> (heap c)) c) in
      let c := set_ll (PushFront (ll c) ele) c in
      let c := set_cache (<[k := ele]> (cache c)) c in
      Ret (set_nbytes
             (int64.add (nbytes c)
                (int64.add (int64.of_len k) (int64.wrap (Len v)))) c)
  end.

(** [func (c *Cache) Add(key string, value Value)].  Once the list is
    empty [RemoveOldest] changes nothing, so a loop that has not stopped
    after [length (ll c)] evictions and one more test never stops
    (see [evict_fuel]). *)
Definition Add (c : Cache) (k : string) (v : V) (w : W) : outcome (Cache * W) :=
  c ← put c k v;
  evict (S (length (ll c))) c w.

(** [func (c *Cache) Len() int] *)
Definition Len_ (c : Cache) : Z := Z.of_nat (length (ll c)).

(** The entries present, front first. *)
Definition entries (c : Cache) : list entry :=
  omap (λ e, heap c !! e) (ll c).

(** The sum of [len(key) + value.Len()] over the entries present, in
    the [int64] arithmetic of the code. *)
Definition total_bytes (c : Cache) : Z :=
  foldr (λ kv s, int64.add (entry_bytes kv) s) 0 (entries c).

(** [len(key) + value.Len()] and its sum over the entries present, as
    integers. *)
Definition entry_size (kv : entry) : Z :=
  Z.of_nat (String.length (key kv)) + Len (value kv).

Definition total_size (c : Cache) : Z :=
  foldr (λ kv s, entry_size kv + s) 0 (entries c).

(** The representation invariant of [Cache]: list and map mirror each
    other, and the counter is the sum over the entries. *)
Record wf (c : Cache) : Prop := {
  wf_nodup : NoDup (ll c);
  wf_ll : ∀ e, e ∈ ll c →
    ∃ kv, heap c !! e = Some kv ∧ cache c !! key kv = Some e;
  wf_cache : ∀ k e, cache c !! k = Some e →
    e ∈ ll c ∧ ∃ kv, heap c !! e = Some kv ∧ key kv = k;
  wf_next : ∀ e, e ∈ ll c → (e < next c)%nat;
  wf_bytes : nbytes c = total_bytes c
}.

(** The entry at the front of the recency list, if any. *)
Definition front (c : Cache) : option entry :=
  head (entries c).

(** The calls [OnEvicted(kv.key, kv.value)] for the entries [kvs], first
    to last; none when the callback is nil. *)
Definition notify (f : option (string → V → W → W)) (kvs : list entry) (w : W) : W :=
  match f with
  | Some f => foldl (λ w kv, f (key kv) (value kv) w) w kvs
  | None => w
  end.

(** A call of [Add] or of [Get]. *)
Inductive op := OpAdd (k : string) (v : V) | OpGet (k : string).

Definition run_op (o : op) (c : Cache) (w : W) : outcome (Cache * W) :=
  match o with
  | OpAdd k v => Add c k v w
  | OpGet k => '(_, c) ← Get c k; Ret (c, w)
  end.

(** A sequence of calls, first call first. *)
Fixpoint run (os : list op) (c : Cache) (w : W) : outcome (Cache * W) :=
  match os with
  | [] => Ret (c, w)
  | o :: os => '(c, w) ← run_op o c w; run os c w
  end.

End lru.
Global Arguments entry V : clear implicits.
Global Arguments Cache V W : clear implicits.
Global Arguments op V : clear implicits.
End lru.

(** ** Go's package sort *)

Module sort.

(** The loop of [sort.Search]:
    [for i < j { h := int(uint(i+j) >> 1); if !f(h) { i = h + 1 } else { j = h } }].
    The interval [[i, j)] shrinks at every turn, so [j - i] turns are
    enough and running out of [fuel] is leaving the loop (see [Search_spec]). *)
Fixpoint search_loop (fuel : nat) (f : nat → bool) (i j : nat) : nat :=
  match fuel with
  | O => i
  | S fuel =>
      if (i <? j)%nat then
        let h := ((i + j) / 2)%nat in
        if f h then search_loop fuel f i h else search_loop fuel f (h + 1)%nat j
      else i
  end.

(** [sort.Search(n, f)] *)
Definition Search (n : nat) (f : nat → bool) : nat := search_loop n f 0%nat n.

(** [sort.SearchInts(a, x)] is [Search(len(a), func(i) bool { return a[i] >= x })];
    the search only reads indices below [len(a)]. *)
Definition SearchInts (a : list Z) (x : Z) : nat :=
  Search (length a) (λ i, x <=? a !!! i).

(** [sort.Ints(a)]: the ascending rearrangement of [a]. *)
Definition Ints (a : list Z) : list Z := merge_sort Z.le a.

End sort.

(** ** Package consistenthash *)

(** [type Hash func(data []byte) uint32], composed with the conversions
    [[]byte(s)] of its argument and [int(...)] of its result, as at every
    call of the package. *)
Definition Hash := string → Z.

Module consistenthash.

(** [type Map struct] *)
Record Map := mkMap {
  hash : Hash;
  replicas : Z;
  keys : list Z;
  hashMap : gmap Z string
}.

(** [New(replicas, fn)]; [ChecksumIEEE] is [crc32.ChecksumIEEE], the
    default when [fn] is nil. *)
Definition New (ChecksumIEEE : Hash) (replicas : Z) (fn : option Hash) : Map :=
  mkMap (default ChecksumIEEE fn) replicas [] ∅.

(** [strconv.Itoa(i)], for the counter [i] of the loops over the replicas. *)
Definition Itoa (i : nat) : string := pretty i.

(** [int(m.hash([]byte(strconv.Itoa(i) + key)))] *)
Definition vhash (m : Map) (i : nat) (key : string) : Z :=
  hash m (Itoa i +:+ key).

(** The values of [i] in [for i := 0; i < m.replicas; i++]. *)
Definition replica_range (m : Map) : list nat := seq 0 (Z.to_nat (replicas m)).

(** The body of the inner loop of [Add]. *)
Definition add_vnode (key : string) (m : Map) (i : nat) : Map :=
  let h := vhash m i key in
  mkMap (hash m) (replicas m) (keys m ++ [h]) (<[h := key]> (hashMap m)).

(** [func (m *Map) Add(keys ...string)] *)
Definition Add (m : Map) (ks : list string) : Map :=
  let m := foldl (λ m key, foldl (add_vnode key) m (replica_range m)) m ks in
  mkMap (hash m) (replicas m) (sort.Ints (keys m)) (hashMap m).

(** [func (m *Map) Get(key string) string]; the search reads [m.keys]
    below its length only, and so does [m.keys[idx%len(m.keys)]]; a hash
    the table does not bind yields the empty string. *)
Definition Get (m : Map) (key : string) : string :=
  if decide (length (keys m) = 0%nat) then ""
  else
    let h := hash m key in
    let idx := sort.Search (length (keys m)) (λ i, h <=? keys m !!! i) in
    default "" (hashMap m !! (keys m !!! (idx `mod` length (keys m))%nat)).

(** The body of the loop of [Remove]; [m.keys[idx+1:]] panics when
    [idx] is [len(m.keys)]. *)
Definition remove_vnode (key : string) (m : Map) (i : nat) : outcome Map :=
  let h := vhash m i key in
  let idx := sort.SearchInts (keys m) h in
  if (idx <? length (keys m))%nat then
    Ret (mkMap (hash m) (replicas m)
           (take idx (keys m) ++ drop (idx + 1) (keys m))
           (delete h (hashMap m)))
  else Panic slice_bounds.

(** [func (m *Map) Remove(key string)] *)
Definition Remove (m : Map) (key : string) : outcome Map :=
  foldl (λ r i, m ← r; remove_vnode key m i) (Ret m) (replica_range m).

(** The lookup as the specification words it: empty on an empty ring;
    otherwise the peer bound to the first virtual node, in ring order,
    whose hash is at least the hash of the key, and to the first virtual
    node of the ring when there is none. *)
Definition Get_spec (m : Map) (key : string) : string :=
  match keys m with
  | [] => ""
  | k0 :: _ =>
      match list_find (λ k, hash m key ≤ k) (keys m) with
      | Some (_, k) => default "" (hashMap m !! k)
      | None => default "" (hashMap m !! k0)
      end
  end.

(** The hash function of scenario S3 of the specification: a decimal
    string hashes to the number it denotes. *)
Fixpoint atoi_from (acc : Z) (s : string) : Z :=
  match s with
  | EmptyString => acc
  | String a s => atoi_from (10 * acc + (Z.of_nat (Ascii.nat_of_ascii a) - 48)) s
  end.

Definition atoi : Hash := atoi_from 0.

(** The virtual nodes of a list of peers, each with the peer it is bound
    to, in the order in which [Add] inserts them. *)
Definition bindings (m : Map) (ps : list string) : list (Z * string) :=
  ps ≫= λ p, (λ i, (vhash m i p, p)) <$> replica_range m.

(** The ring of scenario S3: three replicas and the peers 6, 4 and 2. *)
Definition ring3 : Map := Add (New atoi 3 (Some atoi)) ["6"; "4"; "2"].

(** The hashes of the virtual nodes of a peer. *)
Definition vnodes (m : Map) (key : string) : list Z :=
  (λ i, vhash m i key) <$> replica_range m.

(** The virtual node [x] is in charge of the hash [h] on the sequence
    [K]: it is the least hash of [K] that is at least [h], and the least
    hash of [K] when there is none. *)
Definition successor (K : list Z) (h x : Z) : Prop :=
  x ∈ K ∧
  ((h ≤ x ∧ ∀ y, y ∈ K → h ≤ y → x ≤ y) ∨
   ((∀ y, y ∈ K → y < h) ∧ ∀ y, y ∈ K → x ≤ y)).

End consistenthash.

(** ** Package singleflight *)

(** A Go [error]: nil, or an error with its message. *)
Definition error := option string.

Module singleflight.
Section singleflight.

(** The dynamic type of the values the calls return, and the part of the
    world the thunks act on. *)
Context {A W : Type}.

(** [type call struct]; [wg] is the counter of the [sync.WaitGroup] and
    [val] is nil ([None]) until the call has returned. *)
Record call := mkCall {
  wg : nat;
  val : option A;
  err : error
}.

(** [type Group struct], with the store of the [call] objects its map
    points to.  The mutex is not a field of the model: each critical
    section is one atomic step of [step]. *)
Record Group := mkGroup {
  m : option (gmap string nat);
  calls : list call
}.

(** The zero value [&singleflight.Group{}]. *)
Definition empty : Group := mkGroup None [].

(** [fn func() (interface{}, error)]: it acts on the world and returns,
    panics or never returns. *)
Definition thunk := W → W * outcome (option A * error).

(** Where a goroutine that called [Do] stands. *)
Inductive pc :=
| Enter (key : string) (fn : thunk)
    (** before the first [g.mu.Lock()] *)
| Waiting (c : nat)
    (** in [c.wg.Wait()], the mutex released *)
| Calling (key : string) (c : nat) (fn : thunk)
    (** [g.m[key] = c] done and the mutex released, before [fn()] *)
| Cleaning (key : string) (c : nat)
    (** [c.wg.Done()] done, before the second [g.mu.Lock()] *)
| Returned (v : option A) (e : error)
    (** [Do] has returned [(v, e)] *)
| Panicked (msg : string)
    (** a panic of [fn] has unwound [Do]; a caller may recover it, as
        net/http does for its handlers *)
| Hung.
    (** [fn] never returns *)

(** One atomic step of a goroutine; [None] when it cannot move: it has
    left [Do], or it is parked in [Wait] on a counter that is not zero.
    The call of [fn], the store of its results and [Done] make one step:
    no other goroutine reads [c.val] or [c.err] before the counter is
    zero. *)
Definition step (g : Group) (w : W) (p : pc) : option (Group * W * pc) :=
  match p with
  | Enter key fn =>
      (* if g.m == nil { g.m = make(map[string]*call) } *)
      let mp := default ∅ (m g) in
      match mp !! key with
      | Some c => Some (mkGroup (Some mp) (calls g), w, Waiting c)
      | None =>
          (* c := new(call); c.wg.Add(1); g.m[key] = c *)
          let c := length (calls g) in
          Some (mkGroup (Some (<[key := c]> mp)) (calls g ++ [mkCall 1 None None]),
                w, Calling key c fn)
      end
  | Waiting c =>
      match calls g !! c with
      | Some cl => if decide (wg cl = 0%nat) then Some (g, w, Returned (val cl) (err cl))
                   else None
      | None => None
      end
  | Calling key c fn =>
      (* c.val, c.err = fn(); c.wg.Done() *)
      match fn w with
      | (w, Ret (v, e)) =>
          Some (mkGroup (m g) (alter (λ cl, mkCall (wg cl - 1) v e) c (calls g)),
                w, Cleaning key c)
      | (w, Panic msg) => Some (g, w, Panicked msg)
      | (w, Diverge) => Some (g, w, Hung)
      end
  | Cleaning key c =>
      (* delete(g.m, key); return c.val, c.err *)
      match calls g !! c with
      | Some cl =>
          Some (mkGroup (delete key <$> m g) (calls g), w, Returned (val cl) (err cl))
      | None => None
      end
  | Returned _ _ | Panicked _ | Hung => None
  end.

(** A goroutine running alone, for at most [n] steps. *)
Fixpoint steps (n : nat) (g : Group) (w : W) (p : pc) : Group * W * pc :=
  match n with
  | O => (g, w, p)
  | S n =>
      match step g w p with
      | Some (g, w, p) => steps n g w p
      | None => (g, w, p)
      end
  end.

(** [func (g *Group) Do(key, fn)] executed with no other goroutine
    running in between: three steps take it from the entry to the end. *)
Definition Do (g : Group) (w : W) (key : string) (fn : thunk) : Group * W * pc :=
  steps 3 g w (Enter key fn).

(** No call for [key] is in flight. *)
Definition idle (g : Group) (key : string) : Prop :=
  default ∅ (m g) !! key = None.

(** Several goroutines inside [Do] on one [Group]. *)
Record pool := mkPool {
  grp : Group;
  world : W;
  threads : list pc
}.

(** Goroutine [i] takes one step, if it can. *)
Definition sched (s : pool) (i : nat) : pool :=
  match threads s !! i with
  | Some p =>
      match step (grp s) (world s) p with
      | Some (g, w, p) => mkPool g w (<[i := p]> (threads s))
      | None => s
      end
  | None => s
  end.

(** A new goroutine calls [Do(key, fn)]. *)
Definition spawn (s : pool) (key : string) (fn : thunk) : pool :=
  mkPool (grp s) (world s) (threads s ++ [Enter key fn]).

(** What can happen next: a goroutine moves, or a new call of [Do] arrives. *)
Inductive event := Run (i : nat) | Call (key : string) (fn : thunk).

Definition fire (s : pool) (ev : event) : pool :=
  match ev with
  | Run i => sched s i
  | Call key fn => spawn s key fn
  end.

(** An execution: the events in the order they happen. *)
Definition exec (s : pool) (evs : list event) : pool := foldl fire s evs.

(** The key and the handle a goroutine is in charge of: it has put the
    handle into the map and has still to delete it. *)
Definition owner (p : pc) : option (string * nat) :=
  match p with
  | Calling k c _ | Cleaning k c => Some (k, c)
  | _ => None
  end.

(** What holds of every state the goroutines can reach: the map points
    to allocated handles, one per key; a goroutine in charge of a key is
    alone in that, the map holds its handle, and the counter of the
    handle is one until the thunk has returned. *)
Record inv (s : pool) : Prop := {
  inv_calls : ∀ k c,
    default ∅ (m (grp s)) !! k = Some c → is_Some (calls (grp s) !! c);
  inv_inj : ∀ k1 k2 c,
    default ∅ (m (grp s)) !! k1 = Some c →
    default ∅ (m (grp s)) !! k2 = Some c → k1 = k2;
  inv_owner : ∀ i p k c,
    threads s !! i = Some p → owner p = Some (k, c) →
    default ∅ (m (grp s)) !! k = Some c;
  inv_calling : ∀ i k c fn,
    threads s !! i = Some (Calling k c fn) →
    ∃ cl, calls (grp s) !! c = Some cl ∧ wg cl = 1%nat;
  inv_unique : ∀ i j pi pj k ci cj,
    threads s !! i = Some pi → threads s !! j = Some pj →
    owner pi = Some (k, ci) → owner pj = Some (k, cj) → i = j
}.

(** The entry of [key] has lost the goroutine in charge of it: the map
    still holds the handle [c], whose counter is one, and no goroutine is
    in charge of [key] or of [c]. *)
Definition orphaned (s : pool) (key : string) (c : nat) : Prop :=
  default ∅ (m (grp s)) !! key = Some c ∧
  (∃ cl, calls (grp s) !! c = Some cl ∧ wg cl = 1%nat) ∧
  (∀ p k c', p ∈ threads s → owner p = Some (k, c') → k ≠ key ∧ c' ≠ c).

(** The call of the handle [c] is over: its thunk has returned [(v, e)]
    and [c.wg.Done()] has brought the counter to zero. *)
Definition settled (s : pool) (c : nat) (v : option A) (e : error) : Prop :=
  calls (grp s) !! c = Some (mkCall 0 v e).

End singleflight.
Global Arguments call A : clear implicits.
Global Arguments Group A : clear implicits.
Global Arguments thunk A W : clear implicits.
Global Arguments pc A W : clear implicits.
Global Arguments pool A W : clear implicits.
Global Arguments event A W : clear implicits.

(** The thunk of scenario S4, with the count of its runs as the world,
    and a thunk that panics. *)
Definition bar : thunk string nat := λ n, (S n, Ret (Some "bar", None)).
Definition boom : thunk string nat := λ n, (n, Panic "boom").

End singleflight.

(** ** Package geecache *)

Module geecache.

(** [[]byte] *)
Abbreviation bytes := (list Byte.byte).

(** [type ByteView struct { b []byte }] *)
Record ByteView := mkByteView { b : bytes }.

(** [func (v ByteView) Len() int] *)
Global Instance ByteView_Value : Value ByteView := λ v, Z.of_nat (length (b v)).

(** [ByteView{b: []byte(s)}] *)
Definition view (s : string) : ByteView := mkByteView (String.list_byte_of_string s).

(** [cloneBytes]: a fresh slice with the same contents. *)
Definition cloneBytes (x : bytes) : bytes := x.

(** [func (v ByteView) ByteSlice() []byte] *)
Definition ByteSlice (v : ByteView) : bytes := cloneBytes (b v).

(** [type Getter interface { Get(key string) ([]byte, error) }] *)
Definition Getter := string → bytes * error.

(** [type PeerGetter interface { Get(group string, key string) ([]byte, error) }] *)
Definition PeerGetter := string → string → bytes * error.

(** [type PeerPicker interface { PickPeer(key string) (peer PeerGetter, ok bool) }];
    the [peer] returned may be nil. *)
Definition PeerPicker := string → option PeerGetter * bool.

(** Modelled from the spec: the wrapper [cache] of the LRU, whose file
    (cache.go) is not among the sources; only its uses
    [cache{cacheBytes: cacheBytes}], [g.mainCache.get(key)] and
    [g.mainCache.add(key, value)] are.  The spec gives each Group a bounded
    LRU of budget [cacheBytes] without eviction callback, which [add]
    inserts into and [get] consults, one call at a time. *)
Record cache := mkcache {
  cacheBytes : Z;
  lru_ : lru.Cache ByteView unit
}.

(** Modelled from the spec: [cache{cacheBytes: cacheBytes}]. *)
Definition newcache (cacheBytes : Z) : cache :=
  mkcache cacheBytes (lru.New cacheBytes None).

(** Modelled from the spec: [func (c *cache) add(key string, value ByteView)]. *)
Definition cache_add (c : cache) (key : string) (value : ByteView) : outcome cache :=
  '(l, _) ← lru.Add (lru_ c) key value (); Ret (mkcache (cacheBytes c) l).

(** Modelled from the spec: [func (c *cache) get(key string) (value ByteView, ok bool)]. *)
Definition cache_get (c : cache) (key : string) : outcome (option ByteView * cache) :=
  '(v, l) ← lru.Get (lru_ c) key; Ret (v, mkcache (cacheBytes c) l).

(** [type Group struct] *)
Record Group := mkGroup {
  name : string;
  getter : Getter;
  mainCache : cache;
  peers : option PeerPicker;
  loader : singleflight.Group ByteView
}.

Definition set_mainCache (c : cache) (g : Group) : Group :=
  mkGroup (name g) (getter g) c (peers g) (loader g).
Definition set_peers (p : option PeerPicker) (g : Group) : Group :=
  mkGroup (name g) (getter g) (mainCache g) p (loader g).
Definition set_loader (l : singleflight.Group ByteView) (g : Group) : Group :=
  mkGroup (name g) (getter g) (mainCache g) (peers g) l.

(** The global [groups = make(map[string]*Group)]: the Groups by name. *)
Abbreviation registry := (gmap string Group).

(** [func NewGroup(name string, cacheBytes int64, getter Getter) *Group] *)
Definition NewGroup (groups : registry) (name : string) (cacheBytes : Z)
    (getter : option Getter) : outcome (Group * registry) :=
  match getter with
  | None => Panic "nil Getter"
  | Some getter =>
      let g := mkGroup name getter (newcache cacheBytes) None singleflight.empty in
      Ret (g, <[name := g]> groups)
  end.

(** [func GetGroup(name string) *Group]: nil when the name is not registered. *)
Definition GetGroup (groups : registry) (name : string) : option Group :=
  groups !! name.

(** [func (g *Group) RegisterPeers(peers PeerPicker)] *)
Definition RegisterPeers (g : Group) (peers_ : PeerPicker) : outcome Group :=
  match peers g with
  | Some _ => Panic "RegisterPeerPicker called more than once"
  | None => Ret (set_peers (Some peers_) g)
  end.

(** [func (g *Group) populateCache(key string, value ByteView)] *)
Definition populateCache (g : Group) (key : string) (value : ByteView) : outcome Group :=
  c ← cache_add (mainCache g) key value; Ret (set_mainCache c g).

(** [func (g *Group) getLocally(key string) (ByteView, error)] *)
Definition getLocally (g : Group) (key : string) : outcome (ByteView * error * Group) :=
  let '(bytes, err) := getter g key in
  match err with
  | Some _ => Ret (mkByteView [], err, g)
  | None =>
      let value := mkByteView (cloneBytes bytes) in
      g ← populateCache g key value;
      Ret (value, None, g)
  end.

(** [func (g *Group) getFromPeer(peer PeerGetter, key string) (ByteView, error)];
    a nil [peer] makes the method call panic. *)
Definition getFromPeer (g : Group) (peer : option PeerGetter) (key : string)
    : outcome (ByteView * error) :=
  match peer with
  | None => Panic nil_deref
  | Some peer =>
      let '(bytes, err) := peer (name g) key in
      match err with
      | Some _ => Ret (mkByteView [], err)
      | None => Ret (mkByteView bytes, None)
      end
  end.

(** The peer step of [load]: what [getFromPeer] yields, when a peer picker
    is registered and picks a peer for the key. *)
Definition peer_fetch (g : Group) (key : string) : option (outcome (ByteView * error)) :=
  match peers g with
  | Some picker =>
      match picker key with
      | (peer, true) => Some (getFromPeer g peer key)
      | (_, false) => None
      end
  | None => None
  end.

(** What the closure of [load] acts on: the Group and the named results
    [value] and [err] of [load], which it captures. *)
Record frame := mkFrame {
  f_group : Group;
  f_value : ByteView;
  f_err : error
}.

(** The closure [func() (interface{}, error)] that [load] passes to [Do]. *)
Definition load_thunk (key : string) : singleflight.thunk ByteView frame := λ fr,
  let g := f_group fr in
  let local fr :=
    match getLocally (f_group fr) key with
    | Ret (v, e, g) => (mkFrame g (f_value fr) (f_err fr), Ret (Some v, e))
    | Panic msg => (fr, Panic msg)
    | Diverge => (fr, Diverge)
    end in
  match peers g with
  | Some picker =>
      match picker key with
      | (peer, true) =>
          match getFromPeer g peer key with
          | Ret (v, e) =>
              (* value, err = g.getFromPeer(peer, key) *)
              let fr := mkFrame g v e in
              match e with
              | None => (fr, Ret (Some v, None))
              | Some _ => local fr
              end
          | Panic msg => (fr, Panic msg)
          | Diverge => (fr, Diverge)
          end
      | (_, false) => local fr
      end
  | None => local fr
  end.

(** [func (g *Group) load(key string) (value ByteView, err error)], run
    with no other goroutine in between.  A load parked behind a call in
    flight of another goroutine, or whose thunk never returns, does not
    return: [Diverge]. *)
Definition load (g : Group) (key : string) : outcome (ByteView * error * Group) :=
  let '(sf, fr, p) :=
    singleflight.Do (loader g) (mkFrame g (mkByteView []) None) key (load_thunk key) in
  let g := set_loader sf (f_group fr) in
  match p with
  | singleflight.Returned viewi None =>
      (* return viewi.(ByteView), nil *)
      match viewi with
      | Some view => Ret (view, None, g)
      | None => Panic "interface conversion: interface is nil, not geecache.ByteView"
      end
  | singleflight.Returned _ (Some e) =>
      (* return: the named results value and err *)
      Ret (f_value fr, Some e, g)
  | singleflight.Panicked msg => Panic msg
  | _ => Diverge
  end.

(** [func (g *Group) Get(key string) (ByteView, error)]; the receiver may
    be nil, and is not dereferenced before the test of [key]. *)
Definition Get (g : option Group) (key : string)
    : outcome (ByteView * error * option Group) :=
  if decide (key = "") then Ret (mkByteView [], Some "key is required", g)
  else
    match g with
    | None => Panic nil_deref
    | Some g =>
        '(hit, c) ← cache_get (mainCache g) key;
        let g := set_mainCache c g in
        match hit with
        | Some v => Ret (v, None, Some g)
        | None => '(v, e, g) ← load g key; Ret (v, e, Some g)
        end
    end.

(** Calls of [Get] by one goroutine, one after the other, each on the
    Group as the call before left it; the results in order. *)
Fixpoint Gets (g : Group) (keys : list string)
    : outcome (list (ByteView * error) * Group) :=
  match keys with
  | [] => Ret ([], g)
  | key :: keys =>
      '(v, e, g') ← Get (Some g) key;
      '(rs, g'') ← Gets (default g g') keys;
      Ret ((v, e) :: rs, g'')
  end.

(** What [Get] answers for a key when the origin is asked and nobody
    else: the error of the empty key, the bytes of the origin, or its
    error with the empty view. *)
Definition origin_answer (getter : Getter) (key : string) : ByteView * error :=
  if decide (key = "") then (mkByteView [], Some "key is required")
  else
    match getter key with
    | (bs, None) => (mkByteView bs, None)
    | (_, Some e) => (mkByteView [], Some e)
    end.

(** *** http.go *)

Definition defaultBasePath : string := "/_geecache/".
Definition defaultReplicas : Z := 50.

(** [type httpGetter struct { baseURL string }] *)
Record httpGetter := mkhttpGetter { baseURL : string }.

(** [type HTTPPool struct]; [peers_] is nil until [Set] is called. *)
Record HTTPPool := mkHTTPPool {
  self : string;
  basePath : string;
  peers_ : option consistenthash.Map;
  httpGetters : gmap string httpGetter
}.

(** [func NewHTTPool(self string) *HTTPPool] *)
Definition NewHTTPool (self : string) : HTTPPool :=
  mkHTTPPool self defaultBasePath None ∅.

(** [func (p *HTTPPool) Set(peers ...string)] *)
Definition Set_ (ChecksumIEEE : Hash) (p : HTTPPool) (peers : list string) : HTTPPool :=
  let ring := consistenthash.Add (consistenthash.New ChecksumIEEE defaultReplicas None) peers in
  let getters :=
    foldl (λ gs peer, <[peer := mkhttpGetter (peer +:+ basePath p)]> gs) ∅ peers in
  mkHTTPPool (self p) (basePath p) (Some ring) getters.

(** [func (p *HTTPPool) PickPeer(key string) (PeerGetter, bool)]; the
    client returned is [p.httpGetters[peer]], nil when the table has no
    such peer. *)
Definition PickPeer (p : HTTPPool) (key : string) : outcome (option httpGetter * bool) :=
  match peers_ p with
  | None => Panic nil_deref
  | Some ring =>
      let peer := consistenthash.Get ring key in
      if decide (peer ≠ "" ∧ peer ≠ self p) then Ret (httpGetters p !! peer, true)
      else Ret (None, false)
  end.

(** What a handler does to its [http.ResponseWriter], call by call. *)
Inductive response :=
| Error_ (msg : string) (code : Z)
    (** [http.Error(w, msg, code)] *)
| SetHeader (k v : string)
    (** [w.Header().Set(k, v)] *)
| Write_ (body : bytes).
    (** [w.Write(body)] *)

Definition StatusBadRequest : Z := 400.
Definition StatusNotFound : Z := 404.
Definition StatusInternalServerError : Z := 500.

(** [strings.SplitN(s, "/", 2)]: [s] cut at its first slash, or [s] alone. *)
Fixpoint cut (s : string) : option (string * string) :=
  match s with
  | EmptyString => None
  | String a s =>
      if Ascii.eqb a (Ascii.ascii_of_nat 47) then Some (EmptyString, s)
      else match cut s with
           | Some (x, y) => Some (String a x, y)
           | None => None
           end
  end.

(** No byte of [s] is a slash. *)
Fixpoint no_slash (s : string) : bool :=
  match s with
  | EmptyString => true
  | String a s => negb (Ascii.eqb a (Ascii.ascii_of_nat 47)) && no_slash s
  end.

Definition SplitN2 (s : string) : list string :=
  match cut s with
  | Some (x, y) => [x; y]
  | None => [s]
  end.

(** [s[n:]], for [n <= len(s)]. *)
Fixpoint from (n : nat) (s : string) : string :=
  match n, s with
  | S n, String _ s => from n s
  | _, _ => s
  end.

(** [func (p *HTTPPool) ServeHTTP(w http.ResponseWriter, r *http.Request)],
    for a request of path [path]: the calls made on [w], in order, and
    how the handler ends, with the Groups as it leaves them.  The log
    lines are not part of the model. *)
Definition ServeHTTP (p : HTTPPool) (groups : registry) (path : string)
    : list response * outcome registry :=
  if negb (String.prefix (basePath p) path) then
    ([], Panic ("HTTPPool serving unexpected path: " +:+ path))
  else
    match SplitN2 (from (String.length (basePath p)) path) with
    | [groupName; key] =>
        let group := GetGroup groups groupName in
        let w :=
          match group with
          | None => [Error_ ("No such group: " +:+ groupName) StatusNotFound]
          | Some _ => []
          end in
        match Get group key with
        | Ret (view, err, group) =>
            let groups :=
              match group with
              | Some g => <[groupName := g]> groups
              | None => groups
              end in
            match err with
            | Some e => (w ++ [Error_ e StatusInternalServerError], Ret groups)
            | None =>
                (w ++ [SetHeader "Content-Type" "application/octet-stream";
                       Write_ (ByteSlice view)], Ret groups)
            end
        | Panic msg => (w, Panic msg)
        | Diverge => (w, Diverge)
        end
    | _ => ([Error_ "Bad Request" StatusBadRequest], Ret groups)
    end.

End geecache.

(** ** Package main: the data source of the demonstration *)

Module main.

Import geecache.

(** [var db = map[string]string{...}] *)
Definition db : gmap string string :=
  {["Tom" := "630"; "Jack" := "589"; "Sam" := "567"]}.

(** The callback of [createGroup]: the value of [db], or the error
    [fmt.Errorf("%s not exist", key)]. *)
Definition search : Getter := λ key,
  match db !! key with
  | Some v => (String.list_byte_of_string v, None)
  | None => ([], Some (key +:+ " not exist"))
  end.

(** [createGroup()]: the Group [scores] of [2<<10] bytes over [db]. *)
Definition createGroup (groups : registry) : outcome (Group * registry) :=
  NewGroup groups "scores" 2048 (Some search).

(** The Group that [createGroup] returns. *)
Definition scores : Group :=
  mkGroup "scores" search (newcache 2048) None singleflight.empty.

(** A peer picker that picks, for every key, a client that answers the
    bytes of [remote]; and the one of scenario S6, whose client fails. *)
Definition remote_peers : PeerPicker := λ _,
  (Some (λ _ _, (String.list_byte_of_string "remote", None)), true).

Definition failing_peers : PeerPicker := λ _,
  (Some (λ _ _, ([], Some "connection refused")), true).

End main.

(** * Properties *)

Lemma bind_Ret {A B : Type} (a : A) (k : A → outcome B) : Ret a ≫= k = k a.
Proof. reflexivity. Qed.

Lemma omap_cons_eq {A B : Type} (f : A → option B) (x : A) (l : list A) :
  omap f (x :: l) = match f x with Some y => y :: omap f l | None => omap f l end.
Proof. reflexivity. Qed.

(** ** 64-bit arithmetic *)

Ltac pow64 :=
  change (2 ^ 63) with 9223372036854775808 in *;
  change (2 ^ 64) with 18446744073709551616 in *.

Section int64_facts.

Lemma wrap_small z : - 2 ^ 63 ≤ z < 2 ^ 63 → int64.wrap z = z.
Proof. intros Hz. unfold int64.wrap. pow64. rewrite Z.mod_small; lia. Qed.

Lemma wrap_range z : - 2 ^ 63 ≤ int64.wrap z < 2 ^ 63.
Proof.
  unfold int64.wrap. pow64.
  pose proof (Z.mod_pos_bound (z + 9223372036854775808) 18446744073709551616) as Hb.
  lia.
Qed.

Lemma wrap_mod z : int64.wrap z `mod` 2 ^ 64 = z `mod` 2 ^ 64.
Proof.
  unfold int64.wrap.
  rewrite Zminus_mod, Zmod_mod, <- Zminus_mod. f_equal. lia.
Qed.

Lemma wrap_congr a b : a `mod` 2 ^ 64 = b `mod` 2 ^ 64 → int64.wrap a = int64.wrap b.
Proof.
  intros Hab. unfold int64.wrap.
  by rewrite (Zplus_mod a), Hab, <- Zplus_mod.
Qed.

Lemma wrap_wrap z : int64.wrap (int64.wrap z) = int64.wrap z.
Proof. apply wrap_small, wrap_range. Qed.

Lemma wrap_eqm z : int64.eqm (int64.wrap z) z.
Proof. apply wrap_mod. Qed.

Global Instance eqm_equiv : Equivalence int64.eqm.
Proof.
  unfold int64.eqm. split.
  - by intros x.
  - by intros x y Hxy.
  - intros x y z Hxy Hyz. by rewrite Hxy.
Qed.

Global Instance eqm_add : Proper (int64.eqm ==> int64.eqm ==> int64.eqm) Z.add.
Proof.
  unfold int64.eqm. intros a a' Ha b b' Hb.
  by rewrite Zplus_mod, Ha, Hb, <- Zplus_mod.
Qed.

Global Instance eqm_sub : Proper (int64.eqm ==> int64.eqm ==> int64.eqm) Z.sub.
Proof.
  unfold int64.eqm. intros a a' Ha b b' Hb.
  by rewrite Zminus_mod, Ha, Hb, <- Zminus_mod.
Qed.

End int64_facts.

(** Proves [int64.wrap a = int64.wrap b] when [a] and [b] are equal up to
    the wrap-arounds inside them. *)
Ltac wrap_solve :=
  unfold int64.add, int64.sub, int64.of_len;
  apply wrap_congr;
  match goal with |- ?a `mod` _ = ?b `mod` _ => change (int64.eqm a b) end;
  repeat setoid_rewrite wrap_eqm;
  unfold int64.eqm; f_equal; try lia.

(** ** The recency list *)

Section list_facts.

Import list_.

Lemma filter_ne_notin (l : list Element) e : e ∉ l → filter (λ x, x ≠ e) l = l.
Proof.
  induction l as [|x l IH]; intros Hn; [done|].
  rewrite filter_cons. apply not_elem_of_cons in Hn as [Hne Hn].
  rewrite decide_True by done. by rewrite IH.
Qed.

Lemma Remove_back (l : list Element) e :
  NoDup (l ++ [e]) → Remove (l ++ [e]) e = l.
Proof.
  intros Hnd. unfold Remove. rewrite filter_app.
  apply NoDup_app in Hnd as (_ & Hdis & _).
  rewrite filter_ne_notin.
  - rewrite filter_cons, decide_False by (intros H; by apply H).
    by rewrite filter_nil, app_nil_r.
  - intros Hin. apply (Hdis e Hin). by left.
Qed.

Lemma Back_Some (l : list Element) e : Back l = Some e → ∃ l', l = l' ++ [e].
Proof.
  unfold Back. destruct l as [|x l] using rev_ind; [done|].
  rewrite last_snoc. intros [= ->]. eauto.
Qed.

Lemma Back_None (l : list Element) : Back l = None → l = [].
Proof. apply last_None. Qed.

Lemma MoveToFront_perm (l : list Element) e :
  NoDup l → MoveToFront l e ≡ₚ l.
Proof.
  intros Hnd. unfold MoveToFront. case_decide as Hin; [|done].
  induction l as [|x l IH]; [by apply elem_of_nil in Hin|].
  apply NoDup_cons in Hnd as [Hx Hnd]. rewrite filter_cons.
  destruct (decide (x = e)) as [->|Hne].
  - rewrite decide_False by (intros H; by apply H).
    by rewrite filter_ne_notin.
  - rewrite decide_True by done.
    apply elem_of_cons in Hin as [->|Hin]; [done|].
    rewrite Permutation_swap. by rewrite IH.
Qed.

Lemma MoveToFront_head (l : list Element) e :
  e ∈ l → MoveToFront l e = e :: filter (λ x, x ≠ e) l.
Proof. intros Hin. unfold MoveToFront. by rewrite decide_True. Qed.

End list_facts.

(** ** The representation invariant of the LRU cache *)

Section lru_facts.

Context {V : Type} `{!Value V} {W : Type}.
Import list_ lru.

Implicit Types (c : Cache V W) (kv : entry V) (e : Element) (w : W).

Lemma total_bytes_wrap c : total_bytes c = int64.wrap (total_size c).
Proof.
  unfold total_bytes, total_size.
  induction (entries c) as [|kv l IH]; simpl; [done|].
  rewrite IH. unfold entry_bytes, entry_size. wrap_solve.
Qed.

Lemma total_bytes_wrap_entry kv : entry_bytes kv = int64.wrap (entry_size kv).
Proof. unfold entry_bytes, entry_size. wrap_solve. Qed.

Lemma size_perm (l1 l2 : list (entry V)) :
  l1 ≡ₚ l2 →
  foldr (λ kv s, entry_size kv + s) 0 l1 = foldr (λ kv s, entry_size kv + s) 0 l2.
Proof. induction 1; simpl; lia. Qed.

Lemma size_app (l1 l2 : list (entry V)) :
  foldr (λ kv s, entry_size kv + s) 0 (l1 ++ l2)
  = foldr (λ kv s, entry_size kv + s) 0 l1 + foldr (λ kv s, entry_size kv + s) 0 l2.
Proof. induction l1; simpl; lia. Qed.

Lemma omap_insert_notin (h : gmap Element (entry V)) e kv (l : list Element) :
  e ∉ l → omap (λ x, <[e := kv]> h !! x) l = omap (λ x, h !! x) l.
Proof.
  induction l as [|x l IH]; intros Hn; [done|].
  apply not_elem_of_cons in Hn as [Hne Hn]. simpl.
  rewrite lookup_insert_ne by done.
  destruct (h !! x); [f_equal|]; by apply IH.
Qed.

Lemma notin_filter_ne (l : list Element) e : e ∉ filter (λ x, x ≠ e) l.
Proof. rewrite list_elem_of_filter. intros [Hne _]. by apply Hne. Qed.

Lemma wf_New B f : wf (New B f : Cache V W).
Proof.
  split; simpl; try (intros ? Hin; by apply elem_of_nil in Hin).
  - constructor.
  - intros k e Hk. by rewrite lookup_empty in Hk.
  - done.
Qed.

(** Moving a present element to the front keeps the invariant. *)
Lemma wf_MoveToFront c e :
  wf c → wf (set_ll (MoveToFront (ll c) e) c).
Proof.
  intros [Hnd Hll Hca Hnx Hby].
  pose proof (MoveToFront_perm (ll c) e Hnd) as Hp.
  split; simpl.
  - by rewrite Hp.
  - intros e'. rewrite Hp. apply Hll.
  - intros k e' Hk. rewrite Hp. by apply Hca.
  - intros e'. rewrite Hp. apply Hnx.
  - rewrite Hby, !total_bytes_wrap. f_equal. unfold total_size, entries. simpl.
    apply size_perm. by rewrite Hp.
Qed.

(** What [Get] does on a well-formed cache: it never panics. *)
Lemma Get_cases c k :
  wf c →
  (cache c !! k = None ∧ Get c k = Ret (None, c)) ∨
  (∃ e kv, cache c !! k = Some e ∧ heap c !! e = Some kv ∧ key kv = k ∧ e ∈ ll c ∧
     Get c k = Ret (Some (value kv), set_ll (MoveToFront (ll c) e) c)).
Proof.
  intros Hwf. unfold Get. destruct (cache c !! k) as [e|] eqn:Hk; [right|by left].
  destruct (wf_cache c Hwf k e Hk) as (Hin & kv & Hh & Hkey).
  exists e, kv. repeat split; try done.
  unfold deref. simpl. by rewrite Hh.
Qed.

Lemma wf_Get c k o c' :
  wf c → Get c k = Ret (o, c') →
  wf c' ∧ maxBytes c' = maxBytes c ∧ nbytes c' = nbytes c ∧ OnEvicted c' = OnEvicted c.
Proof.
  intros Hwf HG.
  destruct (Get_cases c k Hwf) as [[_ HG']|(e & kv & _ & _ & _ & _ & HG')];
    rewrite HG' in HG; injection HG as <- <-; [done|].
  split; [by apply wf_MoveToFront|done].
Qed.

(** What the first half of [Add] does on a well-formed cache: the entry
    [(k, v)] ends at the front and the invariant is kept. *)
Lemma put_cases c k v :
  wf c →
  ∃ c1 e l,
    put c k v = Ret c1 ∧ wf c1 ∧
    maxBytes c1 = maxBytes c ∧ OnEvicted c1 = OnEvicted c ∧
    ll c1 = e :: l ∧ heap c1 !! e = Some (Entry k v) ∧ l ≡ₚ filter (λ x, x ≠ e) (ll c) ∧
    (∀ x, x ∈ l → heap c1 !! x = heap c !! x) ∧
    ((cache c !! k = None ∧ l = ll c) ∨
     (∃ kv, cache c !! k = Some e ∧ heap c !! e = Some kv ∧ key kv = k)).
Proof.
  intros Hwf. pose proof Hwf as [Hnd Hll Hca Hnx Hby].
  unfold put. destruct (cache c !! k) as [e|] eqn:Hk.
  - destruct (Hca k e Hk) as (Hin & kv & Hh & Hkey).
    unfold deref. simpl. rewrite Hh. simpl.
    rewrite (MoveToFront_head _ _ Hin).
    pose proof (MoveToFront_perm (ll c) e Hnd) as Hp.
    rewrite (MoveToFront_head _ _ Hin) in Hp.
    eexists _, e, _. split; [done|]. simpl.
    split; [|repeat split; try done].
    + split; simpl.
      * by rewrite Hp.
      * intros e'. rewrite Hp. intros He'.
        destruct (decide (e' = e)) as [->|Hne].
        -- rewrite lookup_insert_eq. eexists. split; [done|]. simpl. by rewrite Hkey.
        -- rewrite lookup_insert_ne by done. by apply Hll.
      * intros k' e' Hk'. rewrite Hp.
        destruct (Hca k' e' Hk') as (Hin' & kv' & Hh' & Hkey').
        split; [done|].
        destruct (decide (e' = e)) as [->|Hne].
        -- rewrite lookup_insert_eq. eexists. split; [done|]. simpl. congruence.
        -- rewrite lookup_insert_ne by done. eauto.
      * intros e'. rewrite Hp. apply Hnx.
      * rewrite Hby, !total_bytes_wrap. unfold total_size at 2, entries. simpl.
        rewrite lookup_insert_eq. simpl.
        rewrite omap_insert_notin by apply notin_filter_ne.
        assert (total_size c = entry_size kv
                  + foldr (λ kv s, entry_size kv + s) 0
                      (omap (λ x, heap c !! x) (filter (λ x, x ≠ e) (ll c)))) as ->.
        { unfold total_size, entries. rewrite (size_perm _ _ (omap_Permutation _ _ _ (symmetry Hp))).
          simpl. by rewrite Hh. }
        unfold entry_size. simpl. rewrite Hkey. wrap_solve.
    + rewrite lookup_insert_eq. by rewrite Hkey.
    + intros x Hx. rewrite lookup_insert_ne; [done|].
      intros <-. by apply (notin_filter_ne (ll c) e).
    + right. eauto.
  - assert (next c ∉ ll c) as Hfresh.
    { intros Hin. apply Hnx in Hin. lia. }
    eexists _, (next c), (ll c). split; [done|]. simpl.
    split; [|repeat split; try done].
    + split; simpl.
      * by apply NoDup_cons.
      * intros e' [->|He']%elem_of_cons.
        -- rewrite lookup_insert_eq. eexists. split; [done|]. simpl.
           by rewrite lookup_insert_eq.
        -- destruct (Hll e' He') as (kv' & Hh' & Hc').
           rewrite lookup_insert_ne by (intros <-; done).
           eexists. split; [done|].
           rewrite lookup_insert_ne by (intros Heq; rewrite <- Heq in Hc'; congruence).
           done.
      * intros k' e'. destruct (decide (k = k')) as [<-|Hne].
        -- rewrite lookup_insert_eq. intros [= <-]. split; [by left|].
           rewrite lookup_insert_eq. eauto.
        -- rewrite lookup_insert_ne by done. intros Hk'.
           destruct (Hca k' e' Hk') as (Hin' & kv' & Hh' & Hkey').
           split; [by right|].
           rewrite lookup_insert_ne by (intros <-; done). eauto.
      * intros e' [->|He']%elem_of_cons; [lia|]. apply Hnx in He'. lia.
      * rewrite Hby, !total_bytes_wrap. unfold total_size at 2, entries. simpl.
        rewrite lookup_insert_eq. simpl.
        rewrite omap_insert_notin by done.
        fold (entries c). fold (total_size c). unfold entry_size. simpl. wrap_solve.
    + by rewrite lookup_insert_eq.
    + by rewrite filter_ne_notin.
    + intros x Hx. rewrite lookup_insert_ne; [done|]. by intros <-.
    + by left.
Qed.

(** What [RemoveOldest] does on a well-formed cache: nothing on an empty
    list, and otherwise the back element leaves the list and its key
    leaves the map. *)
Lemma RemoveOldest_cases c w :
  wf c →
  (ll c = [] ∧ RemoveOldest c w = Ret (c, w)) ∨
  (∃ l e kv c',
     ll c = l ++ [e] ∧ heap c !! e = Some kv ∧ cache c !! key kv = Some e ∧
     c' = set_nbytes (int64.sub (nbytes c) (entry_bytes kv))
            (set_cache (delete (key kv) (cache c)) (set_ll l c)) ∧
     RemoveOldest c w
       = Ret (c', match OnEvicted c with
                  | Some f => f (key kv) (value kv) w
                  | None => w
                  end) ∧
     wf c' ∧ entries c = entries c' ++ [kv]).
Proof.
  intros Hwf. pose proof Hwf as [Hnd Hll Hca Hnx Hby].
  unfold RemoveOldest. destruct (Back (ll c)) as [e|] eqn:HB.
  2:{ left. by apply Back_None in HB. }
  right. apply Back_Some in HB as [l Hl].
  destruct (Hll e) as (kv & Hh & Hc); [rewrite Hl; apply elem_of_app; right; by left|].
  rewrite Hl in Hnd.
  exists l, e, kv. eexists. split; [done|]. split; [done|]. split; [done|].
  split; [done|].
  unfold deref. simpl. rewrite Hh. simpl. rewrite Hl, (Remove_back _ _ Hnd).
  split; [by destruct (OnEvicted c)|].
  apply NoDup_app in Hnd as (Hndl & Hdis & _).
  assert (e ∉ l) as Hel. { intros Hin. apply (Hdis e Hin). by left. }
  assert (entries c = omap (λ x, heap c !! x) l ++ [kv]) as Hent.
  { unfold entries. rewrite Hl, omap_app. simpl. by rewrite Hh. }
  split; [|done].
  split; simpl.
  - done.
  - intros e' He'.
    destruct (Hll e') as (kv' & Hh' & Hc'); [rewrite Hl; apply elem_of_app; by left|].
    exists kv'. split; [done|]. rewrite lookup_delete_ne; [done|].
    intros Heq. rewrite Heq in Hc. assert (e = e') by congruence. by subst.
  - intros k' e'. destruct (decide (key kv = k')) as [<-|Hne].
    { by rewrite lookup_delete_eq. }
    rewrite lookup_delete_ne by done. intros Hk'.
    destruct (Hca k' e' Hk') as (Hin' & kv' & Hh' & Hkey').
    split; [|eauto]. rewrite Hl in Hin'.
    apply elem_of_app in Hin' as [?|Hin']; [done|].
    apply list_elem_of_singleton in Hin' as ->. congruence.
  - intros e' He'. apply Hnx. rewrite Hl. apply elem_of_app. by left.
  - rewrite Hby, !total_bytes_wrap. unfold total_size. rewrite Hent.
    unfold entries. simpl. rewrite size_app. simpl.
    rewrite (total_bytes_wrap_entry kv). wrap_solve.
Qed.

(** One eviction, seen from the loop of [Add]. *)
Lemma RemoveOldest_step c w :
  wf c → ll c ≠ [] →
  ∃ c' w', RemoveOldest c w = Ret (c', w') ∧ wf c' ∧
    maxBytes c' = maxBytes c ∧ OnEvicted c' = OnEvicted c ∧ heap c' = heap c ∧
    S (length (ll c')) = length (ll c) ∧ ll c' `prefix_of` ll c.
Proof.
  intros Hwf Hne.
  destruct (RemoveOldest_cases c w Hwf)
    as [[Hnil _]|(l & e & kv & c' & Hl & _ & _ & Hc' & HR & Hwf' & _)]; [done|].
  eexists c', _. split; [exact HR|]. split; [done|]. subst c'. simpl.
  split_and!; try done.
  - rewrite Hl, length_app. simpl. lia.
  - rewrite Hl. by apply prefix_app_r.
Qed.

(** On an empty list the counter of a well-formed cache is zero. *)
Lemma wf_nil_nbytes c : wf c → ll c = [] → nbytes c = 0.
Proof.
  intros Hwf Hnil. rewrite (wf_bytes c Hwf). unfold total_bytes, entries.
  by rewrite Hnil.
Qed.

(** A loop that is over budget on an empty list never stops. *)
Lemma evict_empty_diverge n c w :
  wf c → ll c = [] → over_budget c = true → evict n c w = Diverge.
Proof.
  intros Hwf Hnil Hob. induction n as [|n IH]; simpl; rewrite Hob; [done|].
  destruct (RemoveOldest_cases c w Hwf) as [[_ ->]|(l & e & ? & ? & Hl & _)].
  - exact IH.
  - rewrite Hnil in Hl. by destruct l.
Qed.

(** More fuel than [S (length (ll c))] changes nothing: the fuel [Add]
    gives its loop is enough. *)
Lemma evict_fuel n m c w :
  wf c → (length (ll c) < n)%nat → (length (ll c) < m)%nat →
  evict n c w = evict m c w.
Proof.
  revert m c w. induction n as [|n IH]; intros m c w Hwf Hn Hm; [lia|].
  destruct m as [|m]; [lia|]. simpl.
  destruct (over_budget c) eqn:Hob; [|done].
  destruct (ll c) as [|x l] eqn:Hl.
  - destruct (RemoveOldest_cases c w Hwf) as [[_ ->]|(l & e & ? & ? & Hl' & _)].
    + simpl. by rewrite !evict_empty_diverge.
    + rewrite Hl in Hl'. by destruct l.
  - destruct (RemoveOldest_step c w Hwf) as (c' & w' & -> & Hwf' & _ & _ & _ & Hlen & _).
    { by rewrite Hl. }
    simpl. rewrite Hl in Hlen. simpl in *. apply IH; [done|lia..].
Qed.

(** The loop keeps the invariant, only shortens the list from the back,
    and stops within budget. *)
Lemma evict_wf n c w c' w' :
  wf c → evict n c w = Ret (c', w') →
  wf c' ∧ over_budget c' = false ∧ maxBytes c' = maxBytes c ∧
  OnEvicted c' = OnEvicted c ∧ heap c' = heap c ∧ ll c' `prefix_of` ll c.
Proof.
  revert c w. induction n as [|n IH]; intros c w Hwf Hev.
  - simpl in Hev. destruct (over_budget c) eqn:Hob; [done|].
    by injection Hev as <- <-.
  - destruct (over_budget c) eqn:Hob.
    + destruct (ll c) as [|x l] eqn:Hl.
      { by rewrite evict_empty_diverge in Hev. }
      simpl in Hev. rewrite Hob in Hev.
      destruct (RemoveOldest_step c w Hwf)
        as (c1 & w1 & HR & Hwf1 & HB & HE & HH & _ & Hpre); [by rewrite Hl|].
      rewrite HR in Hev. simpl in Hev.
      apply IH in Hev as (? & ? & ? & ? & ? & ?); [|done].
      rewrite Hl in Hpre.
      split_and!; try done; try congruence. by etrans.
    + simpl in Hev. rewrite Hob in Hev. by injection Hev as <- <-.
Qed.

(** With a budget that is not negative the loop stops. *)
Lemma evict_total n c w :
  wf c → 0 ≤ maxBytes c → (length (ll c) < n)%nat →
  ∃ c' w', evict n c w = Ret (c', w').
Proof.
  revert c w. induction n as [|n IH]; intros c w Hwf HB Hn; [lia|]. simpl.
  destruct (over_budget c) eqn:Hob; [|eauto].
  destruct (ll c) as [|x l] eqn:Hl.
  { pose proof (wf_nil_nbytes c Hwf Hl) as H0. unfold over_budget in Hob.
    rewrite H0 in Hob. apply andb_true_iff in Hob as [_ Hlt]. lia. }
  destruct (RemoveOldest_step c w Hwf)
    as (c1 & w1 & -> & Hwf1 & HB1 & _ & _ & Hlen & _); [by rewrite Hl|].
  simpl. apply IH; [done|lia|]. rewrite Hl in Hlen. simpl in *. lia.
Qed.

(** [Add] keeps the invariant and leaves the cache within its budget. *)
Lemma Add_wf c k v w c' w' :
  wf c → Add c k v w = Ret (c', w') →
  wf c' ∧ over_budget c' = false ∧ maxBytes c' = maxBytes c ∧
  OnEvicted c' = OnEvicted c.
Proof.
  intros Hwf. unfold Add.
  destruct (put_cases c k v Hwf) as (c1 & e & l & -> & Hwf1 & HB & HE & _).
  rewrite bind_Ret. intros Hev. apply evict_wf in Hev as (? & ? & ? & ? & _); [|done].
  split_and!; try done; congruence.
Qed.

Lemma Add_total c k v w :
  wf c → 0 ≤ maxBytes c → ∃ c' w', Add c k v w = Ret (c', w').
Proof.
  intros Hwf HB. unfold Add.
  destruct (put_cases c k v Hwf) as (c1 & e & l & -> & Hwf1 & HB1 & _).
  rewrite bind_Ret. apply evict_total; [done|lia|lia].
Qed.

(** The invariant of the reachable caches. *)
Lemma within_budget c : over_budget c = false → 0 < maxBytes c → nbytes c ≤ maxBytes c.
Proof.
  unfold over_budget. intros Hob HB.
  apply andb_false_iff in Hob as [Hz|Hlt]; lia.
Qed.

Lemma evict_no_panic n c w msg : wf c → evict n c w ≠ Panic msg.
Proof.
  revert c w. induction n as [|n IH]; intros c w Hwf; simpl;
    destruct (over_budget c); try done.
  destruct (RemoveOldest_cases c w Hwf)
    as [[_ ->]|(l & e & kv & c' & _ & _ & _ & _ & -> & Hwf' & _)];
    rewrite bind_Ret; by apply IH.
Qed.

Lemma run_op_no_panic o c w msg : wf c → run_op o c w ≠ Panic msg.
Proof.
  intros Hwf. destruct o as [k v|k]; simpl.
  - unfold Add. destruct (put_cases c k v Hwf) as (c1 & e & l & -> & Hwf1 & _).
    rewrite bind_Ret. by apply evict_no_panic.
  - by destruct (Get_cases c k Hwf) as [[_ ->]|(? & ? & _ & _ & _ & _ & ->)].
Qed.

Lemma run_op_inv o c w c' w' :
  wf c → run_op o c w = Ret (c', w') →
  wf c' ∧ maxBytes c' = maxBytes c ∧ OnEvicted c' = OnEvicted c ∧
  ((0 < maxBytes c → nbytes c ≤ maxBytes c) →
   0 < maxBytes c' → nbytes c' ≤ maxBytes c').
Proof.
  intros Hwf. destruct o as [k v|k]; simpl.
  - intros HA. apply Add_wf in HA as (? & ? & ? & ?); [|done].
    split_and!; try done. intros _. by apply within_budget.
  - destruct (Get c k) as [[o c1]| |] eqn:HG; simpl; try done.
    intros [= <- <-].
    destruct (wf_Get c k o c1 Hwf HG) as (? & HB & HN & ?).
    split_and!; try done. by rewrite HB, HN.
Qed.

Lemma run_inv os c w c' w' :
  wf c → run os c w = Ret (c', w') →
  wf c' ∧ maxBytes c' = maxBytes c ∧ OnEvicted c' = OnEvicted c ∧
  ((0 < maxBytes c → nbytes c ≤ maxBytes c) →
   0 < maxBytes c' → nbytes c' ≤ maxBytes c').
Proof.
  revert c w. induction os as [|o os IH]; intros c w Hwf; simpl.
  - by intros [= <- <-].
  - destruct (run_op o c w) as [[c1 w1]| |] eqn:Ho; simpl; try done.
    destruct (run_op_inv o c w c1 w1 Hwf Ho) as (? & HB1 & HE1 & Hb1).
    intros Hr. apply IH in Hr as (? & HB2 & HE2 & Hb2); [|done].
    split_and!; try done; try congruence. auto.
Qed.

Lemma run_no_panic os c w msg : wf c → run os c w ≠ Panic msg.
Proof.
  revert c w. induction os as [|o os IH]; intros c w Hwf; simpl; [done|].
  destruct (run_op o c w) as [[c1 w1]| |] eqn:Ho; simpl; try done.
  - apply IH. by destruct (run_op_inv o c w c1 w1 Hwf Ho).
  - by apply run_op_no_panic in Ho.
Qed.

Lemma run_total os c w :
  wf c → 0 ≤ maxBytes c → ∃ c' w', run os c w = Ret (c', w').
Proof.
  revert c w. induction os as [|o os IH]; intros c w Hwf HB; simpl; [eauto|].
  assert (∃ c1 w1, run_op o c w = Ret (c1, w1)) as (c1 & w1 & Ho).
  { destruct o as [k v|k]; simpl.
    - by apply Add_total.
    - destruct (Get_cases c k Hwf) as [[_ ->]|(? & ? & _ & _ & _ & _ & ->)];
        simpl; eauto. }
  rewrite Ho. simpl.
  destruct (run_op_inv o c w c1 w1 Hwf Ho) as (? & HB1 & _).
  apply IH; [done|lia].
Qed.

(** *** The front of the list *)

Lemma front_cons c e l kv :
  ll c = e :: l → heap c !! e = Some kv → front c = Some kv.
Proof. intros Hl Hh. unfold front, entries. rewrite Hl. simpl. by rewrite Hh. Qed.

Lemma Get_front c k v c' :
  wf c → Get c k = Ret (Some v, c') → front c' = Some (Entry k v).
Proof.
  intros Hwf HG.
  destruct (Get_cases c k Hwf) as [[_ HG']|(e & kv & _ & Hh & Hk & Hin & HG')];
    rewrite HG' in HG; [done|].
  injection HG as <- <-.
  eapply front_cons; simpl; [by apply MoveToFront_head|].
  rewrite Hh, <- Hk. by destruct kv.
Qed.

(** The loop of [Add] leaves an entry that fits the budget by itself. *)
Lemma evict_keeps_front n c w c' w' e l kv :
  wf c → ll c = e :: l → heap c !! e = Some kv →
  maxBytes c = 0 ∨ entry_bytes kv ≤ maxBytes c →
  evict n c w = Ret (c', w') → ll c' ≠ [].
Proof.
  revert c w l. induction n as [|n IH]; intros c w l Hwf Hl Hh Hfit Hev;
    simpl in Hev; destruct (over_budget c) eqn:Hob; try done;
    try (injection Hev as <- <-; by rewrite Hl).
  destruct (RemoveOldest_cases c w Hwf)
    as [[Hnil _]|(l0 & e0 & kv0 & c1 & Hl0 & Hh0 & _ & Hc1 & HR & Hwf1 & _)].
  { by rewrite Hl in Hnil. }
  rewrite HR, bind_Ret in Hev. rewrite Hl in Hl0.
  destruct l0 as [|x l0]; simpl in Hl0.
  - (* only the front entry is left: it fits, so the loop had stopped *)
    injection Hl0 as -> ->. exfalso.
    pose proof (wf_bytes c Hwf) as Hby. unfold total_bytes, entries in Hby.
    rewrite Hl in Hby. simpl in Hby. rewrite Hh in Hby. simpl in Hby.
    assert (nbytes c = entry_bytes kv) as Hn.
    { rewrite Hby. unfold int64.add. rewrite Z.add_0_r.
      unfold entry_bytes, int64.add. apply wrap_wrap. }
    unfold over_budget in Hob. apply andb_true_iff in Hob as [Hz Hlt].
    apply negb_true_iff in Hz. lia.
  - injection Hl0 as -> ->.
    eapply (IH c1 _ l0); [done| | | |exact Hev]; subst c1; simpl; done.
Qed.

Lemma Add_front c k v w c' w' :
  wf c → Add c k v w = Ret (c', w') →
  (front c' = Some (Entry k v) ∨ ll c' = []) ∧
  (maxBytes c = 0 ∨ entry_bytes (Entry k v) ≤ maxBytes c →
   front c' = Some (Entry k v)).
Proof.
  intros Hwf. unfold Add.
  destruct (put_cases c k v Hwf) as (c1 & e & l & -> & Hwf1 & HB & _ & Hl & Hh & _).
  rewrite bind_Ret. intros Hev.
  destruct (evict_wf _ _ _ _ _ Hwf1 Hev) as (_ & _ & _ & _ & HH & Hpre).
  assert (ll c' ≠ [] → front c' = Some (Entry k v)) as Hfront.
  { intros Hne. rewrite Hl in Hpre. destruct (ll c') as [|x l'] eqn:Hl'; [done|].
    apply prefix_cons_inv_1 in Hpre as ->.
    eapply front_cons; [done|]. by rewrite HH. }
  split.
  - destruct (ll c') eqn:Hl'; [by right|left]. by apply Hfront.
  - intros Hfit. apply Hfront.
    eapply evict_keeps_front; [done..| |done]. by rewrite HB.
Qed.

(** *** An entry larger than the budget *)

Section oversized.

Hypothesis Len_nonneg : ∀ v : V, 0 ≤ Len v.

Lemma entry_size_nonneg kv : 0 ≤ entry_size kv.
Proof. unfold entry_size. pose proof (Len_nonneg (value kv)). lia. Qed.

Lemma size_nonneg (l : list (entry V)) : 0 ≤ foldr (λ kv s, entry_size kv + s) 0 l.
Proof.
  induction l as [|kv l IH]; simpl; [done|].
  pose proof (entry_size_nonneg kv). lia.
Qed.

Lemma size_filter (h : gmap Element (entry V)) (P : Element → Prop)
    `{!∀ x, Decision (P x)} (l : list Element) :
  foldr (λ kv s, entry_size kv + s) 0 (omap (λ x, h !! x) (filter P l))
  ≤ foldr (λ kv s, entry_size kv + s) 0 (omap (λ x, h !! x) l).
Proof.
  induction l as [|x l IH]; [done|]. rewrite filter_cons.
  destruct (decide (P x)); rewrite !omap_cons_eq;
    destruct (h !! x) as [kv|]; simpl foldr; try lia.
  pose proof (entry_size_nonneg kv). lia.
Qed.

(** With the entry [kv] at the front larger than the budget, the loop of
    [Add] empties the list, and the last eviction is the one of [kv]. *)
Lemma evict_all n c w e l kv :
  length l = n → wf c → ll c = e :: l → heap c !! e = Some kv →
  0 < maxBytes c < entry_size kv → total_size c < 2 ^ 63 →
  ∃ c' w', evict (S (S n)) c w = Ret (c', w') ∧ wf c' ∧ ll c' = [] ∧
    ∀ f, OnEvicted c = Some f → ∃ w1, w' = f (key kv) (value kv) w1.
Proof.
  revert c w l. induction n as [|n IH]; intros c w l Hn Hwf Hl Hh HB Hsz.
  all: assert (total_size c = entry_size kv
         + foldr (λ kv s, entry_size kv + s) 0 (omap (λ x, heap c !! x) l)) as Htot
    by (unfold total_size, entries; rewrite Hl; simpl; by rewrite Hh).
  all: pose proof (size_nonneg (omap (λ x, heap c !! x) l)) as Hrest.
  all: assert (over_budget c = true) as Hob
    by (unfold over_budget; rewrite (wf_bytes c Hwf), total_bytes_wrap;
        rewrite wrap_small by (pow64; lia);
        apply andb_true_iff; split; [apply negb_true_iff|]; lia).
  all: destruct (RemoveOldest_cases c w Hwf)
    as [[Hnil _]|(l0 & e0 & kv0 & c1 & Hl0 & Hh0 & _ & Hc1 & HR & Hwf1 & Hent)];
    [by rewrite Hl in Hnil|].
  all: rewrite Hl in Hl0.
  all: cbn [evict]; rewrite Hob, HR, bind_Ret.
  - destruct l; [|done]. destruct l0 as [|? [|? ?]]; try done.
    injection Hl0 as ->. assert (kv0 = kv) as -> by congruence.
    assert (ll c1 = []) as Hnil by (by subst c1).
    assert (over_budget c1 = false) as Hob1.
    { unfold over_budget. rewrite (wf_nil_nbytes c1 Hwf1 Hnil).
      replace (maxBytes c1) with (maxBytes c) by (by subst c1).
      apply andb_false_iff. right. lia. }
    eexists c1, _. simpl. rewrite Hob1. split; [done|]. split; [done|].
    split; [done|]. intros f ->. eauto.
  - destruct l0 as [|x l0]; simpl in Hl0.
    { injection Hl0 as _ Hl'. by subst l. }
    injection Hl0 as -> ->. rewrite length_app in Hn. simpl in Hn.
    assert (total_size c = total_size c1 + entry_size kv0) as Htot1.
    { unfold total_size. rewrite Hent, size_app. simpl. lia. }
    pose proof (entry_size_nonneg kv0).
    destruct (IH c1 (match OnEvicted c with
                     | Some f => f (key kv0) (value kv0) w
                     | None => w
                     end) l0)
      as (c' & w' & Hev & Hwf' & Hnil & Hcb);
      [lia|done|by subst c1|by subst c1| |lia|].
    { replace (maxBytes c1) with (maxBytes c) by (by subst c1). lia. }
    exists c', w'. split; [done|]. split; [done|]. split; [done|].
    intros f Hf. apply Hcb. by subst c1.
Qed.

Lemma Add_oversized c k v w :
  wf c → 0 < maxBytes c →
  maxBytes c < Z.of_nat (String.length k) + Len v →
  total_size c + Z.of_nat (String.length k) + Len v < 2 ^ 63 →
  ∃ c' w', Add c k v w = Ret (c', w') ∧ Get c' k = Ret (None, c') ∧
    (∀ f, OnEvicted c = Some f → ∃ w1, w' = f k v w1) ∧
    ll c' = [] ∧ cache c' = ∅ ∧ nbytes c' = 0.
Proof.
  intros Hwf HB Hbig Hsz. unfold Add.
  destruct (put_cases c k v Hwf)
    as (c1 & e & l & -> & Hwf1 & HB1 & HE1 & Hl & Hh & Hperm & Hheap & _).
  rewrite bind_Ret.
  assert (omap (λ x, heap c1 !! x) l = omap (λ x, heap c !! x) l) as Hom.
  { clear Hperm Hl. induction l as [|x l IH]; [done|]. rewrite !omap_cons_eq.
    rewrite Hheap by (by left). rewrite IH; [done|].
    intros y Hy. apply Hheap. by right. }
  assert (total_size c1 ≤ total_size c + entry_size (Entry k v)) as Hle.
  { unfold total_size at 1, entries. rewrite Hl, omap_cons_eq, Hh, Hom. simpl foldr.
    rewrite (size_perm _ _ (omap_Permutation _ _ _ Hperm)).
    pose proof (size_filter (heap c) (λ x, x ≠ e) (ll c)) as Hf.
    unfold total_size, entries. lia. }
  unfold entry_size in Hle. simpl in Hle.
  destruct (evict_all (length l) c1 w e l (Entry k v)) as (c' & w' & Hev & Hwf' & Hnil & Hcb);
    [done|done|done|done| |lia|].
  { rewrite HB1. unfold entry_size. simpl. lia. }
  rewrite Hl. simpl length. exists c', w'. split; [done|].
  assert (cache c' = ∅) as Hempty.
  { apply map_empty. intros k'. destruct (cache c' !! k') as [e'|] eqn:Hk'; [|done].
    apply (wf_cache c' Hwf') in Hk' as [Hin _]. rewrite Hnil in Hin.
    by apply elem_of_nil in Hin. }
  split_and!; try done.
  - unfold Get. by rewrite Hempty, lookup_empty.
  - intros f Hf. apply Hcb. by rewrite HE1.
  - by apply wf_nil_nbytes.
Qed.

End oversized.

(** *** The entries, in their order *)

Lemma elem_of_entries c kv :
  kv ∈ entries c ↔ ∃ e, e ∈ ll c ∧ heap c !! e = Some kv.
Proof. unfold entries. rewrite list_elem_of_omap. naive_solver. Qed.

Lemma entries_length c : wf c → length (entries c) = length (ll c).
Proof.
  intros Hwf. unfold entries.
  assert (∀ e, e ∈ ll c → is_Some (heap c !! e)) as Hall.
  { intros e He. destruct (wf_ll c Hwf e He) as (kv & -> & _). by eexists. }
  induction (ll c) as [|e l IH]; [done|]. rewrite omap_cons_eq.
  destruct (Hall e) as [kv ->]; [by left|]. simpl. f_equal. apply IH.
  intros x Hx. apply Hall. by right.
Qed.

(** The keys of the entries are distinct, and they are the keys of the map. *)
Lemma wf_keys c :
  wf c →
  NoDup (key <$> entries c) ∧
  ∀ k, is_Some (cache c !! k) ↔ k ∈ key <$> entries c.
Proof.
  intros Hwf. pose proof Hwf as [Hnd Hll Hca _ _]. split.
  - unfold entries. clear Hca.
    induction (ll c) as [|e l IH]; [constructor|].
    apply NoDup_cons in Hnd as [He Hnd]. rewrite omap_cons_eq.
    destruct (Hll e) as (kv & Hkv & Hc); [by left|]. rewrite Hkv, fmap_cons.
    apply NoDup_cons. split; [|apply IH; [done|]; intros x Hx; apply Hll; by right].
    intros (kv' & Hk & Hin)%list_elem_of_fmap.
    apply list_elem_of_omap in Hin as (e' & He' & Hkv').
    destruct (Hll e') as (kv'' & Hkv'' & Hc'); [by right|].
    assert (kv'' = kv') as -> by congruence.
    rewrite Hk in Hc. assert (e = e') by congruence. by subst.
  - intros k. split.
    + intros [e Hk]. destruct (Hca k e Hk) as (He & kv & Hkv & <-).
      apply list_elem_of_fmap. exists kv. split; [done|].
      apply elem_of_entries. eauto.
    + intros (kv & -> & (e & He & Hkv)%elem_of_entries)%list_elem_of_fmap.
      destruct (Hll e He) as (kv' & Hkv' & Hc).
      assert (kv' = kv) as -> by congruence. by eexists.
Qed.

Lemma wf_size c : wf c → size (cache c) = length (ll c).
Proof.
  intros Hwf. destruct (wf_keys c Hwf) as [Hnd Hdom].
  rewrite <- (entries_length c Hwf), <- (length_fmap key (entries c)).
  rewrite <- size_dom, <- (size_list_to_set (C := gset string)) by done.
  f_equal. apply set_eq. intros k.
  by rewrite elem_of_dom, elem_of_list_to_set.
Qed.

(** What [Get] finds is what the list holds under that key. *)
Lemma Get_lookup c k :
  wf c →
  ∃ o c', Get c k = Ret (o, c') ∧
    (∀ v, o = Some v ↔ Entry k v ∈ entries c) ∧
    entries c' ≡ₚ entries c ∧ nbytes c' = nbytes c ∧ cache c' = cache c ∧
    (o = None → c' = c).
Proof.
  intros Hwf.
  destruct (Get_cases c k Hwf) as [[Hk ->]|(e & kv & Hk & Hh & Hkey & Hin & ->)].
  - exists None, c. split_and!; try done.
    intros v. split; [done|]. intros (e & He & Hkv)%elem_of_entries.
    destruct (wf_ll c Hwf e He) as (kv' & Hkv' & Hc).
    assert (kv' = Entry k v) as -> by congruence. simpl in Hc. congruence.
  - eexists _, _. split; [done|]. split_and!; try done.
    + intros v. split.
      * intros [= <-]. apply elem_of_entries. exists e. split; [done|].
        rewrite Hh, <- Hkey. by destruct kv.
      * intros (e' & He' & Hkv')%elem_of_entries.
        destruct (wf_ll c Hwf e' He') as (kv' & Hkv'' & Hc).
        assert (kv' = Entry k v) as -> by congruence. simpl in Hc.
        assert (e' = e) as -> by congruence.
        assert (kv = Entry k v) as -> by congruence. done.
    + unfold entries. simpl. apply omap_Permutation.
      apply MoveToFront_perm, Hwf.
Qed.

Lemma omap_filter_key (h : gmap Element (entry V)) (l : list Element) k e :
  (∀ x, x ∈ l → ∃ kv, h !! x = Some kv ∧ (key kv = k ↔ x = e)) →
  omap (λ x, h !! x) (filter (λ x, x ≠ e) l)
  = filter (λ kv, key kv ≠ k) (omap (λ x, h !! x) l).
Proof.
  intros Hkeys. induction l as [|x l IH]; [done|].
  rewrite filter_cons, omap_cons_eq.
  destruct (Hkeys x) as (kv & Hkv & Hiff); [by left|]. rewrite Hkv, filter_cons.
  destruct (decide (x ≠ e)) as [Hne|Heq%dec_stable].
  - rewrite decide_True by (by rewrite Hiff). rewrite omap_cons_eq, Hkv.
    f_equal. apply IH. intros y Hy. apply Hkeys. by right.
  - rewrite decide_False by (rewrite Hiff; by intros ?).
    apply IH. intros y Hy. apply Hkeys. by right.
Qed.

(** A [Get] that finds its key moves the entry to the front and keeps
    the others in their order. *)
Lemma Get_entries c k :
  wf c →
  ∃ o c', Get c k = Ret (o, c') ∧ wf c' ∧
    (∀ v, o = Some v ↔ Entry k v ∈ entries c) ∧
    entries c' = match o with
                 | Some v => Entry k v :: filter (λ kv, key kv ≠ k) (entries c)
                 | None => entries c
                 end ∧
    nbytes c' = nbytes c ∧ cache c' = cache c ∧ (o = None → c' = c).
Proof.
  intros Hwf.
  destruct (Get_lookup c k Hwf) as (o & c' & HG & Hiff & _ & Hn & Hc & Hnone).
  exists o, c'. split; [done|].
  split; [by destruct (wf_Get c k o c' Hwf HG)|]. split_and!; try done.
  destruct (Get_cases c k Hwf) as [[Hk HG']|(e & kv & Hk & Hh & Hkey & Hin & HG')];
    rewrite HG' in HG; injection HG as <- <-; [done|].
  unfold entries at 1. simpl. rewrite MoveToFront_head by done.
  rewrite omap_cons_eq, Hh. destruct kv as [k' v]. simpl in Hkey. subst k'.
  simpl. f_equal. apply omap_filter_key. intros x Hx.
  destruct (wf_ll c Hwf x Hx) as (kv & Hkv & Hcx). exists kv. split; [done|].
  split; [intros Heq; congruence|]. intros ->.
  rewrite Hh in Hkv. by injection Hkv as <-.
Qed.

(** The entries after the first half of [Add]: the new one, then the old
    ones in their order, without the one of the same key. *)
Lemma put_entries c k v :
  wf c →
  ∃ c1, put c k v = Ret c1 ∧ wf c1 ∧
    maxBytes c1 = maxBytes c ∧ OnEvicted c1 = OnEvicted c ∧
    entries c1 = Entry k v :: filter (λ kv, key kv ≠ k) (entries c).
Proof.
  intros Hwf.
  destruct (put_cases c k v Hwf)
    as (c1 & e & l & Hput & Hwf1 & HB & HE & Hl & Hh & _ & Hheap & Hcase).
  exists c1. split_and!; try done.
  unfold entries at 1. rewrite Hl, omap_cons_eq, Hh. f_equal.
  assert (omap (λ x, heap c1 !! x) l = omap (λ x, heap c !! x) l) as ->.
  { clear Hl Hcase. induction l as [|x l IH]; [done|]. rewrite !omap_cons_eq.
    rewrite Hheap by (by left). rewrite IH; [done|].
    intros y Hy. apply Hheap. by right. }
  assert (l = filter (λ x, x ≠ e) (ll c) ∧ (cache c !! k = None → e ∉ ll c))
    as [-> Hfresh].
  { revert Hput Hl. unfold put.
    destruct Hcase as [[Hk ->]|(kv & Hk & Hkv & Hkey)]; rewrite Hk.
    - intros [= <-]. simpl. intros [= <-].
      assert (next c ∉ ll c) by (intros Hin%(wf_next c Hwf); lia).
      by rewrite filter_ne_notin.
    - unfold deref. simpl. rewrite Hkv. simpl. intros [= <-]. simpl.
      rewrite MoveToFront_head by (by apply (wf_cache c Hwf k e)).
      by intros [= <-]. }
  assert (∀ x, x ∈ ll c → ∃ kv, heap c !! x = Some kv ∧ (key kv = k ↔ x = e))
    as Hkeys.
  { intros x Hx. destruct (wf_ll c Hwf x Hx) as (kv & Hkv & Hc).
    exists kv. split; [done|].
    destruct Hcase as [[Hk _]|(kv0 & Hk & Hkv0 & Hkey)].
    - split; [intros Heq; congruence|].
      intros ->. by destruct (Hfresh Hk).
    - split; [intros Heq; congruence|]. intros ->. congruence. }
  by apply omap_filter_key.
Qed.

(** The loop of [Add] leaves a prefix of the entries, and has called the
    callback on the others, from the back. *)
Lemma evict_entries n c w c' w' :
  wf c → evict n c w = Ret (c', w') →
  ∃ m, entries c' = take m (entries c) ∧
       w' = notify (OnEvicted c) (reverse (drop m (entries c))) w.
Proof.
  revert c w. induction n as [|n IH]; intros c w Hwf Hev.
  - simpl in Hev. destruct (over_budget c); [done|]. injection Hev as <- <-.
    exists (length (entries c)). rewrite firstn_all, drop_all.
    by destruct (OnEvicted c).
  - destruct (over_budget c) eqn:Hob.
    2:{ simpl in Hev. rewrite Hob in Hev. injection Hev as <- <-.
        exists (length (entries c)). rewrite firstn_all, drop_all.
        by destruct (OnEvicted c). }
    destruct (RemoveOldest_cases c w Hwf)
      as [[Hnil _]|(l & e & kv & c1 & Hl & Hh & _ & Hc1 & HR & Hwf1 & Hent)].
    { by rewrite evict_empty_diverge in Hev. }
    simpl in Hev. rewrite Hob, HR, bind_Ret in Hev.
    apply IH in Hev as (m & Hm & Hw); [|done].
    exists (m `min` length (entries c1))%nat. rewrite Hent. split.
    + rewrite take_app_le by lia. rewrite Hm.
      destruct (Nat.min_spec m (length (entries c1))) as [[? ->]|[? ->]]; [done|].
      by rewrite !take_ge by lia.
    + rewrite Hw. replace (OnEvicted c1) with (OnEvicted c) by (by subst c1).
      rewrite drop_app_le by lia. rewrite reverse_app. simpl.
      replace (drop (m `min` length (entries c1)) (entries c1))
        with (drop m (entries c1)).
      2:{ destruct (Nat.min_spec m (length (entries c1))) as [[? ->]|[? ->]]; [done|].
          by rewrite !drop_ge by lia. }
      by destruct (OnEvicted c).
Qed.

End lru_facts.

(** ** The LRU cache: byte accounting, recency, oversized entries *)

Section lru_properties.

Context {V : Type} `{!Value V} {W : Type}.
Import list_ lru.

(** C5 (LRU byte conservation).  Take any budget [B], any eviction
    callback and any sequence of calls of [Add] and [Get] on the cache
    [New(B, f)].  The calls never panic, and they all return unless the
    budget is negative.  On exit of the last of them (hence of each of
    them) the counter [nbytes] is the sum of [len(key) + value.Len()] over
    the entries present, as the code computes it in [int64]; it is that
    sum as an integer whenever the sum is an [int64]; and it is at most
    [B] when [B > 0]. *)
Theorem lru_byte_conservation (B : Z) (f : option (string → V → W → W))
    (os : list (op V)) (w0 : W) :
  match run os (New B f) w0 with
  | Ret (c, _) =>
      nbytes c = total_bytes c ∧
      (- 2 ^ 63 ≤ total_size c < 2 ^ 63 → nbytes c = total_size c) ∧
      (0 < B → nbytes c ≤ B)
  | Panic _ => False
  | Diverge => B < 0
  end.
Proof.
  pose proof (wf_New B f) as Hwf.
  destruct (run os (New B f) w0) as [[c w]|msg|] eqn:Hrun.
  - destruct (run_inv os _ _ _ _ Hwf Hrun) as (Hwf' & HB & _ & Hbud).
    simpl in HB, Hbud. split_and!.
    + by apply wf_bytes.
    + intros Hrange. rewrite (wf_bytes c Hwf'), total_bytes_wrap.
      by apply wrap_small.
    + intros Hpos. rewrite <- HB. apply Hbud; lia.
  - by apply run_no_panic in Hrun.
  - destruct (Z.lt_ge_cases B 0) as [|Hge]; [done|].
    destruct (run_total os (New B f) w0 Hwf Hge) as (c & w & Hr). congruence.
Qed.

(** C6, as the code has it (LRU recency).  In every cache reached from
    [New(B, f)] by calls of [Add] and [Get]: a [Get(k)] that finds [k]
    leaves [k], with the value it returned, at the front of the list;
    after [Add(k, v)] the entry [(k, v)] is at the front unless the list is
    empty, and it is at the front whenever the budget is zero or the entry
    fits the budget by itself; and [RemoveOldest], which is the only way
    [Add] evicts, does nothing on an empty list and otherwise removes the
    back element from the list and the key of its entry from the map,
    leaving the other entries in their order.  So do the evictions inside
    [Add]: once [Add(k, v)] has put [(k, v)] at the front, in front of the
    entries of the other keys in their order, its loop takes entries from
    the back only; the entries on exit are those, in their order, without
    the ones evicted, which were the last of the list and went to the
    callback one by one from the back; and the keys of the map on exit are
    the keys of the entries left. *)
Theorem lru_recency (B : Z) (f : option (string → V → W → W))
    (os : list (op V)) (w0 : W) (c : Cache V W) (w : W) :
  run os (New B f) w0 = Ret (c, w) →
  (∀ k v c', Get c k = Ret (Some v, c') → front c' = Some (Entry k v)) ∧
  (∀ k v c' w', Add c k v w = Ret (c', w') →
     (front c' = Some (Entry k v) ∨ ll c' = []) ∧
     (B = 0 ∨ entry_bytes (Entry k v) ≤ B → front c' = Some (Entry k v))) ∧
  (ll c = [] ∧ RemoveOldest c w = Ret (c, w) ∨
   ∃ l e kv c' w',
     RemoveOldest c w = Ret (c', w') ∧
     ll c = l ++ [e] ∧ heap c !! e = Some kv ∧ cache c !! key kv = Some e ∧
     ll c' = l ∧ cache c' = delete (key kv) (cache c) ∧
     entries c = entries c' ++ [kv]) ∧
  (∀ k v c' w', Add c k v w = Ret (c', w') →
     ∃ c1 evicted,
       put c k v = Ret c1 ∧
       entries c1 = Entry k v :: filter (λ kv, key kv ≠ k) (entries c) ∧
       entries c1 = entries c' ++ evicted ∧
       w' = notify f (reverse evicted) w ∧
       NoDup (key <$> entries c') ∧
       (∀ k', is_Some (cache c' !! k') ↔ k' ∈ key <$> entries c')).
Proof.
  intros Hrun.
  destruct (run_inv os _ _ _ _ (wf_New B f) Hrun) as (Hwf & HB & HE & _).
  simpl in HB, HE. split_and!.
  - intros k v c'. by apply Get_front.
  - intros k v c' w' HA. rewrite <- HB. by apply (Add_front c k v w c' w').
  - destruct (RemoveOldest_cases c w Hwf)
      as [?|(l & e & kv & c' & Hl & Hh & Hc & Hc' & HR & _ & Hent)]; [by left|].
    right. exists l, e, kv, c'. eexists. split; [exact HR|].
    split_and!; try done; by subst c'.
  - intros k v c' w' HA.
    destruct (Add_wf c k v w c' w' Hwf HA) as (Hwf' & _).
    destruct (wf_keys c' Hwf') as [Hnd Hdom].
    revert HA. unfold Add.
    destruct (put_entries c k v Hwf) as (c1 & -> & Hwf1 & _ & HE1 & Hent).
    rewrite bind_Ret. intros (m & Hm & Hw)%evict_entries; [|done].
    exists c1, (drop m (entries c1)). split_and!; try done.
    + by rewrite Hm, take_drop.
    + by rewrite Hw, HE1, HE.
Qed.

(** C10 (an entry larger than the budget).  Let values have lengths that
    are not negative and take a cache reached from [New(B, f)] with
    [B > 0].  An [Add(k, v)] with [len(k) + v.Len() > B], the sum of the
    sizes staying an [int64], returns; it has evicted every entry, the new
    one included and last: a [Get(k)] right after it finds nothing, the
    callback, if there is one, was last called on [(k, v)], and the cache
    is left empty with its counter at zero. *)
Theorem lru_add_oversized (B : Z) (f : option (string → V → W → W))
    (os : list (op V)) (w0 : W) (c : Cache V W) (w : W) (k : string) (v : V) :
  (∀ x : V, 0 ≤ Len x) →
  run os (New B f) w0 = Ret (c, w) →
  0 < B →
  B < Z.of_nat (String.length k) + Len v →
  total_size c + Z.of_nat (String.length k) + Len v < 2 ^ 63 →
  ∃ c' w',
    Add c k v w = Ret (c', w') ∧
    Get c' k = Ret (None, c') ∧
    (∀ cb, f = Some cb → ∃ w1, w' = cb k v w1) ∧
    ll c' = [] ∧ cache c' = ∅ ∧ nbytes c' = 0.
Proof.
  intros Hlen Hrun HB Hbig Hsz.
  destruct (run_inv os _ _ _ _ (wf_New B f) Hrun) as (Hwf & HBc & HE & _).
  simpl in HBc, HE.
  destruct (Add_oversized Hlen c k v w Hwf) as (c' & w' & HA & HG & Hcb & Hrest);
    [lia..|].
  exists c', w'. split_and!; try done; try apply Hrest.
  intros cb ->. by apply Hcb.
Qed.

End lru_properties.

(** *** At concrete inputs *)

Section lru_examples.

Import lru.
Import geecache (ByteView, view).

(** Scenario S1 of the specification, through [lru_byte_conservation]. *)
Lemma lru_byte_conservation_witness :
  ∃ c : Cache ByteView unit,
    run [OpAdd "k1" (view "v1"); OpAdd "k2" (view "v2"); OpAdd "k3" (view "v3")]
      (New 8 None) () = Ret (c, ()) ∧
    nbytes c = total_bytes c ∧ nbytes c ≤ 8.
Proof.
  generalize (lru_byte_conservation (V := ByteView) 8 None
    [OpAdd "k1" (view "v1"); OpAdd "k2" (view "v2"); OpAdd "k3" (view "v3")] ()).
  destruct (run _ _ _) as [[c []]| |]; [|done|lia].
  intros (H1 & _ & H3). exists c. split; [done|]. split; [done|]. apply H3. lia.
Defined.

(** An entry of six bytes added to a cache of budget one is no longer
    there when [Add] returns: the front of the list is not its key. *)
Lemma lru_recency_counterexample :
  ∃ c' : Cache ByteView unit,
    Add (New 1 None) "k" (view "hello") () = Ret (c', ()) ∧
    front c' ≠ Some (Entry "k" (view "hello")).
Proof. eexists. split; [vm_compute; reflexivity|]. vm_compute. discriminate. Qed.

(** After two insertions, a [Get] of the older key brings it to the
    front; and a third insertion, which does not fit with the two,
    leaves the new entry followed by entries of the list in their order,
    the rest having left from the back. *)
Lemma lru_recency_witness :
  ∃ (c c' c2 : Cache ByteView unit) evicted,
    run [OpAdd "k1" (view "v1"); OpAdd "k2" (view "v2")] (New 8 None) () = Ret (c, ()) ∧
    Get c "k1" = Ret (Some (view "v1"), c') ∧
    front c' = Some (Entry "k1" (view "v1")) ∧
    Add c "k3" (view "v3") () = Ret (c2, ()) ∧
    Entry "k3" (view "v3") :: filter (λ kv, key kv ≠ "k3") (entries c)
    = entries c2 ++ evicted.
Proof.
  destruct (run [OpAdd "k1" (view "v1"); OpAdd "k2" (view "v2")] (New 8 None) ())
    as [[c []]| |] eqn:Hrun; [|vm_compute in Hrun; discriminate..].
  pose proof (lru_recency 8 None _ () c () Hrun) as (Hfront & _ & _ & Hevict).
  vm_compute in Hrun. injection Hrun as Hc.
  assert (∃ c', Get c "k1" = Ret (Some (view "v1"), c')) as [c' HG]
    by (rewrite <- Hc; eexists; vm_compute; reflexivity).
  assert (∃ c2, Add c "k3" (view "v3") () = Ret (c2, ())) as [c2 HA]
    by (rewrite <- Hc; eexists; vm_compute; reflexivity).
  destruct (Hevict "k3" (view "v3") c2 () HA) as (c1 & evicted & _ & Hent & Happ & _).
  exists c, c', c2, evicted. split; [done|]. split; [done|].
  split; [by apply Hfront|]. split; [done|]. by rewrite <- Hent.
Defined.

(** A cache of budget eight that holds one entry of four bytes, and an
    entry of nine bytes added to it. *)
Lemma lru_add_oversized_witness :
  ∃ c c' : Cache ByteView unit,
    run [OpAdd "k1" (view "v1")] (New 8 None) () = Ret (c, ()) ∧
    Add c "key" (view "value!") () = Ret (c', ()) ∧
    Get c' "key" = Ret (None, c') ∧ ll c' = [] ∧ nbytes c' = 0.
Proof.
  destruct (run [OpAdd "k1" (view "v1")] (New 8 None) ())
    as [[c []]| |] eqn:Hrun; [|vm_compute in Hrun; discriminate..].
  pose proof Hrun as Hc. vm_compute in Hc. injection Hc as Hc.
  destruct (lru_add_oversized (V := ByteView) 8 None [OpAdd "k1" (view "v1")] () c ()
              "key" (view "value!"))
    as (c' & [] & HA & HG & _ & Hl & _ & Hn).
  - intros x. unfold Len, geecache.ByteView_Value. lia.
  - exact Hrun.
  - lia.
  - by vm_compute.
  - rewrite <- Hc. by vm_compute.
  - by exists c, c'.
Defined.

End lru_examples.

(** ** Binary search *)

Section search_facts.

Import sort.

(** The loop invariant of [sort.Search], for a predicate that stays true
    once it is true: everything below [i] fails, [j] passes. *)
Lemma search_loop_spec (n : nat) (f : nat → bool) (fuel i j : nat) :
  (∀ a b, (a ≤ b < n)%nat → f a = true → f b = true) →
  (j - i ≤ fuel)%nat → (i ≤ j ≤ n)%nat →
  (∀ k, (k < i)%nat → f k = false) →
  ((j < n)%nat → f j = true) →
  (i ≤ search_loop fuel f i j ≤ j)%nat ∧
  (∀ k, (k < search_loop fuel f i j)%nat → f k = false) ∧
  ((search_loop fuel f i j < n)%nat → f (search_loop fuel f i j) = true).
Proof.
  intros Hmono. revert i j.
  induction fuel as [|fuel IH]; intros i j Hfuel Hij Hlo Hhi; cbn [search_loop].
  - assert (i = j) as -> by lia. split_and!; [lia..|done|done].
  - destruct (Nat.ltb_spec i j) as [Hlt|Hge].
    2:{ assert (i = j) as -> by lia. split_and!; [lia..|done|done]. }
    assert (i ≤ (i + j) / 2 < j)%nat as Hh.
    { split; [apply Nat.div_le_lower_bound|apply Nat.Div0.div_lt_upper_bound]; lia. }
    destruct (f ((i + j) / 2)%nat) eqn:Hf.
    + destruct (IH i ((i + j) / 2)%nat) as (Hr & Hbelow & Hat); [lia|lia|done|done|].
      split_and!; [lia|lia|done|done].
    + destruct (IH ((i + j) / 2 + 1)%nat j) as (Hr & Hbelow & Hat); [lia|lia| |done|].
      * intros k Hk. destruct (f k) eqn:Hfk; [|done].
        rewrite (Hmono k ((i + j) / 2)%nat) in Hf; [done|lia|done].
      * split_and!; [lia|lia|done|done].
Qed.

(** [sort.Search(n, f)] is the least index at which [f] holds, and [n]
    when there is none. *)
Lemma Search_spec (n : nat) (f : nat → bool) :
  (∀ a b, (a ≤ b < n)%nat → f a = true → f b = true) →
  (Search n f ≤ n)%nat ∧
  (∀ k, (k < Search n f)%nat → f k = false) ∧
  ((Search n f < n)%nat → f (Search n f) = true).
Proof.
  intros Hmono. unfold Search.
  destruct (search_loop_spec n f n 0 n Hmono) as (Hr & Hbelow & Hat);
    [lia|lia|lia|lia|]. split_and!; [lia|done|done].
Qed.

Lemma Sorted_lookup_le (l : list Z) (a b : nat) (x y : Z) :
  Sorted Z.le l → (a ≤ b)%nat → l !! a = Some x → l !! b = Some y → x ≤ y.
Proof.
  intros Hs%(Sorted_StronglySorted Z.le). revert a b.
  induction Hs as [|z l Hs IH Hall]; intros a b Hab Ha Hb; [done|].
  destruct a as [|a], b as [|b]; simpl in *.
  - by simplify_eq.
  - injection Ha as ->. rewrite Forall_forall in Hall. apply Hall.
    by eapply list_elem_of_lookup_2.
  - lia.
  - eapply (IH a b); [lia|done..].
Qed.

(** On a sorted sequence the test [a[i] >= x] stays true. *)
Lemma ge_mono (l : list Z) (x : Z) :
  Sorted Z.le l →
  ∀ a b, (a ≤ b < length l)%nat → (x <=? l !!! a) = true → (x <=? l !!! b) = true.
Proof.
  intros Hs a b Hab Ha.
  destruct (lookup_lt_is_Some_2 l a) as [va Hva]; [lia|].
  destruct (lookup_lt_is_Some_2 l b) as [vb Hvb]; [lia|].
  rewrite (list_lookup_total_correct _ _ _ Hva) in Ha.
  rewrite (list_lookup_total_correct _ _ _ Hvb).
  pose proof (Sorted_lookup_le l a b va vb Hs (proj1 Hab) Hva Hvb) as Hle.
  apply Z.leb_le in Ha. apply Z.leb_le. lia.
Qed.

(** [sort.SearchInts] finds an element that is in the sorted sequence. *)
Lemma SearchInts_found (l : list Z) (x : Z) :
  Sorted Z.le l → x ∈ l → l !! SearchInts l x = Some x.
Proof.
  intros Hs Hin. unfold SearchInts.
  destruct (Search_spec (length l) (λ i, x <=? l !!! i) (ge_mono l x Hs))
    as (Hle & Hbelow & Hat).
  set (r := Search (length l) (λ i, x <=? l !!! i)) in *.
  apply list_elem_of_lookup in Hin as [j Hj].
  pose proof (lookup_lt_Some _ _ _ Hj) as Hjlt.
  assert (r ≤ j)%nat as Hrj.
  { destruct (Nat.le_gt_cases r j) as [|Hgt]; [done|].
    specialize (Hbelow j Hgt). simpl in Hbelow.
    rewrite (list_lookup_total_correct _ _ _ Hj) in Hbelow.
    apply Z.leb_gt in Hbelow. lia. }
  destruct (lookup_lt_is_Some_2 l r) as [vr Hvr]; [lia|].
  specialize (Hat ltac:(lia)). simpl in Hat.
  rewrite (list_lookup_total_correct _ _ _ Hvr) in Hat. apply Z.leb_le in Hat.
  pose proof (Sorted_lookup_le l r j vr x Hs Hrj Hvr Hj).
  rewrite Hvr. f_equal. lia.
Qed.

End search_facts.

(** ** The hash ring *)

Section ring_facts.

Import consistenthash.

(** C7 (ring lookup).  On a ring whose sequence of virtual-node hashes is
    sorted, [Get] is the lookup the specification describes: the empty
    peer id on an empty ring, and otherwise the peer bound to the first
    hash of the sequence that is at least the hash of the key, and to the
    first hash of the sequence, [K[0]], when the hash of the key exceeds
    them all. *)
Theorem ring_get_refines (m : Map) (key : string) :
  Sorted Z.le (keys m) → Get m key = Get_spec m key.
Proof.
  intros Hs. unfold Get, Get_spec.
  destruct (keys m) as [|k0 K] eqn:HK; [done|].
  rewrite decide_False by done. rewrite <- HK in *.
  set (h := hash m key).
  destruct (Search_spec (length (keys m)) (λ i, h <=? keys m !!! i)
              (ge_mono (keys m) h Hs)) as (Hle & Hbelow & Hat).
  set (r := sort.Search (length (keys m)) (λ i, h <=? keys m !!! i)) in *.
  destruct (list_find (λ k, h ≤ k) (keys m)) as [[i k]|] eqn:Hfind.
  - apply list_find_Some in Hfind as (Hi & Hk & Hmin).
    pose proof (lookup_lt_Some _ _ _ Hi) as Hilt.
    assert (r ≤ i)%nat as Hri.
    { destruct (Nat.le_gt_cases r i) as [|Hgt]; [done|].
      specialize (Hbelow i Hgt). simpl in Hbelow.
      rewrite (list_lookup_total_correct _ _ _ Hi) in Hbelow.
      apply Z.leb_gt in Hbelow. lia. }
    destruct (lookup_lt_is_Some_2 (keys m) r) as [vr Hvr]; [lia|].
    specialize (Hat ltac:(lia)). simpl in Hat.
    rewrite (list_lookup_total_correct _ _ _ Hvr) in Hat. apply Z.leb_le in Hat.
    assert (r = i) as Heq.
    { destruct (Nat.eq_dec r i) as [|Hne]; [done|].
      exfalso. apply (Hmin r vr Hvr); lia. }
    rewrite Nat.mod_small by lia. rewrite Heq.
    by rewrite (list_lookup_total_correct _ _ _ Hi).
  - apply list_find_None in Hfind. rewrite Forall_forall in Hfind.
    assert (r = length (keys m)) as ->.
    { destruct (Nat.eq_dec r (length (keys m))) as [|Hne]; [done|].
      destruct (lookup_lt_is_Some_2 (keys m) r) as [vr Hvr]; [lia|].
      specialize (Hat ltac:(lia)). simpl in Hat.
      rewrite (list_lookup_total_correct _ _ _ Hvr) in Hat. apply Z.leb_le in Hat.
      exfalso. apply (Hfind vr); [by eapply list_elem_of_lookup_2|lia]. }
    rewrite Nat.Div0.mod_same. by rewrite HK.
Qed.

(** *** Adding a peer and removing it again *)

Lemma foldl_add_vnode (p : string) (js : list nat) (m : Map) :
  foldl (add_vnode p) m js
  = mkMap (hash m) (replicas m) (keys m ++ ((λ i, vhash m i p) <$> js))
      (foldl (λ M i, <[vhash m i p := p]> M) (hashMap m) js).
Proof.
  revert m. induction js as [|i js IH]; intros m; simpl.
  - rewrite app_nil_r. by destruct m.
  - rewrite IH. unfold add_vnode, vhash. simpl. by rewrite <- app_assoc.
Qed.

Lemma Add_single (m : Map) (p : string) :
  Add m [p]
  = mkMap (hash m) (replicas m) (sort.Ints (keys m ++ vnodes m p))
      (foldl (λ M i, <[vhash m i p := p]> M) (hashMap m) (replica_range m)).
Proof. unfold Add. simpl foldl. by rewrite foldl_add_vnode. Qed.

Lemma Sorted_delete (l : list Z) (i : nat) :
  Sorted Z.le l → Sorted Z.le (delete i l).
Proof.
  intros Hs%(Sorted_StronglySorted Z.le). apply StronglySorted_Sorted.
  revert i. induction Hs as [|x l Hs IH Hall]; intros i; [constructor|].
  destruct i as [|i]; simpl; [done|].
  constructor; [apply IH|].
  rewrite Forall_forall in Hall |- *. intros y Hy. apply Hall.
  eapply elem_of_sublist; [exact Hy|apply sublist_delete].
Qed.

(** One turn of the loop of [Remove], for a virtual node that is on the
    ring: its hash leaves the sequence, which stays sorted. *)
Lemma remove_vnode_found (p : string) (m : Map) (i : nat) :
  Sorted Z.le (keys m) → vhash m i p ∈ keys m →
  ∃ K, remove_vnode p m i
       = Ret (mkMap (hash m) (replicas m) K (delete (vhash m i p) (hashMap m))) ∧
    Sorted Z.le K ∧ keys m ≡ₚ vhash m i p :: K.
Proof.
  intros Hs Hin. unfold remove_vnode.
  pose proof (SearchInts_found (keys m) (vhash m i p) Hs Hin) as Hidx.
  pose proof (lookup_lt_Some _ _ _ Hidx) as Hlt.
  apply Nat.ltb_lt in Hlt. rewrite Hlt.
  rewrite Nat.add_1_r, <- delete_take_drop.
  eexists. split; [done|]. split; [by apply Sorted_delete|].
  by apply delete_Permutation.
Qed.

Lemma remove_loop (p : string) (js : list nat) (m : Map) :
  Sorted Z.le (keys m) →
  NoDup ((λ i, vhash m i p) <$> js) →
  (∀ i, i ∈ js → vhash m i p ∈ keys m) →
  ∃ K, foldl (λ r i, m ← r; remove_vnode p m i) (Ret m) js
       = Ret (mkMap (hash m) (replicas m) K
                (foldl (λ M i, delete (vhash m i p) M) (hashMap m) js)) ∧
    Sorted Z.le K ∧ keys m ≡ₚ ((λ i, vhash m i p) <$> js) ++ K.
Proof.
  revert m. induction js as [|i js IH]; intros m Hs Hnd Hin.
  - exists (keys m). simpl. split; [by destruct m|done].
  - rewrite fmap_cons in Hnd. apply NoDup_cons in Hnd as [Hi Hnd].
    destruct (remove_vnode_found p m i Hs) as (K1 & HR & Hs1 & Hp1).
    { apply Hin. by left. }
    cbn [foldl]. rewrite bind_Ret, HR.
    destruct (IH (mkMap (hash m) (replicas m) K1 (delete (vhash m i p) (hashMap m))))
      as (K & HF & HsK & HpK); [done|done| |].
    { intros j Hj. simpl.
      assert (vhash m j p ∈ vhash m i p :: K1) as [Heq|?]%elem_of_cons; [|exfalso|done].
      - rewrite <- Hp1. apply Hin. by right.
      - apply Hi. rewrite <- Heq. apply list_elem_of_fmap. eauto. }
    exists K. split; [exact HF|]. split; [done|].
    rewrite Hp1. simpl in HpK. rewrite fmap_cons. simpl. by rewrite HpK.
Qed.

Lemma lookup_foldl_delete {A : Type} (f : nat → Z) (js : list nat)
    (M : gmap Z A) (k : Z) :
  foldl (λ M i, delete (f i) M) M js !! k
  = if decide (k ∈ f <$> js) then None else M !! k.
Proof.
  revert M. induction js as [|i js IH]; intros M; [done|].
  cbn [foldl]. rewrite IH, fmap_cons. destruct (decide (k = f i)) as [->|Hne].
  - rewrite lookup_delete_eq.
    rewrite (decide_True (P := f i ∈ f i :: (f <$> js))) by (by left).
    by destruct (decide (f i ∈ f <$> js)).
  - rewrite lookup_delete_ne by done.
    destruct (decide (k ∈ f <$> js)) as [Hk|Hk].
    + rewrite decide_True; [done|]. by right.
    + rewrite decide_False; [done|]. by intros [?|?]%elem_of_cons.
Qed.

Lemma lookup_foldl_insert_notin {A : Type} (f : nat → Z) (x : A) (js : list nat)
    (M : gmap Z A) (k : Z) :
  k ∉ f <$> js → foldl (λ M i, <[f i := x]> M) M js !! k = M !! k.
Proof.
  revert M. induction js as [|i js IH]; intros M Hk; simpl; [done|].
  rewrite fmap_cons in Hk. apply not_elem_of_cons in Hk as [Hne Hk].
  rewrite IH by done. by rewrite lookup_insert_ne.
Qed.

(** Every ring the package builds has a sorted sequence. *)
Lemma New_sorted (H : Hash) (r : Z) (fn : option Hash) : Sorted Z.le (keys (New H r fn)).
Proof. constructor. Qed.

Lemma Add_sorted (m : Map) (ks : list string) : Sorted Z.le (keys (Add m ks)).
Proof. apply (Sorted_merge_sort Z.le). Qed.

Lemma Remove_sorted (m m' : Map) (p : string) :
  Sorted Z.le (keys m) → Remove m p = Ret m' → Sorted Z.le (keys m').
Proof.
  unfold Remove. generalize (replica_range m) as js.
  assert (∀ js (r : outcome Map),
            (∀ m0, r = Ret m0 → Sorted Z.le (keys m0)) →
            foldl (λ r i, m ← r; remove_vnode p m i) r js = Ret m' →
            Sorted Z.le (keys m')) as Hgen.
  { induction js as [|i js IH]; intros r Hr; cbn [foldl]; [by apply Hr|].
    apply IH. intros m0. destruct r as [m1| |]; [|done..].
    rewrite bind_Ret. unfold remove_vnode.
    destruct (_ <? _)%nat; [|done]. intros [= <-]. simpl.
    rewrite Nat.add_1_r, <- delete_take_drop. apply Sorted_delete. by apply Hr. }
  intros js Hs. apply Hgen. by intros m0 [= <-].
Qed.

(** *** The ring as a function of the peers *)

Lemma foldl_add_peers (ps : list string) (m : Map) :
  foldl (λ m key, foldl (add_vnode key) m (replica_range m)) m ps
  = mkMap (hash m) (replicas m) (keys m ++ (bindings m ps).*1)
      (foldl (λ M kv, <[kv.1 := kv.2]> M) (hashMap m) (bindings m ps)).
Proof.
  revert m. induction ps as [|p ps IH]; intros m.
  - simpl. rewrite app_nil_r. by destruct m.
  - cbn [foldl]. rewrite foldl_add_vnode, IH. unfold bindings at 3 4.
    rewrite bind_cons, fmap_app, foldl_app, foldl_fmap, <- list_fmap_compose.
    simpl. by rewrite <- app_assoc.
Qed.

Lemma Add_bindings (m : Map) (ps : list string) :
  Add m ps
  = mkMap (hash m) (replicas m) (sort.Ints (keys m ++ (bindings m ps).*1))
      (foldl (λ M kv, <[kv.1 := kv.2]> M) (hashMap m) (bindings m ps)).
Proof. unfold Add. by rewrite foldl_add_peers. Qed.

Lemma Ints_perm (l l' : list Z) : l ≡ₚ l' → sort.Ints l = sort.Ints l'.
Proof.
  intros Hp. unfold sort.Ints.
  apply (Sorted_unique Z.le); [apply (Sorted_merge_sort Z.le)..|].
  by rewrite !merge_sort_Permutation.
Qed.

Lemma foldl_insert_union (l : list (Z * string)) (M : gmap Z string) :
  NoDup (l.*1) →
  foldl (λ M kv, <[kv.1 := kv.2]> M) M l = list_to_map l ∪ M.
Proof.
  revert M. induction l as [|[k v] l IH]; intros M Hnd; simpl.
  - by rewrite (left_id_L ∅ (∪)).
  - apply NoDup_cons in Hnd as [Hk Hnd]. rewrite IH by done.
    rewrite <- insert_union_l. symmetry. apply insert_union_r.
    by apply not_elem_of_list_to_map_1.
Qed.

(** C8 (ring stability).  [Get] reads the ring and nothing else, and the
    ring is a function of the peers on it: adding peers in two calls of
    [Add] or in one gives the same ring, and so does adding them in
    another order when no two of their virtual nodes collide.  And take a
    ring with a sorted sequence and a peer [p] whose virtual nodes collide
    neither with each other nor with a hash of the sequence or of the
    table (so [p] is not on the ring): [Add(p)] followed by [Remove(p)]
    does not panic and gives back the ring it started from, hence a ring
    on which [Get] answers as before for every key. *)
Theorem ring_add_remove :
  (∀ m ps qs, Add (Add m ps) qs = Add m (ps ++ qs)) ∧
  (∀ m ps ps',
     ps ≡ₚ ps' → NoDup ((bindings m ps).*1) →
     Add m ps = Add m ps' ∧ ∀ k, Get (Add m ps) k = Get (Add m ps') k) ∧
  (∀ m p,
     Sorted Z.le (keys m) →
     NoDup (vnodes m p) →
     (∀ h, h ∈ vnodes m p → (h ∉ keys m) ∧ hashMap m !! h = None) →
     ∃ m', Remove (Add m [p]) p = Ret m' ∧ m' = m ∧ ∀ k, Get m' k = Get m k).
Proof.
  split_and!.
  - intros m ps qs. rewrite !Add_bindings. simpl.
    change (bindings (mkMap (hash m) (replicas m) _ _) qs) with (bindings m qs).
    assert (bindings m (ps ++ qs) = bindings m ps ++ bindings m qs) as ->
      by apply bind_app.
    rewrite fmap_app, foldl_app. f_equal.
    apply Ints_perm. unfold sort.Ints.
    by rewrite merge_sort_Permutation, <- app_assoc.
  - intros m ps ps' Hp Hnd.
    assert (bindings m ps ≡ₚ bindings m ps') as Hb by (unfold bindings; by rewrite Hp).
    assert (Add m ps = Add m ps') as Heq; [|by rewrite Heq].
    rewrite !Add_bindings. f_equal.
    + apply Ints_perm. by rewrite Hb.
    + rewrite !foldl_insert_union; [|by rewrite <- Hb|done].
      f_equal. by apply list_to_map_proper.
  - intros m p Hs Hnd Hfresh. exists m. split; [|done].
    rewrite Add_single. unfold Remove.
    set (m1 := mkMap _ _ _ _).
    destruct (remove_loop p (replica_range m) m1) as (K & HF & HsK & HpK).
    + apply (Sorted_merge_sort Z.le).
    + exact Hnd.
    + intros i Hi. subst m1. simpl. unfold sort.Ints.
      rewrite merge_sort_Permutation. apply elem_of_app. right.
      unfold vnodes. apply list_elem_of_fmap. eauto.
    + change (replica_range m1) with (replica_range m). rewrite HF.
      subst m1. simpl in *. unfold sort.Ints in HpK.
      rewrite merge_sort_Permutation in HpK.
      change ((λ i, hash m (Itoa i +:+ p)) <$> replica_range m) with (vnodes m p) in HpK.
      rewrite (comm (++) (keys m)) in HpK. apply Permutation_app_inv_l in HpK.
      assert (K = keys m) as ->.
      { symmetry. by apply (Sorted_unique Z.le). }
      assert (foldl (λ M i, delete (vhash m i p) M)
                (foldl (λ M i, <[vhash m i p := p]> M) (hashMap m) (replica_range m))
                (replica_range m) = hashMap m) as Hmap.
      { apply map_eq. intros k. rewrite lookup_foldl_delete.
        case_decide as Hk; [|by apply lookup_foldl_insert_notin].
        symmetry. by apply Hfresh. }
      destruct m as [H r K0 M0]. simpl in *. do 2 f_equal. exact Hmap.
Qed.

End ring_facts.

(** *** At concrete inputs *)

Section ring_examples.

Import consistenthash.

Lemma ring3_sorted : Sorted Z.le (keys ring3).
Proof. by apply (bool_decide_unpack _); vm_compute. Qed.

(** The lookups of scenario S3. *)
Example ring3_lookups :
  Get ring3 <$> ["2"; "11"; "23"; "27"] = ["2"; "2"; "4"; "2"] ∧
  Get (Add ring3 ["8"]) "27" = "8".
Proof. by vm_compute. Qed.

(** The key 27 lies beyond the last virtual node, 26: it wraps to the
    first one, 2. *)
Lemma ring_get_refines_witness :
  Get ring3 "27" = Get_spec ring3 "27" ∧ Get_spec ring3 "27" = "2".
Proof.
  split; [exact (ring_get_refines ring3 "27" ring3_sorted)|].
  vm_compute. reflexivity.
Defined.

(** The peer 8 is not on the ring of scenario S3. *)
Lemma ring_add_remove_witness :
  Get (Add ring3 ["8"]) "27" = "8" ∧
  ∃ m', Remove (Add ring3 ["8"]) "8" = Ret m' ∧ Get m' "27" = "2".
Proof.
  split; [vm_compute; reflexivity|].
  destruct (proj2 (proj2 ring_add_remove) ring3 "8" ring3_sorted)
    as (m' & HR & -> & HG).
  - by apply (bool_decide_unpack _); vm_compute.
  - intros h Hh. vm_compute in Hh.
    repeat (apply elem_of_cons in Hh as [->|Hh]); [..|by apply elem_of_nil in Hh];
      (split; [by apply (bool_decide_unpack _); vm_compute|by vm_compute]).
  - exists ring3. split; [exact HR|]. vm_compute. reflexivity.
Defined.

End ring_examples.

(** ** The pool of peers *)

Section pool_properties.

Import geecache.

(** C9 (self-exclusion).  On a pool whose ring has been set, [PickPeer]
    answers [(nil, false)] when the ring gives [self] as the owner of the
    key, and when the ring is empty or otherwise yields the empty peer id;
    it answers [true], with the client the table holds for the owner, if
    and only if the owner the ring yields is neither empty nor [self]. *)
Theorem pick_peer_self_exclusion (p : HTTPPool) (ring : consistenthash.Map)
    (key : string) :
  peers_ p = Some ring →
  (consistenthash.Get ring key = self p → PickPeer p key = Ret (None, false)) ∧
  (consistenthash.keys ring = [] → PickPeer p key = Ret (None, false)) ∧
  (consistenthash.Get ring key = "" → PickPeer p key = Ret (None, false)) ∧
  (∀ g, PickPeer p key = Ret (g, true) ↔
     consistenthash.Get ring key ≠ "" ∧ consistenthash.Get ring key ≠ self p ∧
     g = httpGetters p !! consistenthash.Get ring key).
Proof.
  intros Hring. unfold PickPeer. rewrite Hring. split_and!.
  - intros Hself. rewrite decide_False; [done|]. by intros [_ ?].
  - intros Hnil. assert (consistenthash.Get ring key = "") as ->.
    { unfold consistenthash.Get. by rewrite Hnil. }
    rewrite decide_False; [done|]. by intros [? _].
  - intros Hempty. rewrite decide_False; [done|]. by intros [? _].
  - intros g. case_decide as Hd.
    + split.
      * intros [= <-]. by destruct Hd.
      * by intros (_ & _ & ->).
    + split; [done|]. intros (? & ? & _). by destruct Hd.
Qed.

(** The pool at the address 4 set over the peers 6, 4 and 2, with the
    hash of scenario S3 in the place of the checksum: the key 23 belongs
    to 4, the pool itself, and the key 25 to 6; and a pool set over no
    peer at all. *)
Lemma pick_peer_self_exclusion_witness :
  let p := Set_ consistenthash.atoi (NewHTTPool "4") ["6"; "4"; "2"] in
  PickPeer p "23" = Ret (None, false) ∧
  PickPeer p "25" = Ret (Some (mkhttpGetter "6/_geecache/"), true) ∧
  PickPeer (Set_ consistenthash.atoi (NewHTTPool "4") []) "23" = Ret (None, false).
Proof.
  intros p.
  set (ring := consistenthash.Add
                 (consistenthash.New consistenthash.atoi defaultReplicas None)
                 ["6"; "4"; "2"]).
  destruct (pick_peer_self_exclusion p ring "23" eq_refl) as (Hself & _).
  destruct (pick_peer_self_exclusion p ring "25" eq_refl) as (_ & _ & _ & Hpick).
  destruct (pick_peer_self_exclusion
              (Set_ consistenthash.atoi (NewHTTPool "4") [])
              (consistenthash.Add
                 (consistenthash.New consistenthash.atoi defaultReplicas None) [])
              "23" eq_refl)
    as (_ & Hnil & _).
  split; [apply Hself; vm_compute; reflexivity|].
  split; [apply Hpick; vm_compute; split_and!; [discriminate..|reflexivity]|].
  apply Hnil. vm_compute. reflexivity.
Defined.

(** ** The HTTP dispatcher *)

Lemma prefix_app (s t : string) : String.prefix s (s +:+ t) = true.
Proof.
  induction s as [|a s IH]; simpl; [by destruct t|].
  destruct (Ascii.ascii_dec a a); [done|congruence].
Qed.

Lemma from_app (s t : string) : from (String.length s) (s +:+ t) = t.
Proof. induction s as [|a s IH]; simpl; [by destruct t|done]. Qed.

Lemma cut_app (g k : string) :
  no_slash g = true → cut (g +:+ String (Ascii.ascii_of_nat 47) k) = Some (g, k).
Proof.
  induction g as [|a g IH]; intros Hg; simpl in *; [done|].
  apply andb_true_iff in Hg as [Ha Hg]. apply negb_true_iff in Ha.
  rewrite Ha. by rewrite IH.
Qed.

(** C4, on the code as it is (unknown namespace).  For a request whose
    path is [basePath], a namespace without slash that is not registered,
    a slash and a key, the dispatcher answers 404 and then goes on: it
    calls [Get] on the nil Group.  With a key that is not empty the call
    dereferences nil and the handler panics; with the empty key [Get]
    returns its error and the handler reports it with a second status,
    500. *)
Theorem serve_unknown_group_calls_Get (p : HTTPPool) (groups : registry)
    (groupName key : string) :
  no_slash groupName = true →
  GetGroup groups groupName = None →
  ServeHTTP p groups (basePath p +:+ (groupName +:+ String (Ascii.ascii_of_nat 47) key))
  = if decide (key = "")
    then ([Error_ ("No such group: " +:+ groupName) StatusNotFound;
           Error_ "key is required" StatusInternalServerError], Ret groups)
    else ([Error_ ("No such group: " +:+ groupName) StatusNotFound], Panic nil_deref).
Proof.
  intros Hg Hnone. unfold ServeHTTP.
  rewrite prefix_app. simpl negb. cbv iota.
  rewrite from_app. unfold SplitN2. rewrite (cut_app _ _ Hg).
  rewrite Hnone. unfold Get. by case_decide.
Qed.

(** The request [/_geecache/nosuch/Tom] to a node with no Group at all. *)
Lemma serve_unknown_group_witness :
  ServeHTTP (NewHTTPool "http://localhost:8001") ∅ "/_geecache/nosuch/Tom"
  = ([Error_ "No such group: nosuch" 404], Panic nil_deref).
Proof.
  exact (serve_unknown_group_calls_Get (NewHTTPool "http://localhost:8001") ∅
           "nosuch" "Tom" eq_refl eq_refl).
Defined.

End pool_properties.

(** ** Single flight, one goroutine at a time *)

Section flight_facts.

Context {A W : Type}.
Import singleflight.

Implicit Types (g : Group A) (w : W) (fn : thunk A W).

(** With no call in flight for the key, [Do] runs the thunk: it returns
    what the thunk returns and has removed the entry again; a panic of
    the thunk leaves the entry behind. *)
Lemma Do_idle g w key fn :
  idle g key →
  Do g w key fn
  = let c := length (calls g) in
    let mp := <[key := c]> (default ∅ (m g)) in
    match fn w with
    | (w', Ret (v, e)) =>
        (mkGroup (Some (delete key mp)) (calls g ++ [mkCall 0 v e]), w', Returned v e)
    | (w', Panic msg) =>
        (mkGroup (Some mp) (calls g ++ [mkCall 1 None None]), w', Panicked msg)
    | (w', Diverge) =>
        (mkGroup (Some mp) (calls g ++ [mkCall 1 None None]), w', Hung)
    end.
Proof.
  unfold idle. intros Hidle. unfold Do. cbn [steps step]. rewrite Hidle.
  cbn [steps step]. destruct (fn w) as [w' [[v e]|msg|]]; [|done..].
  cbn [steps step calls m].
  assert (alter (λ cl : call A, mkCall (wg cl - 1) v e) (length (calls g))
            (calls g ++ [mkCall 1 None None]) = calls g ++ [mkCall 0 v e]) as ->.
  { rewrite alter_app_r_alt by lia. by rewrite Nat.sub_diag. }
  rewrite lookup_app_r by lia. rewrite Nat.sub_diag. simpl. done.
Qed.

(** With a call in flight for the key, [Do] does not run the thunk and
    leaves the world alone. *)
Lemma Do_busy g w key fn c :
  default ∅ (m g) !! key = Some c →
  (Do g w key fn).1.2 = w ∧
  ∀ v e, (Do g w key fn).2 = Returned v e →
    ∃ cl, calls g !! c = Some cl ∧ wg cl = 0%nat ∧ v = val cl ∧ e = err cl.
Proof.
  intros Hc. unfold Do. cbn [steps step]. rewrite Hc. cbn [steps step calls].
  destruct (calls g !! c) as [cl|] eqn:Hcl; [|by split].
  case_decide as Hwg; [|by split].
  cbn [steps step]. split; [done|]. intros v e [= <- <-]. eauto.
Qed.

End flight_facts.

(** ** The read-through flow of a Group *)

Section group_facts.

Import geecache.

Lemma getFromPeer_error g peer key v e :
  getFromPeer g peer key = Ret (v, Some e) → v = mkByteView [].
Proof.
  unfold getFromPeer. destruct peer as [peer|]; [|done].
  destruct (peer (name g) key) as [bs [e'|]]; by intros [= <- <-].
Qed.

(** What [getLocally] returns, and what it does to the cache. *)
Lemma getLocally_error g key v e g' :
  getLocally g key = Ret (v, Some e, g') →
  v = mkByteView [] ∧ g' = g ∧ (getter g key).2 = Some e.
Proof.
  unfold getLocally. destruct (getter g key) as [bs [e'|]]; simpl.
  - by intros [= <- <- <-].
  - destruct (populateCache _ _ _); simpl; done.
Qed.

Lemma getLocally_failing g key bs e :
  getter g key = (bs, Some e) → getLocally g key = Ret (mkByteView [], Some e, g).
Proof. unfold getLocally. by intros ->. Qed.

(** The closure of [load], when the peer step does not succeed: it is
    [getLocally], and the named results keep the empty view. *)
Lemma load_thunk_local g key :
  peer_fetch g key = None ∨
  (∃ v0 e0, peer_fetch g key = Some (Ret (v0, Some e0))) →
  ∃ e0,
    load_thunk key (mkFrame g (mkByteView []) None)
    = match getLocally g key with
      | Ret (v, e, g') => (mkFrame g' (mkByteView []) e0, Ret (Some v, e))
      | Panic msg => (mkFrame g (mkByteView []) e0, Panic msg)
      | Diverge => (mkFrame g (mkByteView []) e0, Diverge)
      end.
Proof.
  unfold peer_fetch, load_thunk. cbn [f_group f_value f_err].
  destruct (peers g) as [picker|]; [|intros _; exists None; by destruct (getLocally g key) as [[[??]?]| |]].
  destruct (picker key) as [peer [|]];
    [|intros _; exists None; by destruct (getLocally g key) as [[[??]?]| |]].
  intros [?|(v0 & e0 & [= Hpeer])]; [done|].
  rewrite Hpeer. apply getFromPeer_error in Hpeer as ->.
  exists (Some e0). cbn [f_group f_value f_err].
  by destruct (getLocally g key) as [[[??]?]| |].
Qed.

(** A thunk of [load] that returns an error has left the Group alone. *)
Lemma load_thunk_error g key v0 e0 fr vi e :
  load_thunk key (mkFrame g v0 e0) = (fr, Ret (vi, Some e)) → f_group fr = g.
Proof.
  assert (∀ fr0, f_group fr0 = g →
            match getLocally (f_group fr0) key with
            | Ret (v, e, g) => (mkFrame g (f_value fr0) (f_err fr0), Ret (Some v, e))
            | Panic msg => (fr0, Panic msg)
            | Diverge => (fr0, Diverge)
            end = (fr, Ret (vi, Some e)) → f_group fr = g) as Hlocal.
  { intros fr0 Hg. rewrite Hg.
    destruct (getLocally g key) as [[[v e'] g1]| |] eqn:HL; [|done..].
    intros [= <- <- ->]. simpl. by apply getLocally_error in HL as (_ & -> & _). }
  unfold load_thunk. cbv zeta. cbn [f_group].
  destruct (peers g) as [picker|]; [|exact (Hlocal (mkFrame g v0 e0) eq_refl)].
  destruct (picker key) as [peer [|]]; [|exact (Hlocal (mkFrame g v0 e0) eq_refl)].
  destruct (getFromPeer g peer key) as [[v e']| |]; [|done..].
  destruct e' as [e'|]; [exact (Hlocal (mkFrame g v (Some e')) eq_refl)|done].
Qed.

(** A [Get] that returns leaves no call in flight, if there was none:
    one goroutine at a time finds every key idle. *)
Lemma Get_quiescent g key v e g' :
  (∀ k, singleflight.idle (loader g) k) →
  Get (Some g) key = Ret (v, e, Some g') →
  ∀ k, singleflight.idle (loader g') k.
Proof.
  intros Hq. unfold Get. case_decide; [by intros [= <- <- <-]|].
  destruct (cache_get (mainCache g) key) as [[[hit|] c]| |]; simpl; try done.
  { by intros [= <- <- <-]. }
  unfold load. rewrite (Do_idle _ _ _ _ (Hq key)). cbn [loader set_mainCache].
  destruct (load_thunk key _) as [fr [[vi e']| |]]; cbv beta iota zeta; try done.
  assert (∀ (cs : list (singleflight.call ByteView)) k, singleflight.idle
            (singleflight.mkGroup
               (Some (delete key (<[key := length (singleflight.calls (loader g))]>
                                    (default ∅ (singleflight.m (loader g)))))) cs) k)
    as Hidle.
  { intros cs k. unfold singleflight.idle. simpl.
    destruct (decide (k = key)) as [->|Hne]; [by rewrite lookup_delete_eq|].
    rewrite lookup_delete_ne, lookup_insert_ne by done. apply Hq. }
  destruct e' as [e'|]; [|destruct vi as [vi|]]; simpl; try done;
    intros [= <- <- <-]; apply Hidle.
Qed.

(** C1, as the code has it (values fetched from a peer).  When no call
    for the key is in flight, the peer picker picks a peer and that peer
    answers [bs] without error, [load] returns the view of [bs] and no
    error, and leaves the cache of the Group as it was: the bytes of a
    peer are returned, they are not inserted into the local LRU. *)
Theorem load_from_peer (g : Group) (key : string) (picker : PeerPicker)
    (peer : PeerGetter) (bs : bytes) :
  singleflight.idle (loader g) key →
  peers g = Some picker →
  picker key = (Some peer, true) →
  peer (name g) key = (bs, None) →
  ∃ g', load g key = Ret (mkByteView bs, None, g') ∧ mainCache g' = mainCache g.
Proof.
  intros Hidle Hpeers Hpick Hget. unfold load.
  rewrite (Do_idle _ _ _ _ Hidle).
  unfold load_thunk. cbv zeta. cbn [f_group]. rewrite Hpeers, Hpick.
  unfold getFromPeer. rewrite Hget. cbv beta iota zeta.
  eexists. split; [reflexivity|done].
Qed.

(** C2 (errors of the peer and of the origin).  First, when no call for
    the key is in flight and the peer client returns an error, [load] is
    [getLocally]: the error of the peer is dropped.  Second, on a miss of
    the LRU with no call in flight, when no peer is asked or the peer
    fails, an error of the origin loader comes back from [Get] as it is,
    with the empty view, and the cache is as before.  Third, whatever the
    state, a [load] that returns an error has not changed the cache. *)
Theorem load_errors (g : Group) (key : string) :
  (∀ v0 e0,
     singleflight.idle (loader g) key →
     peer_fetch g key = Some (Ret (v0, Some e0)) →
     ∃ sf, load g key = '(v, e, g1) ← getLocally g key; Ret (v, e, set_loader sf g1)) ∧
  (∀ bs e,
     key ≠ "" →
     lru.cache (lru_ (mainCache g)) !! key = None →
     singleflight.idle (loader g) key →
     peer_fetch g key = None ∨ (∃ v0 e0, peer_fetch g key = Some (Ret (v0, Some e0))) →
     getter g key = (bs, Some e) →
     ∃ g', Get (Some g) key = Ret (mkByteView [], Some e, Some g') ∧
           mainCache g' = mainCache g) ∧
  (∀ v e g', load g key = Ret (v, Some e, g') → mainCache g' = mainCache g).
Proof.
  assert (∀ g, singleflight.idle (loader g) key →
            peer_fetch g key = None ∨
            (∃ v0 e0, peer_fetch g key = Some (Ret (v0, Some e0))) →
            ∃ sf, load g key
                  = '(v, e, g1) ← getLocally g key; Ret (v, e, set_loader sf g1))
    as Hlocal.
  { clear g. intros g Hidle Hfetch. unfold load.
    rewrite (Do_idle _ _ _ _ Hidle).
    destruct (load_thunk_local g key Hfetch) as (e0 & ->).
    destruct (getLocally g key) as [[[v e] g1]| |] eqn:HL;
      [|by exists singleflight.empty..].
    cbv beta iota zeta. cbn [f_group f_value].
    eexists. destruct e as [e|]; [|reflexivity].
    apply getLocally_error in HL as (-> & -> & _). reflexivity. }
  split_and!.
  - intros v0 e0 Hidle Hfetch. apply Hlocal; eauto.
  - intros bs e Hkey Hmiss Hidle Hfetch Hget. unfold Get.
    rewrite decide_False by done.
    unfold cache_get, lru.Get. rewrite Hmiss. simpl.
    assert (set_mainCache (mkcache (cacheBytes (mainCache g)) (lru_ (mainCache g))) g = g)
      as -> by (by destruct g as [? ? [] ? ?]).
    destruct (Hlocal g Hidle Hfetch) as (sf & ->).
    rewrite (getLocally_failing g key bs e Hget). simpl. eauto.
  - intros v e g'. unfold load.
    destruct (default ∅ (singleflight.m (loader g)) !! key) as [c|] eqn:Hc.
    + destruct (Do_busy (loader g)
                  (mkFrame g (mkByteView []) None) key (load_thunk key) c Hc)
        as [Hw _].
      destruct (singleflight.Do _ _ _ _) as [[sf fr] p]. simpl in Hw. subst fr.
      destruct p as [| | | |[vi|] [e'|]| |]; try done; by intros [= <- <- <-].
    + rewrite (Do_idle _ _ _ _ Hc).
      destruct (load_thunk key _) as [fr [[vi e']| |]] eqn:Hthunk; try done.
      destruct e' as [e'|]; [|cbv beta iota zeta; by destruct vi].
      apply load_thunk_error in Hthunk. cbv beta iota zeta.
      intros [= <- <- <-]. simpl. by rewrite Hthunk.
Qed.

End group_facts.

(** *** At concrete inputs *)

Section group_examples.

Import geecache.

(** Scenario S5: the first [Get] of Tom loads 630 from the origin and
    caches it; an unknown key gives the error of the origin. *)
Example scores_read_through :
  (∃ g', Get (Some main.scores) "Tom" = Ret (view "630", None, Some g') ∧
         lru.front (lru_ (mainCache g')) = Some (lru.Entry "Tom" (view "630")) ∧
         ∃ g'', Get (Some g') "Tom" = Ret (view "630", None, Some g'') ∧
                loader g'' = loader g') ∧
  (∃ g', Get (Some main.scores) "unknown"
           = Ret (mkByteView [], Some "unknown not exist", Some g')).
Proof.
  split; [eexists; split; [by vm_compute|split; [by vm_compute|]]|].
  - eexists. split; by vm_compute.
  - eexists. by vm_compute.
Qed.

(** The Group of the demonstration with a healthy peer for every key: the
    bytes of the peer come back, and the key is still not in the cache. *)
Lemma load_from_peer_counterexample :
  ∃ g', load (set_peers (Some main.remote_peers) main.scores) "Tom"
          = Ret (view "remote", None, g') ∧
        lru.cache (lru_ (mainCache g')) !! "Tom" = None.
Proof. eexists. split; [vm_compute; reflexivity|]. by vm_compute. Qed.

Lemma load_from_peer_witness :
  ∃ g', load (set_peers (Some main.remote_peers) main.scores) "Tom"
          = Ret (view "remote", None, g') ∧
        mainCache g' = mainCache main.scores.
Proof.
  exact (load_from_peer (set_peers (Some main.remote_peers) main.scores) "Tom"
           main.remote_peers (λ _ _, (String.list_byte_of_string "remote", None))
           (String.list_byte_of_string "remote") eq_refl eq_refl eq_refl eq_refl).
Defined.

(** Scenario S6, and the same Group asked for a key the origin does not
    have. *)
Lemma load_errors_witness :
  (∃ g', Get (Some (set_peers (Some main.failing_peers) main.scores)) "Tom"
           = Ret (view "630", None, Some g')) ∧
  (∃ g', Get (Some (set_peers (Some main.failing_peers) main.scores)) "Kim"
           = Ret (mkByteView [], Some "Kim not exist", Some g') ∧
         mainCache g' = mainCache main.scores).
Proof.
  split; [eexists; vm_compute; reflexivity|].
  apply (proj1 (proj2 (load_errors (set_peers (Some main.failing_peers) main.scores) "Kim"))
           [] "Kim not exist"); try done.
  right. by exists (mkByteView []), "connection refused".
Defined.

End group_examples.

(** ** Single flight, several goroutines *)

Section pool_facts.

Context {A W : Type}.
Import singleflight.

Implicit Types (s : pool A W) (p : pc A W) (g : Group A) (ev : event A W).

Lemma elem_of_insert_inv {X : Type} (l : list X) (i : nat) (x y : X) :
  x ∈ <[i := y]> l → x = y ∨ x ∈ l.
Proof.
  intros [j Hj]%list_elem_of_lookup.
  apply list_lookup_insert_Some in Hj as [(_ & -> & _)|[_ Hj]]; [by left|right].
  by eapply list_elem_of_lookup_2.
Qed.

Lemma default_delete (key : string) (o : option (gmap string nat)) :
  default ∅ (delete key <$> o) = delete key (default ∅ o).
Proof. destruct o; simpl; [done|]. by rewrite delete_empty. Qed.

(** An orphaned entry stays orphaned, whatever happens next. *)
Lemma orphaned_fire s ev key c : orphaned s key c → orphaned (fire s ev) key c.
Proof.
  intros (Hmap & (cl & Hcl & Hwg) & Hown).
  pose proof (lookup_lt_Some _ _ _ Hcl) as Hlt.
  destruct ev as [i|k fn]; simpl.
  2:{ split_and!; [done|by exists cl|]. simpl.
      intros p k' c' [Hp|Hp%list_elem_of_singleton]%elem_of_app; [by apply Hown|].
      by subst p. }
  unfold sched. destruct (threads s !! i) as [p|] eqn:Hp; [|by split_and!; eauto].
  assert (∀ k c', owner p = Some (k, c') → k ≠ key ∧ c' ≠ c) as Hp'.
  { intros k c'. apply Hown. by eapply list_elem_of_lookup_2. }
  assert (∀ p' g w,
            default ∅ (m g) !! key = Some c →
            calls g !! c = Some cl →
            (∀ k c', owner p' = Some (k, c') → k ≠ key ∧ c' ≠ c) →
            orphaned (mkPool g w (<[i := p']> (threads s))) key c) as Hnext.
  { intros p' g w Hm Hc Ho. split_and!; [done|by exists cl|]. simpl.
    intros q k c' [->|Hq]%elem_of_insert_inv; [apply Ho|by apply Hown]. }
  destruct p as [k fn|c0|k c0 fn|k c0|v e|msg|]; simpl;
    try (by split_and!; eauto).
  - destruct (default ∅ (m (grp s)) !! k) as [c0|] eqn:Hk.
    + by apply Hnext.
    + apply Hnext; simpl.
      * rewrite lookup_insert_ne; [done|]. by intros ->; rewrite Hmap in Hk.
      * by rewrite lookup_app_l.
      * intros k' c' [= <- <-]. split; [by intros ->; rewrite Hmap in Hk|lia].
  - destruct (calls (grp s) !! c0) as [cl0|]; [|by split_and!; eauto].
    case_decide; [|by split_and!; eauto]. by apply Hnext.
  - destruct (Hp' k c0 eq_refl) as [Hk Hc0].
    destruct (fn (world s)) as [w' [[v e]|msg|]]; apply Hnext; simpl; try done;
      try (by rewrite list_lookup_alter_ne); by intros k' c' [= <- <-].
  - destruct (Hp' k c0 eq_refl) as [Hk Hc0].
    destruct (calls (grp s) !! c0) as [cl0|]; [|by split_and!; eauto].
    apply Hnext; simpl; [|done..].
    rewrite default_delete. by rewrite lookup_delete_ne.
Qed.

Lemma orphaned_exec s evs key c : orphaned s key c → orphaned (exec s evs) key c.
Proof.
  revert s. induction evs as [|ev evs IH]; intros s Ho; [done|].
  apply IH. by apply orphaned_fire.
Qed.

(** A goroutine that a panic has unwound stays where it is. *)
Lemma panicked_fire s ev i msg :
  threads s !! i = Some (Panicked msg) →
  threads (fire s ev) !! i = Some (Panicked msg).
Proof.
  intros Hi. destruct ev as [j|k fn]; simpl.
  2:{ by apply lookup_app_l_Some. }
  unfold sched. destruct (threads s !! j) as [p|] eqn:Hp; [|done].
  destruct (step (grp s) (world s) p) as [[[g w] p']|] eqn:Hstep; [|done]. simpl.
  destruct (decide (j = i)) as [->|Hne]; [|by rewrite list_lookup_insert_ne].
  rewrite Hi in Hp. injection Hp as <-. done.
Qed.

Lemma panicked_exec s evs i msg :
  threads s !! i = Some (Panicked msg) →
  threads (exec s evs) !! i = Some (Panicked msg).
Proof.
  revert s. induction evs as [|ev evs IH]; intros s Hi; [done|].
  apply IH. by apply panicked_fire.
Qed.

(** On an orphaned entry every waiter is stuck, and a new call of [Do]
    for the key joins the waiters without running its thunk. *)
Lemma orphaned_stuck s key c :
  orphaned s key c →
  (∀ j, threads s !! j = Some (Waiting c) → sched s j = s) ∧
  (∀ fn, step (grp s) (world s) (Enter key fn) = Some (grp s, world s, Waiting c)).
Proof.
  intros (Hmap & (cl & Hcl & Hwg) & _). split.
  - intros j Hj. unfold sched. rewrite Hj. simpl. rewrite Hcl.
    rewrite decide_False; [done|lia].
  - intros fn. simpl. rewrite Hmap. do 3 f_equal.
    destruct (grp s) as [[mp|] cs]; simpl in *; [done|].
    by rewrite lookup_empty in Hmap.
Qed.

(** *** The invariant of the reachable states *)

Lemma inv_init (w : W) : inv (mkPool (A := A) empty w []).
Proof. split; simpl; intros; by simplify_eq. Qed.

Lemma inv_spawn s key fn : inv s → inv (spawn s key fn).
Proof.
  intros [Hcalls Hinj Hown Hcalling Huniq]. split; simpl; try done.
  - intros i p k c [Hp|[_ Hp]]%lookup_app_Some; [by eapply Hown|].
    apply list_lookup_singleton_Some in Hp as [_ <-]. done.
  - intros i k c fn' [Hp|[_ Hp]]%lookup_app_Some; [by eapply Hcalling|].
    by apply list_lookup_singleton_Some in Hp as [_ ?].
  - intros i j pi pj k ci cj [Hi|[_ Hi]]%lookup_app_Some [Hj|[_ Hj]]%lookup_app_Some;
      try (apply list_lookup_singleton_Some in Hi as [_ <-]);
      try (apply list_lookup_singleton_Some in Hj as [_ <-]); try done.
    by eapply Huniq.
Qed.

(** A goroutine that gives up its charge, or had none, while the map
    and the handles stay as they are. *)
Lemma inv_retire s i p' g w :
  inv s →
  default ∅ (m g) = default ∅ (m (grp s)) → calls g = calls (grp s) →
  owner p' = None →
  inv (mkPool g w (<[i := p']> (threads s))).
Proof.
  intros [Hcalls Hinj Hown Hcalling Huniq] Hm Hc Hp'.
  split; simpl; rewrite ?Hm, ?Hc; try done.
  - intros j p k c [(_ & <- & _)|[_ Hj]]%list_lookup_insert_Some; [congruence|].
    by eapply Hown.
  - intros j k c fn [(_ & -> & _)|[_ Hj]]%list_lookup_insert_Some; [done|].
    by eapply Hcalling.
  - intros j1 j2 p1 p2 k c1 c2
      [(_ & <- & _)|[_ H1]]%list_lookup_insert_Some
      [(_ & <- & _)|[_ H2]]%list_lookup_insert_Some; try congruence.
    by eapply Huniq.
Qed.

Lemma inv_sched s i : inv s → inv (sched s i).
Proof.
  intros Hinv. pose proof Hinv as [Hcalls Hinj Hown Hcalling Huniq].
  unfold sched. destruct (threads s !! i) as [p|] eqn:Hp; [|done].
  destruct p as [k fn|c0|k c0 fn|k c0|v e|msg|]; simpl; try done.
  - (* entering *)
    destruct (default ∅ (m (grp s)) !! k) as [c0|] eqn:Hk; [by apply inv_retire|].
    assert (∀ j p k' c', threads s !! j = Some p → owner p = Some (k', c') → k' ≠ k)
      as Hfresh.
    { intros j p k' c' Hj Ho ->. by rewrite (Hown j p k c' Hj Ho) in Hk. }
    split; simpl.
    + intros k' c'. destruct (decide (k = k')) as [<-|Hne].
      * rewrite lookup_insert_eq. intros [= <-].
        rewrite lookup_app_r by done. rewrite Nat.sub_diag. by eexists.
      * rewrite lookup_insert_ne by done. intros [cl Hcl]%Hcalls.
        exists cl. by apply lookup_app_l_Some.
    + intros k1 k2 c'. rewrite !lookup_insert.
      repeat case_decide; subst; try done.
      * intros [= <-] [cl Hcl%lookup_lt_Some]%Hcalls. lia.
      * intros [cl Hcl%lookup_lt_Some]%Hcalls [= <-]. lia.
      * apply Hinj.
    + intros j p k' c' [(_ & <- & _)|[_ Hj]]%list_lookup_insert_Some.
      * intros [= <- <-]. by rewrite lookup_insert_eq.
      * intros Ho. rewrite lookup_insert_ne by (symmetry; by eapply Hfresh).
        by eapply Hown.
    + intros j k' c' fn' [(_ & [= <- <- <-] & _)|[_ Hj]]%list_lookup_insert_Some.
      * rewrite lookup_app_r by done. rewrite Nat.sub_diag. by eexists.
      * destruct (Hcalling j k' c' fn' Hj) as (cl & Hcl & Hwg).
        exists cl. split; [by apply lookup_app_l_Some|done].
    + intros j1 j2 p1 p2 k' c1 c2
        [(<- & <- & _)|[Hn1 H1]]%list_lookup_insert_Some
        [(<- & <- & _)|[Hn2 H2]]%list_lookup_insert_Some; try done.
      * intros [= <- <-] Ho. by destruct (Hfresh j2 p2 k c2 H2 Ho).
      * intros Ho [= <- <-]. by destruct (Hfresh j1 p1 k c1 H1 Ho).
      * by eapply Huniq.
  - (* waiting *)
    destruct (calls (grp s) !! c0) as [cl0|]; [|done].
    case_decide; [|done]. by apply inv_retire.
  - (* calling *)
    destruct (fn (world s)) as [w' [[v e]|msg|]]; [|by apply inv_retire..].
    pose proof (Hown i _ k c0 Hp eq_refl) as Hk.
    assert (∀ j p k' c', j ≠ i → threads s !! j = Some p → owner p = Some (k', c') →
              c' ≠ c0) as Hother.
    { intros j p k' c' Hne Hj Ho ->. apply Hne.
      pose proof (Hown j p k' c0 Hj Ho) as Hk'.
      rewrite (Hinj k' k c0 Hk' Hk) in Ho. by eapply (Huniq j i). }
    split; simpl.
    + intros k' c' [cl Hcl]%Hcalls. rewrite list_lookup_alter.
      case_decide; subst; rewrite Hcl; by eexists.
    + done.
    + intros j p k' c' [(_ & <- & _)|[_ Hj]]%list_lookup_insert_Some.
      * by intros [= <- <-].
      * by eapply Hown.
    + intros j k' c' fn' [(_ & [=] & _)|[Hne Hj]]%list_lookup_insert_Some.
      rewrite list_lookup_alter_ne; [by eapply Hcalling|].
      intros ->. by eapply (Hother j _ k' c').
    + intros j1 j2 p1 p2 k' c1 c2
        [(<- & <- & _)|[Hn1 H1]]%list_lookup_insert_Some
        [(<- & <- & _)|[Hn2 H2]]%list_lookup_insert_Some; try done.
      * intros [= <- <-] Ho. by eapply (Huniq i j2).
      * intros Ho [= <- <-]. by eapply (Huniq j1 i).
      * by eapply Huniq.
  - (* cleaning *)
    destruct (calls (grp s) !! c0) as [cl0|]; [|done].
    assert (∀ j p k' c', j ≠ i → threads s !! j = Some p → owner p = Some (k', c') →
              k' ≠ k) as Hother.
    { intros j p k' c' Hne Hj Ho ->. apply Hne. by eapply (Huniq j i). }
    split; simpl; rewrite ?default_delete.
    + intros k' c' Hk'. apply lookup_delete_Some in Hk' as [_ Hk']. by eapply Hcalls.
    + intros k1 k2 c' [_ H1]%lookup_delete_Some [_ H2]%lookup_delete_Some.
      by eapply Hinj.
    + intros j p k' c' [(_ & <- & _)|[Hne Hj]]%list_lookup_insert_Some Ho; [done|].
      rewrite lookup_delete_ne; [by eapply Hown|].
      symmetry. by eapply Hother.
    + intros j k' c' fn' [(_ & [=] & _)|[Hne Hj]]%list_lookup_insert_Some.
      by eapply Hcalling.
    + intros j1 j2 p1 p2 k' c1 c2
        [(_ & <- & _)|[Hn1 H1]]%list_lookup_insert_Some
        [(_ & <- & _)|[Hn2 H2]]%list_lookup_insert_Some; try done.
      by eapply Huniq.
Qed.

Lemma inv_exec s evs : inv s → inv (exec s evs).
Proof.
  revert s. induction evs as [|ev evs IH]; intros s Hinv; [done|].
  apply IH. destruct ev; [by apply inv_sched|by apply inv_spawn].
Qed.

(** C3, as the code has it (a thunk that panics).  Take any execution
    from the empty group in which a goroutine is about to run the thunk of
    its [Do(key, fn)], and let the thunk panic.  The panic unwinds that
    goroutine alone, up to whoever recovers it; [Do] has no deferred
    clean-up, so in every continuation, whatever the goroutines do and
    whatever calls arrive, the entry of [key] stays in the map, the
    goroutines waiting on its handle stay blocked, and a later
    [Do(key, fn2)] finds the entry and goes waiting on it without running
    [fn2]. *)
Theorem do_panic_orphans (w0 : W) (evs0 : list (event A W)) (i : nat)
    (key : string) (c : nat) (fn : thunk A W) (w' : W) (msg : string) :
  let s := exec (mkPool empty w0 []) evs0 in
  threads s !! i = Some (Calling key c fn) →
  fn (world s) = (w', Panic msg) →
  ∀ evs,
    let s' := exec (sched s i) evs in
    threads s' !! i = Some (Panicked msg) ∧
    default ∅ (m (grp s')) !! key = Some c ∧
    (∀ j, threads s' !! j = Some (Waiting c) → sched s' j = s') ∧
    (∀ fn2, step (grp s') (world s') (Enter key fn2)
            = Some (grp s', world s', Waiting c)).
Proof.
  intros s Hi Hfn evs s'.
  assert (inv s) as [Hcalls Hinj Hown Hcalling Huniq]
    by apply inv_exec, inv_init.
  assert (sched s i = mkPool (grp s) w' (<[i := Panicked msg]> (threads s))) as Hstep.
  { unfold sched. rewrite Hi. simpl. by rewrite Hfn. }
  assert (orphaned (sched s i) key c) as Horph.
  { rewrite Hstep. split_and!; simpl.
    - by eapply (Hown i).
    - by eapply Hcalling.
    - intros p k c' [j Hj]%list_elem_of_lookup Ho.
      apply list_lookup_insert_Some in Hj as [(_ & <- & _)|[Hne Hj]]; [done|].
      assert (k ≠ key) as Hk.
      { intros ->. apply Hne. by eapply (Huniq i j). }
      split; [done|]. intros ->. apply Hk.
      eapply Hinj; [by eapply (Hown j)|by eapply (Hown i)]. }
  assert (threads (sched s i) !! i = Some (Panicked msg)) as Hpan.
  { rewrite Hstep. simpl. apply list_lookup_insert_eq. by eapply lookup_lt_Some. }
  pose proof (orphaned_exec _ evs _ _ Horph) as Horph'.
  destruct (orphaned_stuck _ _ _ Horph') as [Hwait Henter].
  split_and!; [by apply panicked_exec|apply Horph'|done..].
Qed.

End pool_facts.

(** *** At concrete inputs *)

Section flight_examples.

Import singleflight.

(** A call alone: the thunk runs once, its result comes back and the
    entry is gone from the map. *)
Example do_alone :
  Do empty 0%nat "x" bar
  = (mkGroup (Some ∅) [mkCall 0 (Some "bar") None], 1%nat, Returned (Some "bar") None).
Proof. by vm_compute. Qed.

(** Scenario S4 with two goroutines: the second arrives while the first
    is in flight; the thunk runs once and both get its result. *)
Example do_coalesces :
  let s := exec (mkPool empty 0%nat [])
             [Call "x" bar; Run 0%nat; Call "x" bar; Run 1%nat; Run 0%nat; Run 0%nat;
              Run 1%nat] in
  threads s = [Returned (Some "bar") None; Returned (Some "bar") None] ∧
  world s = 1%nat.
Proof. by vm_compute. Qed.

(** A first [Do] whose thunk panics, a second that was waiting for it and
    a third that comes afterwards: the two are parked on the handle of the
    first for good, the entry is still in the map and [bar] never ran. *)
Lemma do_panic_counterexample :
  let s := exec (mkPool empty 0%nat [])
             [Call "k" boom; Run 0%nat; Call "k" bar; Run 1%nat; Run 0%nat; Run 1%nat;
              Call "k" bar; Run 2%nat; Run 2%nat] in
  threads s = [Panicked "boom"; Waiting 0; Waiting 0] ∧
  m (grp s) = Some {["k" := 0%nat]} ∧
  world s = 0%nat.
Proof. by vm_compute. Qed.

Lemma do_panic_orphans_witness :
  let s' := exec (mkPool empty 0%nat [])
              [Call "k" boom; Run 0%nat; Run 0%nat; Call "k" bar; Run 1%nat; Run 1%nat] in
  threads s' !! 0%nat = Some (Panicked "boom") ∧
  default ∅ (m (grp s')) !! "k" = Some 0%nat ∧
  threads s' !! 1%nat = Some (Waiting 0) ∧
  world s' = 0%nat.
Proof.
  destruct (do_panic_orphans 0%nat [Call "k" boom; Run 0%nat] 0 "k" 0 boom 0%nat "boom"
              eq_refl eq_refl [Call "k" bar; Run 1%nat; Run 1%nat]) as (H1 & H2 & _).
  split; [exact H1|]. split; [exact H2|]. by vm_compute.
Defined.

End flight_examples.

(** * Further properties *)

(** ** The LRU cache: contents, order and budget *)

Section lru_contents.

Context {V : Type} `{!Value V} {W : Type}.
Import list_ lru.

Implicit Types (c : Cache V W) (kv : entry V) (e : Element) (w : W).

(** With no budget the loop of [Add] does not run. *)
Lemma evict_unbounded n c w : maxBytes c = 0 → evict n c w = Ret (c, w).
Proof.
  intros HB. assert (over_budget c = false) as Hob
    by (unfold over_budget; by rewrite HB).
  destruct n; simpl; by rewrite Hob.
Qed.

(** A [Get] of the key at the front changes nothing. *)
Lemma Get_at_front c k v :
  wf c → front c = Some (Entry k v) → Get c k = Ret (Some v, c).
Proof.
  intros Hwf Hfront. unfold front, entries in Hfront.
  destruct (ll c) as [|e l] eqn:Hl; [done|]. rewrite omap_cons_eq in Hfront.
  destruct (wf_ll c Hwf e) as (kv & Hkv & Hc); [rewrite Hl; by left|].
  rewrite Hkv in Hfront. simpl in Hfront. injection Hfront as ->. simpl in Hc.
  unfold Get, deref. rewrite Hc. simpl. rewrite Hkv. simpl.
  rewrite MoveToFront_head by (rewrite Hl; by left).
  pose proof (wf_nodup c Hwf) as Hnd. rewrite Hl in Hnd.
  apply NoDup_cons in Hnd as [He _].
  rewrite Hl, filter_cons, decide_False by (by intros ?).
  rewrite filter_ne_notin by done. rewrite <- Hl. by destruct c.
Qed.

Section lru_negative.

Hypothesis Len_nonneg : ∀ v : V, 0 ≤ Len v.

(** Below a negative budget even the empty cache is over budget. *)
Lemma Add_negative c k v w :
  wf c → ll c = [] → maxBytes c < 0 →
  Z.of_nat (String.length k) + Len v < 2 ^ 63 →
  Add c k v w = Diverge.
Proof.
  intros Hwf Hnil HB Hsz. unfold Add.
  destruct (put_entries c k v Hwf) as (c1 & -> & Hwf1 & HB1 & _ & Hent).
  rewrite bind_Ret.
  assert (entries c = []) as Hnone by (unfold entries; by rewrite Hnil).
  rewrite Hnone, filter_nil in Hent.
  pose proof (entries_length c1 Hwf1) as Hlen. rewrite Hent in Hlen. simpl in Hlen.
  rewrite <- Hlen.
  pose proof (Len_nonneg v) as Hv.
  assert (over_budget c1 = true) as Hob.
  { unfold over_budget. rewrite (wf_bytes c1 Hwf1), total_bytes_wrap.
    unfold total_size. rewrite Hent. unfold entry_size. simpl.
    rewrite wrap_small by (pow64; lia).
    apply andb_true_iff. split; [apply negb_true_iff|]; lia. }
  destruct (RemoveOldest_cases c1 w Hwf1)
    as [[Hnil1 _]|(l & e & kv & c2 & Hl & _ & _ & Hc2 & HR & Hwf2 & Hent2)].
  { rewrite Hnil1 in Hlen. done. }
  cbn [evict]. rewrite Hob, HR, bind_Ret.
  assert (ll c2 = []) as Hnil2.
  { rewrite Hent in Hent2. pose proof (entries_length c2 Hwf2) as Hlen2.
    destruct (entries c2) as [|? [|? ?]]; try done.
    by apply nil_length_inv. }
  apply (evict_empty_diverge 1 c2); [done|done|].
  unfold over_budget. rewrite (wf_nil_nbytes c2 Hwf2 Hnil2).
  replace (maxBytes c2) with (maxBytes c1) by (by subst c2).
  apply andb_true_iff. split; [apply negb_true_iff|]; lia.
Qed.

End lru_negative.

(** [Add] brings in the entry it is given and no other. *)
Lemma Add_entries_sub c k v w c' w' :
  wf c → Add c k v w = Ret (c', w') →
  ∀ kv, kv ∈ entries c' → kv = Entry k v ∨ kv ∈ entries c.
Proof.
  intros Hwf. unfold Add.
  destruct (put_entries c k v Hwf) as (c1 & -> & Hwf1 & _ & _ & Hent).
  rewrite bind_Ret. intros (m & Hm & _)%evict_entries; [|done].
  intros kv. rewrite Hm, Hent. intros (i & Hin%list_elem_of_lookup_2 & _)%elem_of_take.
  apply elem_of_cons in Hin as [->|Hin]; [by left|right].
  by apply list_elem_of_filter in Hin as [_ ?].
Qed.

End lru_contents.

Section lru_more_properties.

Context {V : Type} `{!Value V} {W : Type}.
Import list_ lru.

(** X1 (list and map mirror each other).  In every cache reached
    from [New(B, f)] by calls of [Add] and [Get], the map has as many keys
    as the list has elements, which is what [Len] returns; every element of
    the list holds an entry; no key is held twice; and the keys of the map
    are the keys of the entries of the list. *)
Theorem lru_list_map_mirror (B : Z) (f : option (string → V → W → W))
    (os : list (op V)) (w0 : W) (c : Cache V W) (w : W) :
  run os (New B f) w0 = Ret (c, w) →
  Len_ c = Z.of_nat (size (cache c)) ∧
  length (entries c) = length (ll c) ∧
  NoDup (key <$> entries c) ∧
  ∀ k, is_Some (cache c !! k) ↔ k ∈ key <$> entries c.
Proof.
  intros Hrun. destruct (run_inv os _ _ _ _ (wf_New B f) Hrun) as (Hwf & _).
  destruct (wf_keys c Hwf) as [Hnd Hdom]. split_and!; try done.
  - unfold Len_. by rewrite wf_size.
  - by apply entries_length.
Qed.

(** X2 (what [Get] returns and what it changes).  In every cache
    reached from [New(B, f)], [Get(k)] returns; it answers [v, true]
    exactly when the entry [(k, v)] is present, and [nil, false] exactly
    when no entry has the key [k]; when it finds the entry it moves it to
    the front and leaves the other entries in their order; it never
    changes the set of keys nor the byte counter, and a miss changes
    nothing at all. *)
Theorem lru_get_lookup (B : Z) (f : option (string → V → W → W))
    (os : list (op V)) (w0 : W) (c : Cache V W) (w : W) (k : string) :
  run os (New B f) w0 = Ret (c, w) →
  ∃ o c', Get c k = Ret (o, c') ∧
    (∀ v, o = Some v ↔ Entry k v ∈ entries c) ∧
    (o = None ↔ k ∉ key <$> entries c) ∧
    entries c' = match o with
                 | Some v => Entry k v :: filter (λ kv, key kv ≠ k) (entries c)
                 | None => entries c
                 end ∧
    nbytes c' = nbytes c ∧ cache c' = cache c ∧ (o = None → c' = c).
Proof.
  intros Hrun. destruct (run_inv os _ _ _ _ (wf_New B f) Hrun) as (Hwf & _).
  destruct (Get_entries c k Hwf) as (o & c' & HG & _ & Hiff & Hent & Hn & Hc & Hnone).
  exists o, c'. split_and!; try done. split.
  - intros ->. intros (kv & Hk & Hin)%list_elem_of_fmap.
    destruct kv as [k' v]. simpl in Hk. subst k'.
    by apply Hiff in Hin.
  - intros Hnot. destruct o as [v|]; [|done]. destruct Hnot.
    apply list_elem_of_fmap. exists (Entry k v). split; [done|]. by apply Hiff.
Qed.

(** X3 (least recently used goes first).  In every cache reached
    from [New(B, f)], an [Add(k, v)] that returns leaves the most recently
    used entries: the entries on exit are a prefix of the list made of
    [(k, v)] followed by the entries of the other keys in their order, and
    the callback has been called once on each entry left out, the least
    recently used first. *)
Theorem lru_add_order (B : Z) (f : option (string → V → W → W))
    (os : list (op V)) (w0 : W) (c : Cache V W) (w : W)
    (k : string) (v : V) (c' : Cache V W) (w' : W) :
  run os (New B f) w0 = Ret (c, w) →
  Add c k v w = Ret (c', w') →
  ∃ m, let now := Entry k v :: filter (λ kv, key kv ≠ k) (entries c) in
    entries c' = take m now ∧
    w' = notify f (reverse (drop m now)) w.
Proof.
  intros Hrun. destruct (run_inv os _ _ _ _ (wf_New B f) Hrun) as (Hwf & _ & HE & _).
  unfold Add. destruct (put_entries c k v Hwf) as (c1 & -> & Hwf1 & _ & HE1 & Hent).
  rewrite bind_Ret. intros (m & Hm & Hw)%evict_entries; [|done].
  exists m. simpl. rewrite <- Hent. split; [done|].
  rewrite Hw. f_equal. by rewrite HE1, HE.
Qed.

(** X4 (no budget, no eviction).  With [maxBytes = 0] every [Add]
    returns, calls no callback, and leaves [(k, v)] followed by all the
    entries of the other keys in their order. *)
Theorem lru_unbounded (f : option (string → V → W → W))
    (os : list (op V)) (w0 : W) (c : Cache V W) (w : W) (k : string) (v : V) :
  run os (New 0 f) w0 = Ret (c, w) →
  ∃ c', Add c k v w = Ret (c', w) ∧
    entries c' = Entry k v :: filter (λ kv, key kv ≠ k) (entries c).
Proof.
  intros Hrun. destruct (run_inv os _ _ _ _ (wf_New 0 f) Hrun) as (Hwf & HB & _).
  unfold Add. destruct (put_entries c k v Hwf) as (c1 & -> & Hwf1 & HB1 & _ & Hent).
  rewrite bind_Ret. exists c1. split; [|done].
  apply evict_unbounded. by rewrite HB1, HB.
Qed.

(** X5 (a value added is the value read).  In every cache reached
    from [New(B, f)], after an [Add(k, v)] whose entry fits the budget by
    itself, or with no budget, [Get(k)] returns [v, true] and changes
    nothing. *)
Theorem lru_add_then_get (B : Z) (f : option (string → V → W → W))
    (os : list (op V)) (w0 : W) (c : Cache V W) (w : W)
    (k : string) (v : V) (c' : Cache V W) (w' : W) :
  run os (New B f) w0 = Ret (c, w) →
  Add c k v w = Ret (c', w') →
  B = 0 ∨ entry_bytes (Entry k v) ≤ B →
  Get c' k = Ret (Some v, c').
Proof.
  intros Hrun HA Hfit.
  destruct (run_inv os _ _ _ _ (wf_New B f) Hrun) as (Hwf & HB & _).
  destruct (Add_wf c k v w c' w' Hwf HA) as (Hwf' & _).
  apply Get_at_front; [done|].
  apply (Add_front c k v w c' w' Hwf HA). by rewrite HB.
Qed.

(** X6 (a negative budget hangs [Add]).  With [maxBytes < 0], values of
    non-negative length and an entry whose size is an [int64], the first
    [Add] never returns: its loop keeps calling [RemoveOldest] on the
    empty list. *)
Theorem lru_negative_budget (B : Z) (f : option (string → V → W → W))
    (k : string) (v : V) (w : W) :
  (∀ v : V, 0 ≤ Len v) →
  B < 0 →
  Z.of_nat (String.length k) + Len v < 2 ^ 63 →
  Add (New B f) k v w = Diverge.
Proof.
  intros Hlen HB Hsz. by apply Add_negative; [|apply wf_New| | |].
Qed.

End lru_more_properties.

Section lru_more_examples.

Import lru.
Import geecache (ByteView, view).

Lemma lru_list_map_mirror_witness :
  ∃ c : Cache ByteView unit,
    run [OpAdd "k1" (view "v1"); OpAdd "k2" (view "v2"); OpGet "k1"]
      (New 8 None) () = Ret (c, ()) ∧
    Len_ c = Z.of_nat (size (cache c)) ∧ NoDup (key <$> entries c).
Proof.
  destruct (run [OpAdd "k1" (view "v1"); OpAdd "k2" (view "v2"); OpGet "k1"]
              (New 8 None) ())
    as [[c []]| |] eqn:Hrun; [|vm_compute in Hrun; discriminate..].
  exists c. split; [done|].
  destruct (lru_list_map_mirror 8 None _ () c () Hrun) as (H1 & _ & H3 & _).
  by split.
Defined.

Lemma lru_get_lookup_witness :
  ∃ (c : Cache ByteView unit) o c',
    run [OpAdd "k1" (view "v1"); OpAdd "k2" (view "v2")] (New 8 None) ()
      = Ret (c, ()) ∧
    Get c "k3" = Ret (o, c') ∧ (o = None → c' = c) ∧ nbytes c' = nbytes c.
Proof.
  destruct (run [OpAdd "k1" (view "v1"); OpAdd "k2" (view "v2")] (New 8 None) ())
    as [[c []]| |] eqn:Hrun; [|vm_compute in Hrun; discriminate..].
  destruct (lru_get_lookup 8 None _ () c () "k3" Hrun)
    as (o & c' & HG & _ & _ & _ & Hn & _ & Hnone).
  by exists c, o, c'.
Defined.

(** Scenario of a third insertion into a cache of budget eight: the
    oldest entry goes. *)
Lemma lru_add_order_witness :
  ∃ (c c' : Cache ByteView unit) m,
    run [OpAdd "k1" (view "v1"); OpAdd "k2" (view "v2")] (New 8 None) ()
      = Ret (c, ()) ∧
    Add c "k3" (view "v3") () = Ret (c', ()) ∧
    entries c'
    = take m (Entry "k3" (view "v3") :: filter (λ kv, key kv ≠ "k3") (entries c)).
Proof.
  destruct (run [OpAdd "k1" (view "v1"); OpAdd "k2" (view "v2")] (New 8 None) ())
    as [[c []]| |] eqn:Hrun; [|vm_compute in Hrun; discriminate..].
  pose proof Hrun as Hc. vm_compute in Hc. injection Hc as Hc.
  destruct (Add c "k3" (view "v3") ()) as [[c' []]| |] eqn:HA;
    [|rewrite <- Hc in HA; vm_compute in HA; discriminate..].
  destruct (lru_add_order 8 None _ () c () "k3" (view "v3") c' () Hrun HA)
    as (m & Hm & _).
  by exists c, c', m.
Defined.

Lemma lru_unbounded_witness :
  ∃ c c' : Cache ByteView unit,
    run [OpAdd "k1" (view "v1"); OpAdd "k2" (view "v2")] (New 0 None) ()
      = Ret (c, ()) ∧
    Add c "k1" (view "v3") () = Ret (c', ()) ∧
    entries c'
    = Entry "k1" (view "v3") :: filter (λ kv, key kv ≠ "k1") (entries c).
Proof.
  destruct (run [OpAdd "k1" (view "v1"); OpAdd "k2" (view "v2")] (New 0 None) ())
    as [[c []]| |] eqn:Hrun; [|vm_compute in Hrun; discriminate..].
  destruct (lru_unbounded None _ () c () "k1" (view "v3") Hrun) as (c' & HA & Hent).
  by exists c, c'.
Defined.

Lemma lru_add_then_get_witness :
  ∃ c c' : Cache ByteView unit,
    run [OpAdd "k1" (view "v1"); OpAdd "k2" (view "v2")] (New 8 None) ()
      = Ret (c, ()) ∧
    Add c "k3" (view "v3") () = Ret (c', ()) ∧
    Get c' "k3" = Ret (Some (view "v3"), c').
Proof.
  destruct (run [OpAdd "k1" (view "v1"); OpAdd "k2" (view "v2")] (New 8 None) ())
    as [[c []]| |] eqn:Hrun; [|vm_compute in Hrun; discriminate..].
  pose proof Hrun as Hc. vm_compute in Hc. injection Hc as Hc.
  destruct (Add c "k3" (view "v3") ()) as [[c' []]| |] eqn:HA;
    [|rewrite <- Hc in HA; vm_compute in HA; discriminate..].
  exists c, c'. split; [done|]. split; [done|].
  apply (lru_add_then_get 8 None _ () c () "k3" (view "v3") c' () Hrun HA).
  right. by vm_compute.
Defined.

Lemma lru_negative_budget_witness :
  Add (New (-1) None : Cache ByteView unit) "k" (view "v") () = Diverge.
Proof.
  apply lru_negative_budget.
  - intros x. unfold Len, geecache.ByteView_Value. lia.
  - lia.
  - by vm_compute.
Defined.

End lru_more_examples.

(** ** The hash ring: who owns a key, before and after a change *)

Section ring_ownership.

Import consistenthash.

Lemma successor_unique (K : list Z) (h x x' : Z) :
  successor K h x → successor K h x' → x = x'.
Proof.
  intros [Hx [[Hh Hmin]|[Hall Hmin]]] [Hx' [[Hh' Hmin']|[Hall' Hmin']]].
  - pose proof (Hmin x' Hx' Hh'). pose proof (Hmin' x Hx Hh). lia.
  - pose proof (Hall' x Hx). lia.
  - pose proof (Hall x' Hx'). lia.
  - pose proof (Hmin x' Hx'). pose proof (Hmin' x Hx). lia.
Qed.

(** The virtual node in charge on a part of the ring that contains it. *)
Lemma successor_sub (K K' : list Z) (h x : Z) :
  successor K h x → (∀ y, y ∈ K' → y ∈ K) → x ∈ K' → successor K' h x.
Proof.
  intros [Hx [[Hh Hmin]|[Hall Hmin]]] Hsub Hx'; (split; [done|]).
  - left. split; [done|]. intros y Hy. apply Hmin. by apply Hsub.
  - right. split; intros y Hy; [apply Hall|apply Hmin]; by apply Hsub.
Qed.

(** [Get] answers with the peer bound to the virtual node in charge. *)
Lemma Get_successor (m : Map) (key : string) :
  Sorted Z.le (keys m) → keys m ≠ [] →
  ∃ x, successor (keys m) (hash m key) x ∧
       Get m key = default "" (hashMap m !! x).
Proof.
  intros Hs Hne. unfold Get.
  assert (length (keys m) ≠ 0)%nat as Hlen by (by destruct (keys m)).
  rewrite decide_False by done.
  set (h := hash m key).
  destruct (Search_spec (length (keys m)) (λ i, h <=? keys m !!! i)
              (ge_mono (keys m) h Hs)) as (Hle & Hbelow & Hat).
  set (r := sort.Search (length (keys m)) (λ i, h <=? keys m !!! i)) in *.
  assert (∀ j y, keys m !! j = Some y → (j < r)%nat → y < h) as Hlow.
  { intros j y Hj Hjr. specialize (Hbelow j Hjr). simpl in Hbelow.
    rewrite (list_lookup_total_correct _ _ _ Hj) in Hbelow.
    by apply Z.leb_gt in Hbelow. }
  destruct (decide (r = length (keys m))) as [Hr|Hr].
  - rewrite Hr, Nat.Div0.mod_same.
    destruct (lookup_lt_is_Some_2 (keys m) 0) as [x Hx]; [lia|].
    rewrite (list_lookup_total_correct _ _ _ Hx).
    exists x. split; [|done]. split; [by eapply list_elem_of_lookup_2|].
    right. split; intros y [j Hj]%list_elem_of_lookup.
    + apply (Hlow j y Hj). apply lookup_lt_Some in Hj. lia.
    + apply (Sorted_lookup_le (keys m) 0 j x y Hs); [lia|done..].
  - rewrite Nat.mod_small by lia.
    destruct (lookup_lt_is_Some_2 (keys m) r) as [x Hx]; [lia|].
    rewrite (list_lookup_total_correct _ _ _ Hx).
    specialize (Hat ltac:(lia)). simpl in Hat.
    rewrite (list_lookup_total_correct _ _ _ Hx) in Hat. apply Z.leb_le in Hat.
    exists x. split; [|done]. split; [by eapply list_elem_of_lookup_2|].
    left. split; [done|]. intros y [j Hj]%list_elem_of_lookup Hy.
    destruct (Nat.le_gt_cases r j) as [Hrj|Hgt].
    + apply (Sorted_lookup_le (keys m) r j x y Hs); [lia|done..].
    + pose proof (Hlow j y Hj Hgt). lia.
Qed.

(** What the table binds after the insertions of [Add]. *)
Lemma lookup_foldl_bindings (l : list (Z * string)) (M : gmap Z string) (h : Z) :
  (h ∈ l.*1 ∧ ∃ p, foldl (λ M kv, <[kv.1 := kv.2]> M) M l !! h = Some p ∧ (h, p) ∈ l) ∨
  ((h ∉ l.*1) ∧ foldl (λ M kv, <[kv.1 := kv.2]> M) M l !! h = M !! h).
Proof.
  induction l as [|[k q] l IH] using rev_ind.
  - right. split; [|done]. by intros ?%elem_of_nil.
  - rewrite foldl_app, fmap_app. simpl.
    destruct (decide (h = k)) as [->|Hne].
    + left. split; [apply elem_of_app; right; by left|].
      exists q. rewrite lookup_insert_eq. split; [done|].
      apply elem_of_app. right. by left.
    + rewrite lookup_insert_ne by done.
      destruct IH as [[Hin (p & Hp & Hpin)]|[Hnin Hp]].
      * left. split; [apply elem_of_app; by left|].
        exists p. split; [done|]. apply elem_of_app. by left.
      * right. split; [|done]. intros [?|?%list_elem_of_singleton]%elem_of_app; done.
Qed.

Lemma elem_of_bindings (m : Map) (ps : list string) (h : Z) (p : string) :
  (h, p) ∈ bindings m ps → p ∈ ps ∧ h ∈ vnodes m p.
Proof.
  unfold bindings. intros (q & Hin & Hq)%list_elem_of_bind.
  apply list_elem_of_fmap in Hin as (i & [= -> ->] & Hi). split; [done|].
  unfold vnodes. apply list_elem_of_fmap. by exists i.
Qed.

Lemma length_bindings (m : Map) (ps : list string) :
  length (bindings m ps) = (length ps * Z.to_nat (replicas m))%nat.
Proof.
  unfold bindings. induction ps as [|p ps IH]; [done|].
  rewrite bind_cons, length_app, IH, length_fmap. unfold replica_range.
  rewrite length_seq. simpl. lia.
Qed.

Lemma elem_of_Ints (l : list Z) (x : Z) : x ∈ sort.Ints l ↔ x ∈ l.
Proof. unfold sort.Ints. by rewrite merge_sort_Permutation. Qed.

(** [Add] moves a key to one of the peers added, or not at all. *)
Lemma Add_owner (m : Map) (ps : list string) (key : string) :
  Sorted Z.le (keys m) →
  Get (Add m ps) key = Get m key ∨
  (keys (Add m ps) ≠ [] ∧ Get (Add m ps) key ∈ ps).
Proof.
  intros Hs.
  destruct (decide (keys (Add m ps) = [])) as [Hnil|Hne].
  { left. assert (keys m = []) as Hm.
    { rewrite Add_bindings in Hnil. simpl in Hnil.
      destruct (keys m) as [|x K]; [done|].
      assert (x ∈ sort.Ints ((x :: K) ++ (bindings m ps).*1)) as Hx
        by (apply elem_of_Ints; by left).
      rewrite Hnil in Hx. by apply elem_of_nil in Hx. }
    unfold Get. by rewrite Hnil, Hm. }
  destruct (Get_successor (Add m ps) key (Add_sorted m ps) Hne) as (x & Hsucc & HG).
  rewrite HG. rewrite Add_bindings in Hsucc |- *. simpl in Hsucc |- *.
  destruct (lookup_foldl_bindings (bindings m ps) (hashMap m) x)
    as [[Hin (p & -> & Hp)]|[Hnin ->]].
  - right. split; [by rewrite Add_bindings in Hne|].
    by apply elem_of_bindings in Hp as [? _].
  - left. assert (x ∈ keys m) as Hx.
    { destruct Hsucc as [Hx _]. rewrite elem_of_Ints in Hx.
      by apply elem_of_app in Hx as [?|?]. }
    assert (keys m ≠ []) as Hne' by (intros Hnil; rewrite Hnil in Hx;
                                      by apply elem_of_nil in Hx).
    destruct (Get_successor m key Hs Hne') as (x' & Hsucc' & ->).
    f_equal. f_equal. apply (successor_unique (keys m) (hash m key)); [|done].
    apply (successor_sub _ _ _ _ Hsucc); [|done].
    intros y Hy. apply elem_of_Ints, elem_of_app. by left.
Qed.

Lemma foldl_Panic (p : string) (msg : string) (js : list nat) :
  foldl (λ r i, m ← r; remove_vnode p m i) (Panic msg) js = Panic msg.
Proof. induction js as [|i js IH]; [done|]. exact IH. Qed.

(** What the loop of [Remove] does to any ring: one hash leaves the
    sequence at every turn, or the slice expression panics. *)
Lemma remove_loop_effect (p : string) (js : list nat) (m : Map) :
  match foldl (λ r i, m ← r; remove_vnode p m i) (Ret m) js with
  | Ret m' =>
      length (keys m) = (length (keys m') + length js)%nat ∧
      keys m' `sublist_of` keys m ∧
      hashMap m' = foldl (λ M i, delete (vhash m i p) M) (hashMap m) js ∧
      hash m' = hash m ∧ replicas m' = replicas m
  | Panic msg => msg = slice_bounds ∧ js ≠ []
  | Diverge => False
  end.
Proof.
  revert m. induction js as [|i js IH]; intros m; cbn [foldl].
  - rewrite Nat.add_0_r. by split_and!.
  - rewrite bind_Ret. unfold remove_vnode at 2.
    set (idx := sort.SearchInts (keys m) (vhash m i p)).
    destruct (idx <? length (keys m))%nat eqn:Hidx.
    + apply Nat.ltb_lt in Hidx.
      set (m1 := mkMap _ _ _ _). specialize (IH m1).
      destruct (foldl _ (Ret m1) js) as [m'| |]; [|by destruct IH|done].
      destruct IH as (Hlen & Hsub & HM & Hh & Hr). simpl in *.
      assert (take idx (keys m) ++ drop (idx + 1) (keys m) = delete idx (keys m))
        as Hdel by (by rewrite Nat.add_1_r, <- delete_take_drop).
      rewrite Hdel in *. split_and!; try done.
      * rewrite length_delete in Hlen by (by apply lookup_lt_is_Some_2).
        simpl. lia.
      * etrans; [done|]. apply sublist_delete.
    + by rewrite foldl_Panic.
Qed.

(** X9 (removing a peer moves its keys only).  On a ring with a sorted
    sequence, take a peer [p] whose virtual nodes have distinct hashes
    that are all in the sequence and bound to [p] in the table.  When
    [Remove(p)] returns, a key that [Get] did not give to [p] before is
    given to the same peer after. *)
Theorem ring_remove_keeps_others (m m' : Map) (p key : string) :
  Sorted Z.le (keys m) →
  NoDup (vnodes m p) →
  (∀ h, h ∈ vnodes m p → h ∈ keys m ∧ hashMap m !! h = Some p) →
  Remove m p = Ret m' →
  Get m key ≠ p → Get m' key = Get m key.
Proof.
  intros Hs Hnd Hon HR Hkey.
  destruct (remove_loop p (replica_range m) m Hs Hnd) as (K & HR' & HsK & Hperm).
  { intros i Hi. apply Hon. unfold vnodes. apply list_elem_of_fmap. by exists i. }
  unfold Remove in HR. rewrite HR' in HR. injection HR as <-.
  destruct (decide (keys m = [])) as [Hnil|Hne].
  { rewrite Hnil in Hperm. symmetry in Hperm. apply Permutation_nil_r in Hperm.
    apply app_eq_nil in Hperm as [_ ->]. unfold Get. simpl. by rewrite Hnil. }
  destruct (Get_successor m key Hs Hne) as (x & Hsucc & HG).
  assert (x ∉ vnodes m p) as Hx.
  { intros Hin. destruct (Hon x Hin) as [_ Hb]. rewrite HG, Hb in Hkey. done. }
  assert (x ∈ K) as HxK.
  { destruct Hsucc as [Hin _]. rewrite Hperm in Hin.
    by apply elem_of_app in Hin as [?|?]. }
  set (m1 := mkMap _ _ _ _).
  destruct (Get_successor m1 key) as (x' & Hsucc' & HG'); [done| |].
  { simpl. intros Hnil. rewrite Hnil in HxK. by apply elem_of_nil in HxK. }
  rewrite HG', HG. simpl in *. f_equal.
  assert (x' = x) as ->.
  { apply (successor_unique K (hash m key)); [done|].
    apply (successor_sub _ _ _ _ Hsucc); [|done].
    intros y Hy. rewrite Hperm. apply elem_of_app. by right. }
  rewrite lookup_foldl_delete. by rewrite decide_False.
Qed.

(** X7 (a ring built by [Add]).  On the ring [Add(ps...)] makes from
    [New(r, fn)] the sequence has [r] hashes for each peer of [ps], every
    hash of the sequence is bound in the table to a peer of [ps], and
    [Get] answers the empty string when the sequence is empty and a peer
    of [ps] otherwise. *)
Theorem ring_built_by_add (H : Hash) (r : Z) (fn : option Hash) (ps : list string) :
  length (keys (Add (New H r fn) ps)) = (length ps * Z.to_nat r)%nat ∧
  (∀ h, h ∈ keys (Add (New H r fn) ps) →
     ∃ p, p ∈ ps ∧ hashMap (Add (New H r fn) ps) !! h = Some p) ∧
  (∀ key, if decide (keys (Add (New H r fn) ps) = [])
          then Get (Add (New H r fn) ps) key = ""
          else Get (Add (New H r fn) ps) key ∈ ps).
Proof.
  split_and!.
  - rewrite Add_bindings. simpl. unfold sort.Ints.
    rewrite merge_sort_Permutation, length_fmap. apply length_bindings.
  - intros h. rewrite Add_bindings. simpl. rewrite elem_of_Ints.
    intros Hin.
    destruct (lookup_foldl_bindings (bindings (New H r fn) ps) ∅ h)
      as [[_ (p & Hp & Hb)]|[Hnin _]]; [|done].
    exists p. split; [|done]. by apply elem_of_bindings in Hb as [? _].
  - intros key. destruct (decide _) as [Hnil|Hne].
    + unfold Get. by rewrite Hnil.
    + destruct (Add_owner (New H r fn) ps key (New_sorted H r fn))
        as [HG|[_ HG]]; [|done].
      destruct (Get_successor _ key (Add_sorted (New H r fn) ps) Hne)
        as (x & [Hx _] & ->).
      rewrite Add_bindings in Hx |- *. simpl in Hx |- *.
      rewrite elem_of_Ints in Hx.
      destruct (lookup_foldl_bindings (bindings (New H r fn) ps) ∅ x)
        as [[_ (p & -> & Hb)]|[Hnin _]]; [|done].
      by apply elem_of_bindings in Hb as [? _].
Qed.

(** X8 (adding peers moves keys to them only).  On a ring with a sorted
    sequence, after [Add(ps...)] every key is given to the peer that had
    it before or to one of the peers of [ps]. *)
Theorem ring_add_moves_to_new (m : Map) (ps : list string) (key : string) :
  Sorted Z.le (keys m) →
  Get (Add m ps) key = Get m key ∨ Get (Add m ps) key ∈ ps.
Proof.
  intros Hs. destruct (Add_owner m ps key Hs) as [?|[_ ?]]; [by left|by right].
Qed.

(** X10 (what [Remove] does to any ring).  For every ring and every
    peer id, on the ring or not, [Remove] returns or panics on the slice
    expression [m.keys[idx+1:]].  When it returns, the sequence has lost
    exactly [replicas] hashes and is otherwise as before, and the table
    has lost the hashes of the virtual nodes of the peer and nothing
    else.  It panics whenever the sequence has fewer than [replicas]
    hashes, so on every empty ring with a positive [replicas]. *)
Theorem ring_remove_effect (m : Map) (p : string) :
  match Remove m p with
  | Ret m' =>
      length (keys m) = (length (keys m') + Z.to_nat (replicas m))%nat ∧
      keys m' `sublist_of` keys m ∧
      (∀ h, hashMap m' !! h
            = if decide (h ∈ vnodes m p) then None else hashMap m !! h) ∧
      hash m' = hash m ∧ replicas m' = replicas m
  | Panic msg => msg = slice_bounds ∧ 0 < replicas m
  | Diverge => False
  end ∧
  ((length (keys m) < Z.to_nat (replicas m))%nat →
   Remove m p = Panic slice_bounds).
Proof.
  pose proof (remove_loop_effect p (replica_range m) m) as Hloop.
  unfold Remove. unfold replica_range in Hloop at 2 3. rewrite length_seq in Hloop.
  destruct (foldl _ (Ret m) (replica_range m)) as [m'|msg|].
  - destruct Hloop as (Hlen & Hsub & HM & Hh & Hr).
    split; [|lia]. split_and!; try done.
    intros h. rewrite HM. apply lookup_foldl_delete.
  - destruct Hloop as [-> Hne]. split; [|done]. split; [done|].
    unfold replica_range in Hne. destruct (replicas m); try done; lia.
  - done.
Qed.

End ring_ownership.

Section ring_ownership_examples.

Import consistenthash.

Lemma ring_add_moves_to_new_witness :
  Get (Add ring3 ["8"]) "27" = Get ring3 "27" ∨ Get (Add ring3 ["8"]) "27" ∈ ["8"].
Proof. apply ring_add_moves_to_new, ring3_sorted. Defined.

Lemma ring_remove_keeps_others_witness :
  ∃ m', Remove ring3 "4" = Ret m' ∧ Get m' "11" = Get ring3 "11".
Proof.
  destruct (Remove ring3 "4") as [m'| |] eqn:HR; [|vm_compute in HR; discriminate..].
  exists m'. split; [done|].
  apply (ring_remove_keeps_others ring3 m' "4" "11" ring3_sorted); [| |exact HR|];
    clear HR.
  - by apply (bool_decide_unpack _); vm_compute.
  - intros h Hh. vm_compute in Hh.
    repeat (apply elem_of_cons in Hh as [->|Hh]); [..|by apply elem_of_nil in Hh];
      (split; [by apply (bool_decide_unpack _); vm_compute|by vm_compute]).
  - by vm_compute.
Defined.

End ring_ownership_examples.

(** ** Single flight: one thunk per key, one result for all *)

Section flight_sharing.

Context {A W : Type}.
Import singleflight.

Implicit Types (s : pool A W) (p : pc A W) (g : Group A) (ev : event A W).

(** The results of a call that is over are never written again. *)
Lemma settled_fire s ev c v e : inv s → settled s c v e → settled (fire s ev) c v e.
Proof.
  intros Hinv Hc. unfold settled in *.
  pose proof (lookup_lt_Some _ _ _ Hc) as Hlt.
  destruct ev as [i|k fn]; simpl; [|done].
  unfold sched. destruct (threads s !! i) as [p|] eqn:Hp; [|done].
  destruct p as [k fn|c0|k c0 fn|k c0|v0 e0|msg|]; simpl; try done.
  - destruct (default ∅ (m (grp s)) !! k); simpl; [done|].
    by rewrite lookup_app_l.
  - destruct (calls (grp s) !! c0) as [cl0|]; [|done]. by case_decide.
  - destruct (inv_calling s Hinv i k c0 fn Hp) as (cl & Hcl & Hwg).
    assert (c0 ≠ c) as Hne by (intros ->; rewrite Hc in Hcl; by injection Hcl as <-).
    destruct (fn (world s)) as [w' [[v' e']|msg|]]; simpl; [|done..].
    by rewrite list_lookup_alter_ne.
  - by destruct (calls (grp s) !! c0).
Qed.

(** The goroutine in charge of a call that is over can only return its
    results. *)
Lemma charge_fire s ev i key c v e :
  settled s c v e →
  threads s !! i = Some (Cleaning key c) ∨ threads s !! i = Some (Returned v e) →
  threads (fire s ev) !! i = Some (Cleaning key c) ∨
  threads (fire s ev) !! i = Some (Returned v e).
Proof.
  intros Hc Hi. unfold settled in Hc. destruct ev as [j|k fn]; simpl.
  2:{ destruct Hi as [Hi|Hi]; [left|right]; by apply lookup_app_l_Some. }
  unfold sched. destruct (threads s !! j) as [p|] eqn:Hp; [|done].
  destruct (step (grp s) (world s) p) as [[[g w] p']|] eqn:Hstep; [|done]. simpl.
  destruct (decide (j = i)) as [->|Hne]; [|by rewrite list_lookup_insert_ne].
  rewrite list_lookup_insert_eq by (by eapply lookup_lt_Some).
  destruct Hi as [Hi|Hi]; rewrite Hi in Hp; injection Hp as <-; [|done].
  simpl in Hstep. rewrite Hc in Hstep. injection Hstep as <- <- <-. by right.
Qed.

Lemma settled_exec s evs i key c v e :
  inv s → settled s c v e →
  threads s !! i = Some (Cleaning key c) ∨ threads s !! i = Some (Returned v e) →
  inv (exec s evs) ∧ settled (exec s evs) c v e ∧
  (threads (exec s evs) !! i = Some (Cleaning key c) ∨
   threads (exec s evs) !! i = Some (Returned v e)).
Proof.
  revert s. induction evs as [|ev evs IH]; intros s Hinv Hc Hi; [done|].
  apply IH.
  - destruct ev; [by apply inv_sched|by apply inv_spawn].
  - by apply settled_fire.
  - by apply charge_fire.
Qed.

(** X11 (one thunk per key at a time).  In every state that calls of
    [Do] on a fresh [Group] can reach, whatever the interleaving, at most
    one goroutine is between its [g.m[key] = c] and its
    [delete(g.m, key)] for a given key, so no two thunks of one key run
    at the same time; and the map holds the handle of that goroutine. *)
Theorem do_one_in_flight (w0 : W) (evs : list (event A W)) (i j : nat)
    (pi pj : pc A W) (k : string) (ci cj : nat) :
  let s := exec (mkPool empty w0 []) evs in
  threads s !! i = Some pi → threads s !! j = Some pj →
  owner pi = Some (k, ci) → owner pj = Some (k, cj) →
  i = j ∧ default ∅ (m (grp s)) !! k = Some ci.
Proof.
  intros s Hi Hj Hoi Hoj.
  assert (inv s) as Hinv by apply inv_exec, inv_init.
  split; [by eapply (inv_unique s Hinv i j)|by eapply (inv_owner s Hinv i)].
Qed.

(** X12 (one result for all).  Take any execution from the empty group
    in which a goroutine is about to run the thunk of its [Do(key, fn)],
    and let the thunk return [(v, e)].  In every continuation, whatever
    the goroutines do and whatever calls arrive, the handle keeps these
    results, the goroutine itself returns [(v, e)], and every goroutine
    waiting on the handle returns [(v, e)] at its next step, without
    running its thunk. *)
Theorem do_shares_result (w0 : W) (evs0 : list (event A W)) (i : nat)
    (key : string) (c : nat) (fn : thunk A W) (w' : W) (v : option A) (e : error) :
  let s := exec (mkPool empty w0 []) evs0 in
  threads s !! i = Some (Calling key c fn) →
  fn (world s) = (w', Ret (v, e)) →
  ∀ evs,
    let s' := exec (sched s i) evs in
    settled s' c v e ∧
    (threads s' !! i = Some (Cleaning key c) ∨ threads s' !! i = Some (Returned v e)) ∧
    (∀ j, threads s' !! j = Some (Waiting c) →
          threads (sched s' j) !! j = Some (Returned v e) ∧
          world (sched s' j) = world s').
Proof.
  intros s Hi Hfn evs s'.
  assert (inv s) as Hinv by apply inv_exec, inv_init.
  destruct (inv_calling s Hinv i key c fn Hi) as (cl & Hcl & Hwg).
  assert (sched s i
          = mkPool (mkGroup (m (grp s))
                      (alter (λ cl, mkCall (wg cl - 1) v e) c (calls (grp s))))
              w' (<[i := Cleaning key c]> (threads s))) as Hstep.
  { unfold sched. rewrite Hi. simpl. by rewrite Hfn. }
  destruct (settled_exec (sched s i) evs i key c v e) as (_ & Hset & Hown).
  - by apply inv_sched.
  - rewrite Hstep. unfold settled. simpl.
    rewrite list_lookup_alter, Hcl. simpl. rewrite decide_True by done.
    by rewrite Hwg.
  - left. rewrite Hstep. simpl. apply list_lookup_insert_eq. by eapply lookup_lt_Some.
  - split_and!; [done..|]. intros j Hj.
    assert (calls (grp s') !! c = Some (mkCall 0 v e)) as Hc' by exact Hset.
    unfold sched. rewrite Hj. simpl. rewrite Hc'. simpl. split; [|done].
    apply list_lookup_insert_eq. by eapply lookup_lt_Some.
Qed.

(** X13 (nothing is remembered between calls).  With no call in
    flight for the key, [Do] runs its thunk, returns what the thunk
    returns and leaves no call in flight, for this key or any key that had
    none; so a second [Do] for the key runs its own thunk again. *)
Theorem do_runs_each_time (g : Group A) (w w1 w2 : W) (key : string)
    (fn1 fn2 : thunk A W) (v1 v2 : option A) (e1 e2 : error) :
  idle g key →
  fn1 w = (w1, Ret (v1, e1)) →
  fn2 w1 = (w2, Ret (v2, e2)) →
  ∃ g1 g2,
    Do g w key fn1 = (g1, w1, Returned v1 e1) ∧
    Do g1 w1 key fn2 = (g2, w2, Returned v2 e2) ∧
    ∀ k, k = key ∨ idle g k → idle g2 k.
Proof.
  intros Hidle H1 H2.
  assert (∀ (g : Group A) (w w' : W) (fn : thunk A W) v e,
            idle g key → fn w = (w', Ret (v, e)) →
            ∃ g', Do g w key fn = (g', w', Returned v e) ∧
                  ∀ k, k = key ∨ idle g k → idle g' k) as Hone.
  { clear. intros g w w' fn v e Hidle Hfn. rewrite (Do_idle g w key fn Hidle), Hfn.
    eexists. split; [done|]. intros k Hk. unfold idle. simpl.
    destruct (decide (k = key)) as [->|Hne]; [by rewrite lookup_delete_eq|].
    rewrite lookup_delete_ne, lookup_insert_ne by done. by destruct Hk. }
  destruct (Hone g w w1 fn1 v1 e1 Hidle H1) as (g1 & HD1 & Hidle1).
  destruct (Hone g1 w1 w2 fn2 v2 e2 (Hidle1 key (or_introl eq_refl)) H2)
    as (g2 & HD2 & Hidle2).
  exists g1, g2. split_and!; [done..|].
  intros k [->|Hk]; apply Hidle2; [by left|right]. apply Hidle1. by right.
Qed.

End flight_sharing.

Section flight_sharing_examples.

Import singleflight.

Lemma do_one_in_flight_witness :
  let s := exec (mkPool empty 0%nat [])
             [Call "x" bar; Run 0%nat; Call "x" bar; Run 1%nat; Run 0%nat] in
  threads s !! 0%nat = Some (Cleaning "x" 0) ∧
  default ∅ (m (grp s)) !! "x" = Some 0%nat.
Proof.
  split; [by vm_compute|].
  apply (do_one_in_flight 0%nat
           [Call "x" bar; Run 0%nat; Call "x" bar; Run 1%nat; Run 0%nat]
           0 0 (Cleaning "x" 0) (Cleaning "x" 0) "x" 0 0); by vm_compute.
Defined.

(** Scenario S4: the second goroutine arrives while the first is in
    flight and gets its result. *)
Lemma do_shares_result_witness :
  let s' := exec (mkPool empty 0%nat [])
              [Call "x" bar; Run 0%nat; Call "x" bar; Run 1%nat; Run 0%nat] in
  threads s' !! 1%nat = Some (Waiting 0) ∧
  threads (sched s' 1) !! 1%nat = Some (Returned (Some "bar") None) ∧
  world (sched s' 1) = world s'.
Proof.
  split; [by vm_compute|].
  apply (do_shares_result 0%nat [Call "x" bar; Run 0%nat; Call "x" bar; Run 1%nat]
           0 "x" 0 bar 1%nat (Some "bar") None eq_refl eq_refl []).
  by vm_compute.
Defined.

Lemma do_runs_each_time_witness :
  ∃ g1 g2 : Group string,
    Do empty 0%nat "x" bar = (g1, 1%nat, Returned (Some "bar") None) ∧
    Do g1 1%nat "x" bar = (g2, 2%nat, Returned (Some "bar") None).
Proof.
  destruct (do_runs_each_time empty 0%nat 1%nat 2%nat "x" bar bar
              (Some "bar") (Some "bar") None None)
    as (g1 & g2 & H1 & H2 & _); [done..|].
  by exists g1, g2.
Defined.

End flight_sharing_examples.

(** ** The Group: hits, read-through, and the handler over it *)

Section group_cache.

Import geecache.

Lemma set_mainCache_same (g : Group) :
  set_mainCache (mkcache (cacheBytes (mainCache g)) (lru_ (mainCache g))) g = g.
Proof. by destruct g as [? ? [] ? ?]. Qed.

(** A [Get] that finds the key in the cache. *)
Lemma Get_hit (g : Group) (key : string) (v : ByteView) (l : lru.Cache ByteView unit) :
  key ≠ "" →
  lru.Get (lru_ (mainCache g)) key = Ret (Some v, l) →
  Get (Some g) key
  = Ret (v, None, Some (set_mainCache (mkcache (cacheBytes (mainCache g)) l) g)).
Proof.
  intros Hkey HG. unfold Get. rewrite decide_False by done.
  unfold cache_get. by rewrite HG.
Qed.

(** A [Get] that misses the cache, with no call in flight, no peer that
    answers and an origin that does. *)
Lemma Get_origin (g : Group) (key : string) (bs : bytes) :
  key ≠ "" →
  lru.wf (lru_ (mainCache g)) →
  0 ≤ lru.maxBytes (lru_ (mainCache g)) →
  lru.cache (lru_ (mainCache g)) !! key = None →
  singleflight.idle (loader g) key →
  peer_fetch g key = None ∨ (∃ v0 e0, peer_fetch g key = Some (Ret (v0, Some e0))) →
  getter g key = (bs, None) →
  ∃ l sf,
    lru.Add (lru_ (mainCache g)) key (mkByteView bs) () = Ret (l, ()) ∧
    Get (Some g) key
    = Ret (mkByteView bs, None,
           Some (mkGroup (name g) (getter g) (mkcache (cacheBytes (mainCache g)) l)
                   (peers g) sf)) ∧
    ∀ k, k = key ∨ singleflight.idle (loader g) k → singleflight.idle sf k.
Proof.
  intros Hkey Hwf HB Hmiss Hidle Hfetch Hget.
  destruct (lru.Add (lru_ (mainCache g)) key (mkByteView bs) ()) as [[l []]| |] eqn:HA.
  2,3: destruct (Add_total (lru_ (mainCache g)) key (mkByteView bs) () Hwf HB)
         as (? & ? & HA'); congruence.
  unfold Get. rewrite decide_False by done.
  unfold cache_get, lru.Get. rewrite Hmiss. simpl. rewrite set_mainCache_same.
  unfold load. rewrite (Do_idle _ _ _ _ Hidle).
  destruct (load_thunk_local g key Hfetch) as (e0 & ->).
  unfold getLocally. rewrite Hget. unfold populateCache, cache_add, cloneBytes.
  rewrite HA. simpl. eexists l, _. split; [done|]. split; [done|].
  intros k Hk. unfold singleflight.idle. simpl.
  destruct (decide (k = key)) as [->|Hne]; [by rewrite lookup_delete_eq|].
  rewrite lookup_delete_ne, lookup_insert_ne by done. by destruct Hk.
Qed.

(** X14 (a hit is answered by the cache alone).  When the key is not
    empty and the cache of the Group, a cache that [New], [Add] and [Get]
    can produce, holds the entry [(key, v)], [Get] returns [v] without
    error; it consults neither the origin nor the peers, and leaves the
    loader as it is, whether or not a call for the key is in flight; the
    entry moves to the front of the list, and the other entries, the map
    and the byte counter stay as they are. *)
Theorem group_get_hit (g : Group) (key : string) (v : ByteView) :
  key ≠ "" →
  lru.wf (lru_ (mainCache g)) →
  lru.Entry key v ∈ lru.entries (lru_ (mainCache g)) →
  ∃ l,
    (∀ getter2 peers2 loader2,
       Get (Some (mkGroup (name g) getter2 (mainCache g) peers2 loader2)) key
       = Ret (v, None,
              Some (mkGroup (name g) getter2 (mkcache (cacheBytes (mainCache g)) l)
                      peers2 loader2))) ∧
    lru.wf l ∧
    lru.entries l
    = lru.Entry key v
        :: filter (λ kv, lru.key kv ≠ key) (lru.entries (lru_ (mainCache g))) ∧
    lru.nbytes l = lru.nbytes (lru_ (mainCache g)).
Proof.
  intros Hkey Hwf Hin.
  destruct (Get_entries (lru_ (mainCache g)) key Hwf)
    as (o & l & HG & Hwf' & Hiff & Hent & Hn & _).
  apply Hiff in Hin. subst o. exists l. split_and!; try done.
  intros getter2 peers2 loader2.
  by rewrite (Get_hit (mkGroup (name g) getter2 (mainCache g) peers2 loader2)
                key v l Hkey HG).
Qed.

(** X15 (read-through).  Take a Group whose cache is one that [New],
    [Add] and [Get] can produce, with a budget that is not negative, and a
    key that is not empty, is not in the cache and has no call in flight.
    When no peer is asked, or the peer fails, and the origin answers [bs]
    without error, [Get] returns the view of [bs] and has inserted it
    into the cache with [Add].  If moreover the entry fits the budget by
    itself, or there is no budget, a later [Get] of the key returns the
    same view from the cache and changes nothing, whatever the origin,
    the peers and the loader are by then. *)
Theorem group_read_through (g : Group) (key : string) (bs : bytes) :
  key ≠ "" →
  lru.wf (lru_ (mainCache g)) →
  0 ≤ lru.maxBytes (lru_ (mainCache g)) →
  lru.cache (lru_ (mainCache g)) !! key = None →
  singleflight.idle (loader g) key →
  peer_fetch g key = None ∨ (∃ v0 e0, peer_fetch g key = Some (Ret (v0, Some e0))) →
  getter g key = (bs, None) →
  ∃ g',
    Get (Some g) key = Ret (mkByteView bs, None, Some g') ∧
    lru.Add (lru_ (mainCache g)) key (mkByteView bs) () = Ret (lru_ (mainCache g'), ()) ∧
    lru.wf (lru_ (mainCache g')) ∧
    singleflight.idle (loader g') key ∧
    (lru.maxBytes (lru_ (mainCache g)) = 0 ∨
     lru.entry_bytes (lru.Entry key (mkByteView bs)) ≤ lru.maxBytes (lru_ (mainCache g)) →
     ∀ getter2 peers2 loader2,
       let g2 := mkGroup (name g) getter2 (mainCache g') peers2 loader2 in
       Get (Some g2) key = Ret (mkByteView bs, None, Some g2)).
Proof.
  intros Hkey Hwf HB Hmiss Hidle Hfetch Hget.
  destruct (Get_origin g key bs Hkey Hwf HB Hmiss Hidle Hfetch Hget)
    as (l & sf & HA & HG & Hsf).
  destruct (Add_wf _ _ _ _ _ _ Hwf HA) as (Hwf' & _).
  eexists. split; [exact HG|]. simpl. split_and!; try done.
  - apply Hsf. by left.
  - intros Hfit getter2 peers2 loader2.
    pose proof (proj2 (Add_front _ _ _ _ _ _ Hwf HA) Hfit) as Hfront.
    pose proof (Get_at_front l key (mkByteView bs) Hwf' Hfront) as HGl.
    by rewrite (Get_hit (mkGroup (name g) getter2
                           (mkcache (cacheBytes (mainCache g)) l) peers2 loader2)
                  key (mkByteView bs) l Hkey HGl).
Qed.

(** A [Get] that misses the cache, with no call in flight, no peer that
    answers and an origin that fails. *)
Lemma Get_origin_error (g : Group) (key : string) (bs : bytes) (e : string) :
  key ≠ "" →
  lru.cache (lru_ (mainCache g)) !! key = None →
  singleflight.idle (loader g) key →
  peer_fetch g key = None ∨ (∃ v0 e0, peer_fetch g key = Some (Ret (v0, Some e0))) →
  getter g key = (bs, Some e) →
  ∃ sf,
    Get (Some g) key = Ret (mkByteView [], Some e, Some (set_loader sf g)) ∧
    ∀ k, k = key ∨ singleflight.idle (loader g) k → singleflight.idle sf k.
Proof.
  intros Hkey Hmiss Hidle Hfetch Hget.
  unfold Get. rewrite decide_False by done.
  unfold cache_get, lru.Get. rewrite Hmiss. simpl. rewrite set_mainCache_same.
  unfold load. rewrite (Do_idle _ _ _ _ Hidle).
  destruct (load_thunk_local g key Hfetch) as (e0 & ->).
  rewrite (getLocally_failing g key bs e Hget). simpl.
  eexists. split; [done|].
  intros k Hk. unfold singleflight.idle. simpl.
  destruct (decide (k = key)) as [->|Hne]; [by rewrite lookup_delete_eq|].
  rewrite lookup_delete_ne, lookup_insert_ne by done. by destruct Hk.
Qed.

(** What holds of a Group without peers between the calls of one
    goroutine: its cache is well formed, within a budget that is not
    negative, no call is in flight, and every entry of the cache holds
    what the origin answers for its key. *)
Lemma Get_transparent (getter0 : Getter) (g : Group) (key : string) :
  lru.wf (lru_ (mainCache g)) →
  0 ≤ lru.maxBytes (lru_ (mainCache g)) →
  (∀ k, singleflight.idle (loader g) k) →
  peers g = None → getter g = getter0 →
  (∀ k v, lru.Entry k v ∈ lru.entries (lru_ (mainCache g)) → getter0 k = (b v, None)) →
  ∃ g',
    Get (Some g) key
    = Ret ((origin_answer getter0 key).1, (origin_answer getter0 key).2, Some g') ∧
    lru.wf (lru_ (mainCache g')) ∧
    0 ≤ lru.maxBytes (lru_ (mainCache g')) ∧
    (∀ k, singleflight.idle (loader g') k) ∧
    peers g' = None ∧ getter g' = getter0 ∧
    (∀ k v, lru.Entry k v ∈ lru.entries (lru_ (mainCache g')) →
            getter0 k = (b v, None)).
Proof.
  intros Hwf HB Hidle Hpeers Hgetter Hent. unfold origin_answer.
  destruct (decide (key = "")) as [->|Hkey].
  { exists g. by split_and!. }
  assert (peer_fetch g key = None) as Hfetch by (unfold peer_fetch; by rewrite Hpeers).
  destruct (Get_entries (lru_ (mainCache g)) key Hwf)
    as (o & l & HG & Hwf' & Hiff & Hent' & _ & Hcache & Hnone).
  destruct (wf_Get _ _ _ _ Hwf HG) as (_ & HB' & _).
  destruct o as [v|].
  - pose proof (proj1 (Hiff v) eq_refl) as Hin.
    rewrite (Hent key v Hin). simpl.
    eexists. split; [rewrite (Get_hit g key v l Hkey HG); by destruct v|].
    simpl. split_and!; try done; [by rewrite HB'|].
    intros k v'. rewrite Hent'. intros [[= -> ->]|Hin']%elem_of_cons; [by apply Hent|].
    apply Hent. by apply list_elem_of_filter in Hin' as [_ ?].
  - assert (lru.cache (lru_ (mainCache g)) !! key = None) as Hmiss.
    { destruct (Get_cases (lru_ (mainCache g)) key Hwf)
        as [[? _]|(? & ? & _ & _ & _ & _ & HG')]; [done|congruence]. }
    destruct (getter0 key) as [bs [e|]] eqn:Hget; rewrite <- Hgetter in Hget.
    + destruct (Get_origin_error g key bs e Hkey Hmiss (Hidle key) (or_introl Hfetch) Hget)
        as (sf & -> & Hsf).
      eexists. split; [done|]. simpl. split_and!; try done.
      intros k. apply Hsf. right. apply Hidle.
    + destruct (Get_origin g key bs Hkey Hwf HB Hmiss (Hidle key) (or_introl Hfetch) Hget)
        as (l' & sf & HA & -> & Hsf).
      destruct (Add_wf _ _ _ _ _ _ Hwf HA) as (Hwf1 & _ & HB1 & _).
      eexists. split; [done|]. simpl. split_and!; try done.
      * by rewrite HB1.
      * intros k. apply Hsf. right. apply Hidle.
      * intros k v Hin.
        destruct (Add_entries_sub _ _ _ _ _ _ Hwf HA _ Hin) as [[= -> ->]|Hin'].
        -- simpl. by rewrite <- Hgetter.
        -- by apply Hent.
Qed.

(** X19 (the cache is transparent).  Take the Group that [NewGroup]
    makes with a budget that is not negative and an origin whose answer
    depends on the key alone, register no peers, and let one goroutine
    call [Get] for any keys, one call after the other.  No call panics or
    hangs, and each returns what the origin answers for its key: its
    bytes, or its error with the empty view, and the error of the empty
    key; hits, insertions and evictions never show. *)
Theorem group_transparent (groups : registry) (name0 : string) (B : Z)
    (getter0 : Getter) (keys : list string) :
  0 ≤ B →
  ∃ g0 groups' g,
    NewGroup groups name0 B (Some getter0) = Ret (g0, groups') ∧
    GetGroup groups' name0 = Some g0 ∧
    Gets g0 keys = Ret (origin_answer getter0 <$> keys, g).
Proof.
  intros HB. eexists _, _. unfold NewGroup, GetGroup.
  assert (∀ g,
            lru.wf (lru_ (mainCache g)) →
            0 ≤ lru.maxBytes (lru_ (mainCache g)) →
            (∀ k, singleflight.idle (loader g) k) →
            peers g = None → getter g = getter0 →
            (∀ k v, lru.Entry k v ∈ lru.entries (lru_ (mainCache g)) →
                    getter0 k = (b v, None)) →
            ∃ g', Gets g keys = Ret (origin_answer getter0 <$> keys, g')) as Hall.
  { induction keys as [|key keys IH]; intros g Hwf HB' Hidle Hpeers Hgetter Hent.
    - by exists g.
    - destruct (Get_transparent getter0 g key Hwf HB' Hidle Hpeers Hgetter Hent)
        as (g1 & HG & Hwf1 & HB1 & Hidle1 & Hpeers1 & Hgetter1 & Hent1).
      destruct (IH g1 Hwf1 HB1 Hidle1 Hpeers1 Hgetter1 Hent1) as (g2 & HG2).
      exists g2. cbn [Gets]. rewrite HG. simpl. rewrite HG2. simpl.
      by destruct (origin_answer getter0 key). }
  destruct (Hall (mkGroup name0 getter0 (newcache B) None singleflight.empty))
    as (g & Hg); simpl; try done.
  - apply wf_New.
  - intros k v Hin. by apply elem_of_nil in Hin.
  - exists g. split; [done|]. split; [by rewrite lookup_insert_eq|done].
Qed.

Lemma cut_none (s : string) : no_slash s = true → cut s = None.
Proof.
  induction s as [|a s IH]; [done|]. simpl. intros [Ha Hs]%andb_true_iff.
  apply negb_true_iff in Ha. by rewrite Ha, IH.
Qed.

(** X16 (a request for a registered Group).  For a path made of
    [basePath], the name of a registered Group without slash, a slash and
    a key, which is everything after that slash, the handler calls [Get]
    on the Group once.  When [Get] returns a view, the handler sets the
    content type and writes a copy of its bytes; when [Get] returns an
    error, the handler answers 500 with the text of the error; when [Get]
    panics or hangs, so does the handler, with nothing written. *)
Theorem serve_known_group (p : HTTPPool) (groups : registry)
    (groupName key : string) (g : Group) :
  no_slash groupName = true →
  GetGroup groups groupName = Some g →
  ServeHTTP p groups (basePath p +:+ (groupName +:+ String (Ascii.ascii_of_nat 47) key))
  = match Get (Some g) key with
    | Ret (view, None, g') =>
        ([SetHeader "Content-Type" "application/octet-stream"; Write_ (b view)],
         Ret (<[groupName := default g g']> groups))
    | Ret (_, Some e, g') =>
        ([Error_ e StatusInternalServerError],
         Ret (<[groupName := default g g']> groups))
    | Panic msg => ([], Panic msg)
    | Diverge => ([], Diverge)
    end.
Proof.
  intros Hg Hsome. unfold ServeHTTP.
  rewrite prefix_app. simpl negb. cbv iota.
  rewrite from_app. unfold SplitN2. rewrite (cut_app _ _ Hg).
  rewrite Hsome.
  assert (∀ v e g', Get (Some g) key = Ret (v, e, g') → is_Some g') as Hsomeg.
  { intros v e g'. unfold Get. case_decide; [by intros [= <- <- <-]|].
    destruct (cache_get _ _) as [[[hit|] c]| |]; simpl; try done.
    - by intros [= <- <- <-].
    - destruct (load _ _) as [[[? ?] ?]| |]; simpl; try done. by intros [= <- <- <-]. }
  destruct (Get (Some g) key) as [[[view e] g']| |] eqn:HG; [|done..].
  destruct (Hsomeg view e g' eq_refl) as [g1 ->]. by destruct e.
Qed.

(** X17 (requests the handler refuses).  A path that does not start
    with [basePath] makes the handler panic before it writes anything; a
    path with no slash after [basePath] is answered 400 and nothing
    else; in both cases no Group is touched. *)
Theorem serve_malformed (p : HTTPPool) (groups : registry) :
  (∀ path, String.prefix (basePath p) path = false →
     ServeHTTP p groups path
     = ([], Panic ("HTTPPool serving unexpected path: " +:+ path))) ∧
  (∀ rest, no_slash rest = true →
     ServeHTTP p groups (basePath p +:+ rest)
     = ([Error_ "Bad Request" StatusBadRequest], Ret groups)).
Proof.
  split.
  - intros path Hpre. unfold ServeHTTP. by rewrite Hpre.
  - intros rest Hrest. unfold ServeHTTP.
    rewrite prefix_app. simpl negb. cbv iota.
    rewrite from_app. unfold SplitN2. by rewrite (cut_none _ Hrest).
Qed.

Lemma getters_lookup (f : string → httpGetter) (ps : list string)
    (M : gmap string httpGetter) (peer : string) :
  foldl (λ gs q, <[q := f q]> gs) M ps !! peer
  = if decide (peer ∈ ps) then Some (f peer) else M !! peer.
Proof.
  induction ps as [|q ps IH] using rev_ind.
  - cbn [foldl]. rewrite decide_False; [done|]. by intros ?%elem_of_nil.
  - rewrite foldl_app. cbn [foldl]. destruct (decide (peer = q)) as [->|Hne].
    + rewrite lookup_insert_eq. rewrite decide_True; [done|].
      apply elem_of_app. right. by left.
    + rewrite lookup_insert_ne by done. rewrite IH.
      destruct (decide (peer ∈ ps)) as [Hin|Hnin].
      * rewrite decide_True; [done|]. apply elem_of_app. by left.
      * rewrite decide_False; [done|].
        intros [?|?%list_elem_of_singleton]%elem_of_app; done.
Qed.

(** X18 (the peers a pool picks after [Set]).  On the pool that
    [Set(peers...)] leaves, [PickPeer] never panics and never answers
    [true] with a nil client: it answers [(nil, false)], or [true] with
    the client of a peer of [peers] that is neither empty nor [self],
    the one the ring gives the key to, whose base URL is the peer
    followed by [basePath]. *)
Theorem pick_peer_after_set (H : Hash) (p : HTTPPool) (peers : list string)
    (key : string) :
  PickPeer (Set_ H p peers) key = Ret (None, false) ∨
  ∃ peer,
    peer ∈ peers ∧ peer ≠ "" ∧ peer ≠ self p ∧
    peer = consistenthash.Get
             (consistenthash.Add (consistenthash.New H defaultReplicas None) peers) key ∧
    PickPeer (Set_ H p peers) key
    = Ret (Some (mkhttpGetter (peer +:+ basePath p)), true).
Proof.
  unfold PickPeer, Set_. cbn [peers_ self httpGetters].
  set (ring := consistenthash.Add _ peers).
  case_decide as Hpeer; [|by left]. right. destruct Hpeer as [Hne Hself].
  assert (consistenthash.Get ring key ∈ peers) as Hin.
  { destruct (Add_owner (consistenthash.New H defaultReplicas None) peers key
                (New_sorted _ _ _)) as [HG|[_ HG]]; [|done].
    exfalso. apply Hne. subst ring. by rewrite HG. }
  exists (consistenthash.Get ring key). split_and!; try done.
  rewrite (getters_lookup (λ q, mkhttpGetter (q +:+ basePath p))).
  by rewrite decide_True.
Qed.

End group_cache.

Section group_cache_examples.

Import geecache.

Lemma scores_wf : lru.wf (lru_ (mainCache main.scores)).
Proof. apply wf_New. Qed.

(** Scenario S5: Tom is loaded from the origin, then served from the
    cache. *)
Lemma group_read_through_witness :
  ∃ g', Get (Some main.scores) "Tom" = Ret (view "630", None, Some g') ∧
        let g2 := mkGroup "scores" main.search (mainCache g') None (loader g') in
        Get (Some g2) "Tom" = Ret (view "630", None, Some g2).
Proof.
  destruct (group_read_through main.scores "Tom" (String.list_byte_of_string "630"))
    as (g' & HG & _ & _ & _ & Hhit); [done|apply scores_wf|done|done|done|by left|done|].
  exists g'. split; [exact HG|].
  assert (lru.entry_bytes (lru.Entry "Tom" (mkByteView (String.list_byte_of_string "630")))
          ≤ lru.maxBytes (lru_ (mainCache main.scores))) as Hfit by (by vm_compute).
  exact (Hhit (or_intror Hfit) main.search None (loader g')).
Defined.

(** A cache that holds Tom and Sam: Tom is served from it. *)
Lemma group_get_hit_witness :
  ∃ c l : lru.Cache ByteView unit,
    lru.run [lru.OpAdd "Tom" (view "630"); lru.OpAdd "Sam" (view "567")]
      (lru.New 2048 None) () = Ret (c, ()) ∧
    Get (Some (mkGroup "scores" main.search (mkcache 2048 c) None singleflight.empty))
      "Tom"
    = Ret (view "630", None,
           Some (mkGroup "scores" main.search (mkcache 2048 l) None singleflight.empty)).
Proof.
  destruct (lru.run [lru.OpAdd "Tom" (view "630"); lru.OpAdd "Sam" (view "567")]
              (lru.New 2048 None) ()) as [[c []]| |] eqn:Hrun;
    [|vm_compute in Hrun; discriminate..].
  destruct (run_inv _ _ _ _ _ (wf_New 2048 None) Hrun) as (Hwf & _).
  pose proof Hrun as Hc. vm_compute in Hc. injection Hc as Hc.
  destruct (group_get_hit
              (mkGroup "scores" main.search (mkcache 2048 c) None singleflight.empty)
              "Tom" (view "630")) as (l & HG & _); [done|exact Hwf| |].
  - simpl. rewrite <- Hc. vm_compute. right. left.
  - exists c, l. split; [done|]. apply HG.
Defined.

(** Scenario S5 continued: the Group of the demonstration asked for Tom,
    for a key the origin does not have, and for Tom again. *)
Lemma group_transparent_witness :
  ∃ g, Gets main.scores ["Tom"; "Kim"; "Tom"]
       = Ret ([(view "630", None); (mkByteView [], Some "Kim not exist");
               (view "630", None)], g).
Proof.
  destruct (group_transparent ∅ "scores" 2048 main.search ["Tom"; "Kim"; "Tom"])
    as (g0 & groups' & g & [= <- _] & _ & HG); [done|].
  by exists g.
Defined.

(** The request [/_geecache/scores/Tom] to a node that has the Group
    of the demonstration. *)
Lemma serve_known_group_witness :
  (ServeHTTP (NewHTTPool "http://localhost:8001") {["scores" := main.scores]}
     "/_geecache/scores/Tom").1
  = [SetHeader "Content-Type" "application/octet-stream";
     Write_ (String.list_byte_of_string "630")].
Proof.
  pose proof (serve_known_group (NewHTTPool "http://localhost:8001")
                {["scores" := main.scores]} "scores" "Tom" main.scores
                eq_refl eq_refl) as H.
  apply (f_equal fst) in H. etrans; [exact H|]. vm_compute. reflexivity.
Defined.

End group_cache_examples.
